(** * cornrad: rounded corners on a polyline

    A shallow embedding of [src/cornrad.py] (class [CornerRadiusLineSet]).

    Python floats are reached through an arithmetic signature ([PyFloat]):
    the drawing code is written once against it, in the order of the source,
    and read at two instances,
    - [R_float]: exact real arithmetic, where the geometry is stated, and
    - [b64_float]: IEEE binary64 ([PrimFloat]), with the libm functions
      behind [math.acos], [math.tan], [math.sin] and [math.atan2] as a
      parameter, where overflow is visible.

    The sketch object [vsk] is modelled as a recorder: its current stroke
    layer and the list of the calls made on it. *)

From Stdlib Require Import ZArith List Bool Lia Floats Reals Lra.
From stdpp Require Import base list.

(** ** Exceptions and the two monads *)

Inductive exn : Type :=
  | ZeroDivisionError
  | OverflowError
  | ValueError
  | IndexError.

(** Pure, fallible computations: a value or the exception raised. *)
Definition E (A : Type) : Type := (exn + A)%type.

#[export] Instance E_ret : MRet E := fun _ a => inr a.
#[export] Instance E_bind : MBind E := fun _ _ f m =>
  match m with
  | inl e => inl e
  | inr a => f a
  end.

(** ** The arithmetic signature *)

Class PyFloat (F : Type) : Type := {
  fadd : F -> F -> F;                 (* x + y *)
  fsub : F -> F -> F;                 (* x - y *)
  fmul : F -> F -> F;                 (* x * y *)
  fneg : F -> F;                      (* -x *)
  fabs : F -> F;                      (* abs(x) *)
  fdiv : F -> F -> E F;               (* x / y, ZeroDivisionError *)
  fsquare : F -> E F;                 (* x ** 2, OverflowError *)
  math_sqrt : F -> E F;
  math_acos : F -> E F;
  math_tan : F -> E F;
  math_sin : F -> E F;
  math_atan2 : F -> F -> F;           (* math.atan2(y, x) *)
  flt : F -> F -> bool;               (* x < y *)
  math_pi : F;
  f0 : F;                             (* 0 *)
  f1 : F;                             (* 1.0 *)
  f2 : F;                             (* 2 *)
  f1em10 : F;                         (* 1e-10 *)
  f0_1 : F;                           (* 0.1 *)
  f0_05 : F;                          (* 0.05 *)
  f0_5 : F;                           (* 0.5 *)
}.

Declare Scope pyfloat_scope.
Delimit Scope pyfloat_scope with py.
Infix "+" := fadd : pyfloat_scope.
Infix "-" := fsub : pyfloat_scope.
Infix "*" := fmul : pyfloat_scope.
Notation "- x" := (fneg x) : pyfloat_scope.
Infix "<?" := flt : pyfloat_scope.

(** [x > y] on floats. *)
Definition fgt {F} `{PyFloat F} (x y : F) : bool := flt y x.
Infix ">?" := fgt : pyfloat_scope.

(** The builtins [min(a, b)] and [max(a, b)]: the first argument is kept
    unless the second compares strictly below (above) it. *)
Definition py_min {F} `{PyFloat F} (a b : F) : F := if (b <? a)%py then b else a.
Definition py_max {F} `{PyFloat F} (a b : F) : F := if (b >? a)%py then b else a.

(** ** The objects *)

Section Model.
Context {F : Type} {PF : PyFloat F}.

(** A control point [(x, y, r)]. *)
Definition point : Type := F * F * F.

Definition px (p : point) : F := p.1.1.
Definition py (p : point) : F := p.1.2.
Definition pr (p : point) : F := p.2.

(** The calls a sketch receives.  [Arc] is always called with
    [mode="center"]. *)
Inductive call : Type :=
  | Stroke (c : Z)
  | Circle (x y radius : F)
  | Line (x1 y1 x2 y2 : F)
  | Arc (x y w h start stop : F).

Record Vsketch : Type := mkVsketch {
  cur_stroke : Z;
  calls : list call;
}.

Record CornerRadiusLineSet : Type := mkSet {
  points : list point;
  debug : bool;
}.

Record world : Type := mkWorld {
  self : CornerRadiusLineSet;
  vsk : Vsketch;
}.

(** Stateful computations: the exception, if any, leaves the mutations
    made so far in place. *)
Definition M (A : Type) : Type := world -> E A * world.

#[export] Instance M_ret : MRet M := fun _ a w => (inr a, w).
#[export] Instance M_bind : MBind M := fun _ _ f m w =>
  match m w with
  | (inl e, w') => (inl e, w')
  | (inr a, w') => f a w'
  end.

Definition lift {A} (m : E A) : M A := fun w => (m, w).
Definition gets {A} (f : world -> A) : M A := fun w => (inr (f w), w).

Definition emit (c : call) (v : Vsketch) : Vsketch :=
  mkVsketch (cur_stroke v) (calls v ++ [c]).

(** The sketch records the calls it receives, in order, and accepts every
    one of them.  [vsketch] is not part of the repository: what its
    methods do with a call is not modelled, and an exception raised by one
    of them would leave [draw], which has no handler, at that call. *)
Definition vsk_stroke (c : Z) : M unit := fun w =>
  (inr tt, mkWorld (self w) (mkVsketch c (calls (vsk w) ++ [Stroke c]))).
Definition vsk_draw (c : call) : M unit := fun w =>
  (inr tt, mkWorld (self w) (emit c (vsk w))).
Definition vsk_circle (x y radius : F) : M unit := vsk_draw (Circle x y radius).
Definition vsk_line (x1 y1 x2 y2 : F) : M unit := vsk_draw (Line x1 y1 x2 y2).
Definition vsk_arc (x y w h start stop : F) : M unit :=
  vsk_draw (Arc x y w h start stop).

(** [self.points[i]] *)
Definition get_point (i : nat) : M point := fun w =>
  match points (self w) !! i with
  | Some p => (inr p, w)
  | None => (inl IndexError, w)
  end.

(** [self.points[i] = p] *)
Definition set_point (i : nat) (p : point) : M unit := fun w =>
  if decide (i < length (points (self w)))
  then (inr tt, mkWorld (mkSet (<[i := p]> (points (self w))) (debug (self w))) (vsk w))
  else (inl IndexError, w).

(** [add_point] (lines 22-24) and [get_points] (lines 26-28). *)
Definition add_point (x y r : F) : M unit := fun w =>
  (inr tt, mkWorld (mkSet (points (self w) ++ [(x, y, r)]) (debug (self w))) (vsk w)).
Definition get_points : M (list point) := gets (fun w => points (self w)).

Definition pass : M unit := mret tt.

(** [for x in l: body(x)] *)
Fixpoint for_each {A} (l : list A) (body : A -> M unit) : M unit :=
  match l with
  | [] => pass
  | x :: l' => body x ;; for_each l' body
  end.

(** ** [_debug_draw] (lines 30-39)

    A generator-based context manager without [try]/[finally]: an
    exception raised by the body leaves through the [yield] and the
    statement after it is not run. *)
Definition _debug_draw (stroke_value : Z) (body : M unit) : M unit :=
  let original_stroke := 1%Z in
  dbg ← gets (fun w => debug (self w));
  if dbg : bool then
    vsk_stroke stroke_value ;;
    body ;;
    vsk_stroke original_stroke
  else
    body.

(** ** The geometry of one corner *)

Local Open Scope pyfloat_scope.

(** [math.sqrt(v[0]**2 + v[1]**2)] (lines 72, 73 and 112). *)
Definition vec_length (v : F * F) : E F :=
  s ← fsquare v.1; t ← fsquare v.2; math_sqrt (s + t).

(** Lines 67-80: the unit vectors [Ag_unit] and [gB_unit]; [None] is the
    [continue] of line 77. *)
Definition unit_vectors (A g B : point) : E (option ((F * F) * (F * F))) :=
  let '(Ax, Ay, _r1) := A in
  let '(gx, gy, radius) := g in
  let '(Bx, By, _r2) := B in
  let Ag_vector := (gx - Ax, gy - Ay) in
  let gB_vector := (Bx - gx, By - gy) in
  Ag_length ← vec_length Ag_vector;
  gB_length ← vec_length gB_vector;
  if (Ag_length <? f1em10) || (gB_length <? f1em10) then mret None else
  ux ← fdiv Ag_vector.1 Ag_length; uy ← fdiv Ag_vector.2 Ag_length;
  vx ← fdiv gB_vector.1 gB_length; vy ← fdiv gB_vector.2 gB_length;
  mret (Some ((ux, uy), (vx, vy))).

(** Lines 82-91. *)
Definition interior_angle_of (Ag_unit gB_unit : F * F) : E F :=
  let neg_gB_unit := (- gB_unit.1, - gB_unit.2) in
  let dot_product := Ag_unit.1 * neg_gB_unit.1 + Ag_unit.2 * neg_gB_unit.2 in
  let dot_product := py_max (- f1) (py_min f1 dot_product) in
  math_acos dot_product.

(** The test of line 94. *)
Definition angle_skipped (interior_angle : F) : bool :=
  (interior_angle <? f1em10) || (interior_angle >? math_pi - f1em10).

(** Lines 109-112: the bisector sum and its length. *)
Definition bisector_sum (Ag_unit gB_unit : F * F) : F * F :=
  (- Ag_unit.1 + gB_unit.1, - Ag_unit.2 + gB_unit.2).

(** Lines 107-120, with the fallback of lines 114-118. *)
Definition bisector (Ag_unit gB_unit : F * F) : E (F * F) :=
  let '(bisector_x, bisector_y) := bisector_sum Ag_unit gB_unit in
  bisector_length ← vec_length (bisector_x, bisector_y);
  let '(bisector_x, bisector_y, bisector_length) :=
    if bisector_length <? f1em10
    then (Ag_unit.2, - Ag_unit.1, f1)
    else (bisector_x, bisector_y, bisector_length) in
  wx ← fdiv bisector_x bisector_length; wy ← fdiv bisector_y bisector_length;
  mret (wx, wy).

(** What lines 67-128 compute for a corner that is rounded. *)
Record corner : Type := mkCorner {
  tangent_a : F * F;        (* (ax, ay) *)
  tangent_b : F * F;        (* (bx, by) *)
  center : F * F;           (* (cx, cy) *)
  bisector_unit : F * F;
}.

(** Lines 67-128; [None] is [continue]. *)
Definition tangent_circle (A g B : point) : E (option corner) :=
  uv ← unit_vectors A g B;
  match uv with
  | None => mret None
  | Some (Ag_unit, gB_unit) =>
    let '(gx, gy, radius) := g in
    interior_angle ← interior_angle_of Ag_unit gB_unit;
    if angle_skipped interior_angle then mret None else
    half ← fdiv interior_angle f2;
    tn ← math_tan half;
    tangent_distance ← fdiv radius tn;
    let ax := gx - tangent_distance * Ag_unit.1 in
    let ay := gy - tangent_distance * Ag_unit.2 in
    let bx := gx + tangent_distance * gB_unit.1 in
    let by_ := gy + tangent_distance * gB_unit.2 in
    bisector_unit ← bisector Ag_unit gB_unit;
    half ← fdiv interior_angle f2;
    sn ← math_sin half;
    center_distance ← fdiv radius sn;
    let cx := gx + center_distance * bisector_unit.1 in
    let cy := gy + center_distance * bisector_unit.2 in
    mret (Some (mkCorner (ax, ay) (bx, by_) (cx, cy) bisector_unit))
  end.

(** Lines 147-169: the two angles handed to [vsk.arc]. *)
Definition arc_angles (a b c : F * F) : F * F :=
  let ca_vector := (a.1 - c.1, a.2 - c.2) in
  let cb_vector := (b.1 - c.1, b.2 - c.2) in
  let start_angle := math_atan2 ca_vector.2 ca_vector.1 in
  let end_angle := math_atan2 cb_vector.2 cb_vector.1 in
  let cross_z := ca_vector.1 * cb_vector.2 - ca_vector.2 * cb_vector.1 in
  let '(start_angle, end_angle) :=
    if cross_z <? f0 then (end_angle, start_angle) else (start_angle, end_angle) in
  let end_angle :=
    if fabs (end_angle - start_angle) >? math_pi then
      if end_angle >? start_angle
      then end_angle - f2 * math_pi
      else end_angle + f2 * math_pi
    else end_angle in
  (start_angle, end_angle).

(** ** [draw] (lines 41-181) *)

Definition len_points : M nat := gets (fun w => length (points (self w))).
Definition self_debug : M bool := gets (fun w => debug (self w)).

(** The body of the loop of line 55, for the index [i]. *)
Definition draw_window (i : nat) : M unit :=
  A ← get_point i;
  g ← get_point (i + 1);
  B ← get_point (i + 2);
  dbg ← self_debug;
  (if dbg : bool then
     _debug_draw 2 (vsk_line (px A) (py A) (px g) (py g) ;;
                    vsk_line (px g) (py g) (px B) (py B))
   else pass) ;;
  r ← lift (tangent_circle A g B);
  match r with
  | None => pass
  | Some k =>
    let '(ax, ay) := tangent_a k in
    let '(bx, by_) := tangent_b k in
    let '(cx, cy) := center k in
    let radius := pr g in
    dbg ← self_debug;
    (if dbg : bool then
       _debug_draw 2 (vsk_circle cx cy radius) ;;
       _debug_draw 3 (vsk_circle ax ay f0_05 ;; vsk_circle bx by_ f0_05) ;;
       _debug_draw 3 (
         let debug_bisector_length := f0_5 in
         vsk_line (px g) (py g)
                  (px g + debug_bisector_length * (bisector_unit k).1)
                  (py g + debug_bisector_length * (bisector_unit k).2))
     else pass) ;;
    let '(start_angle, end_angle) := arc_angles (ax, ay) (bx, by_) (cx, cy) in
    vsk_line (px A) (py A) ax ay ;;
    vsk_arc cx cy (f2 * radius) ((- f2) * radius) start_angle end_angle ;;
    n ← len_points;
    (if decide (i = n - 3)%nat then vsk_line bx by_ (px B) (py B) else pass) ;;
    n ← len_points;
    if decide (1 < n)%nat then
      old ← get_point (i + 1);
      set_point (i + 1) (bx, by_, pr old)
    else pass
  end.

Definition draw : M unit :=
  dbg ← self_debug;
  (if dbg : bool then
     pts ← gets (fun w => points (self w));
     for_each pts (fun point =>
       let '(x, y, r) := point in
       _debug_draw 2 (vsk_circle x y f0_1))
   else pass) ;;
  n ← len_points;
  if decide (n < 3)%nat then pass else
  n ← len_points;
  for_each (seq 0 (n - 2)%nat) draw_window.

End Model.

Arguments point : clear implicits.
Arguments call : clear implicits.
Arguments Vsketch : clear implicits.
Arguments CornerRadiusLineSet : clear implicits.
Arguments world : clear implicits.
Arguments corner : clear implicits.
Arguments M : clear implicits.

(** ** Exact real arithmetic *)

(** [math.atan2(y, x)] on the reals: the angle of the point [(x, y)] in
    [(-PI, PI]], and [0] at the origin. *)
Definition atan2 (y x : R) : R :=
  if Rlt_dec 0 x then atan (y / x)
  else if Rlt_dec x 0 then
    if Rle_dec 0 y then atan (y / x) + PI else atan (y / x) - PI
  else if Rlt_dec 0 y then PI / 2
  else if Rlt_dec y 0 then - (PI / 2)
  else 0.

Definition Rltb (x y : R) : bool := if Rlt_dec x y then true else false.

(** Division raises on a zero divisor; the square root, the arc cosine and
    the tangent raise outside their domains.  Nothing overflows. *)
#[export] Instance R_float : PyFloat R := {|
  fadd := Rplus;
  fsub := Rminus;
  fmul := Rmult;
  fneg := Ropp;
  fabs := Rabs;
  fdiv := fun x y => if Req_dec_T y 0 then inl ZeroDivisionError else inr (x / y)%R;
  fsquare := fun x => inr (x * x)%R;
  math_sqrt := fun x => if Rlt_dec x 0 then inl ValueError else inr (sqrt x);
  math_acos := fun x =>
    if Rlt_dec x (-1) then inl ValueError
    else if Rlt_dec 1 x then inl ValueError
    else inr (acos x);
  math_tan := fun x => if Req_dec_T (cos x) 0 then inl ValueError else inr (tan x);
  math_sin := fun x => inr (sin x);
  math_atan2 := atan2;
  flt := Rltb;
  math_pi := PI;
  f0 := 0%R;
  f1 := 1%R;
  f2 := 2%R;
  f1em10 := 1e-10%R;
  f0_1 := 0.1%R;
  f0_05 := 0.05%R;
  f0_5 := 0.5%R;
|}.

(** ** IEEE binary64 arithmetic *)

(** The C library functions behind the [math] module. *)
Record libm : Type := mkLibm {
  c_acos : float -> float;
  c_tan : float -> float;
  c_sin : float -> float;
  c_atan2 : float -> float -> float;
}.

(** CPython's wrapper of a one-argument libm function ([math_1] with
    [can_overflow = 0]): a NaN from a number, or an infinity from a finite
    number, is a [ValueError]. *)
Definition math_1 (func : float -> float) (x : float) : E float :=
  let r := func x in
  if is_nan r && negb (is_nan x) then inl ValueError
  else if is_infinity r && is_finite x then inl ValueError
  else inr r.

(** [x / y] on floats ([float_div]). *)
Definition b64_div (x y : float) : E float :=
  if PrimFloat.eqb y 0%float then inl ZeroDivisionError else inr (x / y)%float.

(** [x ** 2] on floats ([float_pow] at the exponent 2): a NaN or an
    infinity passes through; a finite base whose square is infinite is an
    [OverflowError]. *)
Definition b64_square (x : float) : E float :=
  if is_nan x then inr x
  else if is_infinity x then inr (PrimFloat.abs x)
  else
    let r := (x * x)%float in
    if is_infinity r then inl OverflowError else inr r.

Definition b64_float (m : libm) : PyFloat float := {|
  fadd := PrimFloat.add;
  fsub := PrimFloat.sub;
  fmul := PrimFloat.mul;
  fneg := PrimFloat.opp;
  fabs := PrimFloat.abs;
  fdiv := b64_div;
  fsquare := b64_square;
  math_sqrt := math_1 PrimFloat.sqrt;
  math_acos := math_1 (c_acos m);
  math_tan := math_1 (c_tan m);
  math_sin := math_1 (c_sin m);
  math_atan2 := c_atan2 m;
  flt := PrimFloat.ltb;
  math_pi := 0x1.921fb54442d18p+1%float;
  f0 := 0%float;
  f1 := 1%float;
  f2 := 2%float;
  f1em10 := 0x1.b7cdfd9d7bdbbp-34%float;
  f0_1 := 0x1.999999999999ap-4%float;
  f0_05 := 0x1.999999999999ap-5%float;
  f0_5 := 0.5%float;
|}.

(** A binary64 number that is a NaN or has its sign bit clear. *)
Definition nan_or_unsigned (x : float) : Prop :=
  match Prim2SF x with
  | S754_nan | S754_zero false | S754_infinity false | S754_finite false _ _ => True
  | _ => False
  end.

(** What [draw] needs of the C library: the arc cosine of a number of
    [[-1, 1]] is finite, and the tangent and the sine of the half of a
    finite angle that passes the test of line 94 are finite and not [0]. *)
Definition libm_in_range (m : libm) : Prop :=
  (forall x : float,
     PrimFloat.leb (-1) x = true -> PrimFloat.leb x 1 = true ->
     is_finite (c_acos m x) = true) /\
  (forall a : float,
     is_finite a = true -> @angle_skipped float (b64_float m) a = false ->
     (is_finite (c_tan m (a / 2)) = true /\ PrimFloat.eqb (c_tan m (a / 2)) 0 = false) /\
     (is_finite (c_sin m (a / 2)) = true /\ PrimFloat.eqb (c_sin m (a / 2)) 0 = false)).

(** ** What one window does, as a list of calls *)

Section Windows.
Context {F : Type} {PF : PyFloat F}.
Local Open Scope pyfloat_scope.

(** Replaying a list of calls on a sketch. *)
Definition play1 (v : Vsketch F) (c : call F) : Vsketch F :=
  match c with
  | Stroke s => mkVsketch s (calls v ++ [c])
  | _ => emit c v
  end.
Definition play (cs : list (call F)) (v : Vsketch F) : Vsketch F :=
  fold_left play1 cs v.

(** The calls of [_debug_draw] around [body], when [debug] is set. *)
Definition debug_block (stroke_value : Z) (body : list (call F)) : list (call F) :=
  Stroke stroke_value :: body ++ [Stroke 1].

(** Lines 62-65. *)
Definition reference_calls (A g B : point F) : list (call F) :=
  debug_block 2 [Line (px A) (py A) (px g) (py g); Line (px g) (py g) (px B) (py B)].

(** Lines 131-145. *)
Definition construction_calls (g : point F) (k : corner F) : list (call F) :=
  debug_block 2 [Circle (center k).1 (center k).2 (pr g)] ++
  debug_block 3 [Circle (tangent_a k).1 (tangent_a k).2 f0_05;
                 Circle (tangent_b k).1 (tangent_b k).2 f0_05] ++
  debug_block 3 [Line (px g) (py g) (px g + f0_5 * (bisector_unit k).1)
                                    (py g + f0_5 * (bisector_unit k).2)].

(** Lines 171-176. *)
Definition path_of_corner (last : bool) (A g B : point F) (k : corner F)
  : list (call F) :=
  let '(start_angle, end_angle) := arc_angles (tangent_a k) (tangent_b k) (center k) in
  [Line (px A) (py A) (tangent_a k).1 (tangent_a k).2;
   Arc (center k).1 (center k).2 (f2 * pr g) ((- f2) * pr g) start_angle end_angle]
  ++ (if last then [Line (tangent_b k).1 (tangent_b k).2 (px B) (py B)] else []).

Definition window_calls (dbg last : bool) (A g B : point F) (r : E (option (corner F)))
  : list (call F) :=
  (if dbg then reference_calls A g B else []) ++
  match r with
  | inr (Some k) =>
      (if dbg then construction_calls g k else []) ++ path_of_corner last A g B k
  | _ => []
  end.

(** Line 181. *)
Definition window_points (i : nat) (g : point F) (r : E (option (corner F)))
    (pts : list (point F)) : list (point F) :=
  match r with
  | inr (Some k) => <[S i := ((tangent_b k).1, (tangent_b k).2, pr g)]> pts
  | _ => pts
  end.

Definition window_result (r : E (option (corner F))) : E unit :=
  match r with
  | inl e => inl e
  | inr _ => inr tt
  end.

(** The loop of line 55 as a function of the point list: the outcome,
    the final points and the calls made.  [n] is [len(self.points)]. *)
Fixpoint windows (n : nat) (dbg : bool) (idx : list nat) (pts : list (point F))
  : E unit * list (point F) * list (call F) :=
  match idx with
  | [] => (inr tt, pts, [])
  | i :: idx' =>
    match pts !! i, pts !! S i, pts !! S (S i) with
    | Some A, Some g, Some B =>
      let r := tangent_circle A g B in
      let cs := window_calls dbg (bool_decide (i = n - 3)%nat) A g B r in
      let pts' := window_points i g r pts in
      match r with
      | inl e => (inl e, pts', cs)
      | inr _ =>
        let '(res, pts'', cs') := windows n dbg idx' pts' in
        (res, pts'', cs ++ cs')
      end
    | _, _, _ => (inl IndexError, pts, [])
    end
  end.

(** Lines 44-48. *)
Definition marker_calls (pts : list (point F)) : list (call F) :=
  concat (map (fun p => debug_block 2 [Circle (px p) (py p) f0_1]) pts).

(** [draw] as a function of the flag and the point list. *)
Definition draw_trace (dbg : bool) (pts : list (point F))
  : E unit * list (point F) * list (call F) :=
  let markers := if dbg then marker_calls pts else [] in
  if decide (length pts < 3)%nat then (inr tt, pts, markers)
  else
    let '(res, pts', cs) := windows (length pts) dbg (seq 0 (length pts - 2)) pts in
    (res, pts', markers ++ cs).

(** The calls that are not debug-styled: those made while no debug
    stroke set in this list is in force.  [_debug_draw] sets the debug
    stroke and then the stroke [1]. *)
Fixpoint path_calls (styled : bool) (cs : list (call F)) : list (call F) :=
  match cs with
  | [] => []
  | Stroke c :: cs' => path_calls (negb (c =? 1)%Z) cs'
  | c :: cs' => if styled then path_calls styled cs' else c :: path_calls styled cs'
  end.

Fixpoint styled_after (styled : bool) (cs : list (call F)) : bool :=
  match cs with
  | [] => styled
  | Stroke c :: cs' => styled_after (negb (c =? 1)%Z) cs'
  | _ :: cs' => styled_after styled cs'
  end.

End Windows.

(** ** Plane geometry on the reals *)

Section Plane.
Local Open Scope R_scope.

Definition norm (v : R * R) : R := sqrt (v.1 * v.1 + v.2 * v.2).
Definition dist (p q : R * R) : R := norm (p.1 - q.1, p.2 - q.2).

(** [max(-1.0, min(1.0, x))] *)
Definition clamp (x : R) : R := py_max (Ropp 1) (py_min 1 x).

(** The position of a control point. *)
Definition pos (p : point R) : R * R := (px p, py p).

(** The length of the segment from [P] to [Q] and its unit vector. *)
Definition seg_length (P Q : point R) : R := norm (px Q - px P, py Q - py P).
Definition unit_dir (P Q : point R) : R * R :=
  ((px Q - px P) / seg_length P Q, (py Q - py P) / seg_length P Q).

(** The interior angle at [g]: between the direction from [A] to [g] and
    the reversed direction from [g] to [B]. *)
Definition angle_at (A g B : point R) : R :=
  let u := unit_dir A g in
  let v := unit_dir g B in
  acos (clamp (u.1 * - v.1 + u.2 * - v.2)).

(** [p] lies on the segment from [a] to [b]. *)
Definition on_segment (p a b : R * R) : Prop :=
  exists l, 0 <= l <= 1 /\ p = (a.1 + l * (b.1 - a.1), a.2 + l * (b.2 - a.2)).

End Plane.

(** ** The constructor, and the vocabulary of the further properties *)

Section Shapes.
Context {F : Type} {PF : PyFloat F}.

(** [__init__] (lines 11-20): the two attributes; [debug] defaults to
    [False]. *)
Definition __init__ (points : list (point F)) (debug : option bool)
  : CornerRadiusLineSet F :=
  mkSet points (default false debug).

(** A list of calls that is empty or ends with an arc. *)
Definition ends_with_arc (cs : list (call F)) : bool :=
  match last cs with
  | None | Some (Arc _ _ _ _ _ _) => true
  | _ => false
  end.

(** A call that is not a stroke on another layer than [1], [2] or [3]. *)
Definition layer_1_2_3 (c : call F) : Prop :=
  match c with
  | Stroke s => s = 1%Z \/ s = 2%Z \/ s = 3%Z
  | _ => True
  end.

(** Two point lists with the same positions, and the same radii but at
    the first and at the last index. *)
Definition same_but_end_radii (pts pts' : list (point F)) : Prop :=
  length pts' = length pts /\
  forall j p p',
    pts !! j = Some p -> pts' !! j = Some p' ->
    px p' = px p /\ py p' = py p /\
    ((0 < j < length pts - 1)%nat -> pr p' = pr p).

End Shapes.

Section Degenerate.
Context {F : Type} {PF : PyFloat F}.
Local Open Scope pyfloat_scope.

(** A window that the code finds degenerate: a computed length below
    [1e-10] (line 75), or a computed interior angle outside
    [[1e-10, pi - 1e-10]] (line 94). *)
Definition degenerate_window (A g B : point F) : Prop :=
  (exists LA LB : F,
     vec_length (px g - px A, py g - py A) = inr LA /\
     vec_length (px B - px g, py B - py g) = inr LB /\
     (LA <? f1em10) || (LB <? f1em10) = true) \/
  (exists (u v : F * F) (theta : F),
     unit_vectors A g B = inr (Some (u, v)) /\
     interior_angle_of u v = inr theta /\
     angle_skipped theta = true).

End Degenerate.

Section Moves.
Local Open Scope R_scope.

(** The polyline through the control points, with an arc of size [0] at
    every interior point. *)
Fixpoint sharp_path (pts : list (point R)) : list (call R) :=
  match pts with
  | [] => []
  | A :: tl =>
    match tl with
    | g :: B :: rest =>
        [Line (px A) (py A) (px g) (py g); Arc (px g) (py g) 0 0 0 0] ++
        (match rest with
         | [] => [Line (px g) (py g) (px B) (py B)]
         | _ :: _ => []
         end) ++
        sharp_path tl
    | _ => []
    end
  end.

(** The control point [p] moved by the vector [d]. *)
Definition shift (d : R * R) (p : point R) : point R :=
  (px p + d.1, py p + d.2, pr p).

(** The call [c] with its positions moved by the vector [d]. *)
Definition shift_call (d : R * R) (c : call R) : call R :=
  match c with
  | Stroke s => Stroke s
  | Circle x y radius => Circle (x + d.1) (y + d.2) radius
  | Line x1 y1 x2 y2 => Line (x1 + d.1) (y1 + d.2) (x2 + d.1) (y2 + d.2)
  | Arc x y w h start stop => Arc (x + d.1) (y + d.2) w h start stop
  end.

End Moves.

(** * Proofs *)

(** ** The code against its trace *)

Section Trace.
Context {F : Type} {PF : PyFloat F}.
Local Open Scope pyfloat_scope.

Lemma play_app (cs cs' : list (call F)) (v : Vsketch F) :
  play (cs ++ cs') v = play cs' (play cs v).
Proof. apply fold_left_app. Qed.

Lemma calls_play (cs : list (call F)) (v : Vsketch F) :
  calls (play cs v) = calls v ++ cs.
Proof.
  revert v; induction cs as [| c cs IH]; intros v; simpl.
  - now rewrite app_nil_r.
  - rewrite IH. destruct c; simpl; now rewrite <- app_assoc.
Qed.

Lemma draw_window_spec (i : nat) (w : world F) (A g B : point F) :
  points (self w) !! i = Some A ->
  points (self w) !! S i = Some g ->
  points (self w) !! S (S i) = Some B ->
  let r := tangent_circle A g B in
  let last := bool_decide (i = length (points (self w)) - 3)%nat in
  draw_window i w =
    (window_result r,
     mkWorld (mkSet (window_points i g r (points (self w))) (debug (self w)))
             (play (window_calls (debug (self w)) last A g B r) (vsk w))).
Proof.
  intros HA Hg HB r last. subst r last.
  assert (Hlen : (S (S i) < length (points (self w)))%nat)
    by (eapply lookup_lt_Some; eauto).
  destruct w as [[pts dbg] [st cs]]; simpl in *.
  unfold draw_window, get_point, mbind, M_bind; simpl.
  replace (i + 1)%nat with (S i) by lia.
  replace (i + 2)%nat with (S (S i)) by lia.
  rewrite HA; simpl; rewrite Hg; simpl; rewrite HB; simpl.
  unfold window_calls, window_points, window_result.
  destruct (tangent_circle A g B) as [e | [k |]] eqn:Hr;
    destruct dbg; simpl; try reflexivity.
  all: destruct k as [[ax ay] [bx by_] [cx cy] bu]; simpl;
    unfold path_of_corner; simpl;
    destruct (arc_angles (ax, ay) (bx, by_) (cx, cy)) as [sa ea]; simpl;
    unfold len_points, gets; simpl;
    case_bool_decide; destruct (decide _); try contradiction; simpl;
    destruct (decide (1 < length pts)%nat); try lia; simpl;
    unfold get_point, set_point; simpl;
    rewrite ?length_app; simpl.
  all: rewrite Hg; simpl; destruct (decide _); [reflexivity | lia].
Qed.


Lemma draw_window_IndexError (i : nat) (w : world F) :
  points (self w) !! i = None \/ points (self w) !! S i = None \/
  points (self w) !! S (S i) = None ->
  draw_window i w = (inl IndexError, w).
Proof.
  destruct w as [[pts dbg] [st cs]]; simpl.
  unfold draw_window, get_point, mbind, M_bind; simpl.
  replace (i + 1)%nat with (S i) by lia.
  replace (i + 2)%nat with (S (S i)) by lia.
  intros H.
  destruct (pts !! i); simpl; [| reflexivity].
  destruct (pts !! S i); simpl; [| reflexivity].
  destruct (pts !! S (S i)); simpl; [| reflexivity].
  destruct H as [H | [H | H]]; discriminate.
Qed.

Lemma for_each_windows (idx : list nat) (w : world F) :
  for_each idx draw_window w =
    let '(res, pts', cs) :=
      windows (length (points (self w))) (debug (self w)) idx (points (self w)) in
    (res, mkWorld (mkSet pts' (debug (self w))) (play cs (vsk w))).
Proof.
  revert w; induction idx as [| i idx IH]; intros w.
  - destruct w as [[pts dbg] v]; reflexivity.
  - cbn [for_each windows].
    destruct (points (self w) !! i) as [A |] eqn:HA;
      [destruct (points (self w) !! S i) as [g |] eqn:Hg;
       [destruct (points (self w) !! S (S i)) as [B |] eqn:HB |] |].
    + unfold mbind, M_bind. rewrite (draw_window_spec i w A g B HA Hg HB).
      cbv zeta.
      destruct (tangent_circle A g B) as [e | r] eqn:Hr; simpl window_result.
      * reflexivity.
      * rewrite IH; cbn [self points debug vsk].
        assert (Hl : length (window_points i g (inr r) (points (self w)))
                     = length (points (self w))).
        { destruct r; simpl; [apply length_insert | reflexivity]. }
        rewrite Hl.
        destruct (windows _ _ idx _) as [[res pts''] cs'].
        now rewrite play_app.
    + unfold mbind, M_bind. rewrite draw_window_IndexError by auto.
      destruct w as [[pts dbg] [st cs]]; reflexivity.
    + unfold mbind, M_bind. rewrite draw_window_IndexError by auto.
      destruct w as [[pts dbg] [st cs]]; reflexivity.
    + unfold mbind, M_bind. rewrite draw_window_IndexError by auto.
      destruct w as [[pts dbg] [st cs]]; reflexivity.
Qed.

Lemma markers_spec (pts : list (point F)) (w : world F) :
  debug (self w) = true ->
  for_each pts (fun point => let '(x, y, r) := point in
                             _debug_draw 2 (vsk_circle x y f0_1)) w =
    (inr tt, mkWorld (self w) (play (marker_calls pts) (vsk w))).
Proof.
  revert w; induction pts as [| [[x y] r] pts IH]; intros w Hd.
  - destruct w as [s v]; reflexivity.
  - cbn [for_each]. unfold mbind at 1, M_bind at 1.
    destruct w as [[ps dbg] [st cs]]; simpl in Hd; subst dbg.
    unfold _debug_draw, gets, mbind, M_bind; simpl.
    rewrite IH by reflexivity. unfold marker_calls; simpl.
    reflexivity.
Qed.

(** [draw] runs to the outcome, the points and the calls of [draw_trace]. *)
Lemma draw_spec (w : world F) :
  draw w =
    let '(res, pts', cs) := draw_trace (debug (self w)) (points (self w)) in
    (res, mkWorld (mkSet pts' (debug (self w))) (play cs (vsk w))).
Proof.
  unfold draw, draw_trace, self_debug, len_points, gets, mbind, M_bind.
  destruct (debug (self w)) eqn:Hd.
  - unfold gets; cbv beta. rewrite (markers_spec _ w Hd). cbn [self points].
    destruct (decide _) as [Hlt | Hge].
    + simpl. destruct w as [[pts dbg] v]; simpl in *; now subst dbg.
    + rewrite for_each_windows. cbn [self points debug vsk].
      rewrite Hd.
      destruct (windows _ _ _ _) as [[res pts'] cs].
      now rewrite play_app.
  - cbv beta iota. unfold pass at 1, mret, M_ret.
    destruct (decide _) as [Hlt | Hge].
    + destruct w as [[pts dbg] [st cs]]; simpl in *; subst dbg.
      unfold pass, mret, M_ret, play; simpl. reflexivity.
    + rewrite for_each_windows. rewrite Hd.
      destruct (windows _ _ _ _) as [[res pts'] cs]. reflexivity.
Qed.

(** *** The point list along the loop *)

Lemma window_points_length (i : nat) (g : point F) r (pts : list (point F)) :
  length (window_points i g r pts) = length pts.
Proof. destruct r as [e | [k |]]; simpl; auto using length_insert. Qed.

Lemma window_points_radii (i : nat) (g : point F) r (pts : list (point F)) :
  pts !! S i = Some g ->
  pr <$> window_points i g r pts = pr <$> pts.
Proof.
  intros Hg. destruct r as [e | [k |]]; simpl; try reflexivity.
  rewrite list_fmap_insert. apply list_insert_id.
  rewrite list_lookup_fmap, Hg. reflexivity.
Qed.

Lemma window_points_lookup (i j : nat) (g : point F) r (pts : list (point F)) :
  j <> S i -> window_points i g r pts !! j = pts !! j.
Proof.
  intros Hj. destruct r as [e | [k |]]; simpl; try reflexivity.
  apply list_lookup_insert_ne. lia.
Qed.

Lemma windows_frame (n : nat) (dbg : bool) (k : nat) :
  forall (a : nat) (pts : list (point F)),
    let pts' := (windows n dbg (seq a k) pts).1.2 in
    length pts' = length pts /\
    pr <$> pts' = pr <$> pts /\
    forall j, (j <= a \/ a + k < j)%nat -> pts' !! j = pts !! j.
Proof.
  induction k as [| k IH]; intros a pts; cbn [seq windows].
  - simpl; auto.
  - destruct (pts !! a) as [A |] eqn:HA; [| simpl; auto].
    destruct (pts !! S a) as [g |] eqn:Hg; [| simpl; auto].
    destruct (pts !! S (S a)) as [B |] eqn:HB; [| simpl; auto].
    cbv zeta.
    pose proof (window_points_length a g (tangent_circle A g B) pts) as Hl.
    pose proof (window_points_radii a g (tangent_circle A g B) pts Hg) as Hr.
    pose proof (fun j => window_points_lookup a j g (tangent_circle A g B) pts) as Hk.
    destruct (tangent_circle A g B) as [e | r] eqn:Ht.
    + simpl. repeat split; auto.
    + specialize (IH (S a) (window_points a g (inr r) pts)).
      destruct (windows n dbg (seq (S a) k) _) as [[res pts''] cs'].
      simpl in *. destruct IH as (IH1 & IH2 & IH3).
      repeat split; try congruence.
      intros j Hj. rewrite IH3 by lia. apply Hk. lia.
Qed.

(** *** The outcome *)

Lemma windows_ok (n : nat) (dbg : bool) (k : nat) :
  (forall A g B : point F, exists r, tangent_circle A g B = inr r) ->
  forall (a : nat) (pts : list (point F)),
    (a + k + 2 <= length pts)%nat ->
    (windows n dbg (seq a k) pts).1.1 = inr tt.
Proof.
  intros Htot. induction k as [| k IH]; intros a pts Hlen; cbn [seq windows].
  - reflexivity.
  - destruct (lookup_lt_is_Some_2 pts a ltac:(lia)) as [A HA].
    destruct (lookup_lt_is_Some_2 pts (S a) ltac:(lia)) as [g Hg].
    destruct (lookup_lt_is_Some_2 pts (S (S a)) ltac:(lia)) as [B HB].
    rewrite HA, Hg, HB. cbv zeta.
    destruct (Htot A g B) as [r Hr]. rewrite Hr.
    specialize (IH (S a) (window_points a g (inr r) pts)).
    rewrite window_points_length in IH.
    destruct (windows n dbg (seq (S a) k) _) as [[res pts''] cs'].
    simpl in *. apply IH. lia.
Qed.

(** *** The debug flag *)

Lemma path_calls_app (s : bool) (cs cs' : list (call F)) :
  path_calls s (cs ++ cs') = path_calls s cs ++ path_calls (styled_after s cs) cs'.
Proof.
  revert s; induction cs as [| c cs IH]; intros s; simpl; [reflexivity |].
  destruct c; simpl; rewrite ?IH; try reflexivity; destruct s; reflexivity.
Qed.

Lemma styled_after_app (s : bool) (cs cs' : list (call F)) :
  styled_after s (cs ++ cs') = styled_after (styled_after s cs) cs'.
Proof.
  revert s; induction cs as [| c cs IH]; intros s; simpl; [reflexivity |].
  destruct c; simpl; rewrite ?IH; reflexivity.
Qed.

Lemma window_calls_path (last : bool) (A g B : point F) r :
  path_calls false (window_calls true last A g B r) = window_calls false last A g B r /\
  styled_after false (window_calls true last A g B r) = false /\
  styled_after false (window_calls false last A g B r) = false.
Proof.
  unfold window_calls.
  destruct r as [e | [k |]]; simpl; auto.
  unfold path_of_corner.
  destruct (arc_angles _ _ _) as [sa ea]. destruct last; simpl; auto.
Qed.

Lemma windows_debug (n : nat) (idx : list nat) :
  forall pts : list (point F),
    let '(res_t, pts_t, cs_t) := windows n true idx pts in
    let '(res_f, pts_f, cs_f) := windows n false idx pts in
    res_t = res_f /\ pts_t = pts_f /\
    path_calls false cs_t = cs_f /\ styled_after false cs_t = false.
Proof.
  induction idx as [| i idx IH]; intros pts; cbn [windows].
  - simpl; auto.
  - destruct (pts !! i) as [A |]; [| simpl; auto].
    destruct (pts !! S i) as [g |]; [| simpl; auto].
    destruct (pts !! S (S i)) as [B |]; [| simpl; auto].
    cbv zeta.
    destruct (window_calls_path (bool_decide (i = n - 3)%nat) A g B (tangent_circle A g B))
      as (Hp & Hs & _).
    destruct (tangent_circle A g B) as [e | r] eqn:Ht.
    + auto.
    + specialize (IH (window_points i g (inr r) pts)).
      destruct (windows n true idx _) as [[res_t pts_t] cs_t].
      destruct (windows n false idx _) as [[res_f pts_f] cs_f].
      destruct IH as (-> & -> & <- & IH4).
      rewrite path_calls_app, styled_after_app, Hs, Hp. auto.
Qed.

Lemma marker_calls_path (pts : list (point F)) :
  path_calls false (marker_calls pts) = [] /\
  styled_after false (marker_calls pts) = false.
Proof.
  induction pts as [| p pts [IH1 IH2]]; simpl; auto.
Qed.

Lemma windows_no_stroke (n : nat) (idx : list nat) :
  forall pts : list (point F),
    Forall (fun c => forall s, c <> Stroke s) (windows n false idx pts).2.
Proof.
  induction idx as [| i idx IH]; intros pts; cbn [windows].
  - constructor.
  - destruct (pts !! i) as [A |]; [| constructor].
    destruct (pts !! S i) as [g |]; [| constructor].
    destruct (pts !! S (S i)) as [B |]; [| constructor].
    cbv zeta.
    assert (Hw : forall last r,
      Forall (fun c : call F => forall s, c <> Stroke s) (window_calls false last A g B r)).
    { intros last r. unfold window_calls. destruct r as [e | [k |]]; simpl;
        try constructor.
      unfold path_of_corner. destruct (arc_angles _ _ _) as [sa ea].
      destruct last; repeat constructor; discriminate. }
    destruct (tangent_circle A g B) as [e | r] eqn:Ht.
    + apply Hw.
    + specialize (IH (window_points i g (inr r) pts)).
      destruct (windows n false idx _) as [[res_f pts_f] cs_f].
      simpl in *. apply Forall_app; split; [apply Hw | exact IH].
Qed.

Lemma windows_cons (n : nat) (dbg : bool) (i : nat) (idx : list nat)
    (pts : list (point F)) (A g B : point F) (k : corner F) :
  pts !! i = Some A -> pts !! S i = Some g -> pts !! S (S i) = Some B ->
  tangent_circle A g B = inr (Some k) ->
  windows n dbg (i :: idx) pts =
    let cs := window_calls dbg (bool_decide (i = n - 3)%nat) A g B (inr (Some k)) in
    let pts' := <[S i := ((tangent_b k).1, (tangent_b k).2, pr g)]> pts in
    let '(res, pts'', cs') := windows n dbg idx pts' in
    (res, pts'', cs ++ cs').
Proof.
  intros HA Hg HB Hk. cbn [windows]. rewrite HA, Hg, HB. cbv zeta.
  rewrite Hk. reflexivity.
Qed.

(** [draw] on three points whose corner is rounded, [debug] unset: the
    incoming line, the arc, the outgoing line, and the corner moved to the
    outgoing tangent point. *)
Lemma draw_single_corner (A g B : point F) (k : corner F) (v : Vsketch F) :
  tangent_circle A g B = inr (Some k) ->
  draw (mkWorld (mkSet [A; g; B] false) v) =
    (inr tt,
     mkWorld (mkSet [A; ((tangent_b k).1, (tangent_b k).2, pr g); B] false)
             (play (path_of_corner true A g B k) v)).
Proof.
  intros Hk. rewrite draw_spec. cbn [self points debug vsk]. unfold draw_trace.
  cbn [length]. destruct (decide (3 < 3)%nat) as [Hlt | _]; [lia |].
  change (seq 0 (3 - 2)) with [0%nat].
  rewrite (windows_cons 3 false 0 [] [A; g; B] A g B k eq_refl eq_refl eq_refl Hk).
  cbv zeta. cbn [windows]. unfold window_calls.
  rewrite bool_decide_eq_true_2 by reflexivity.
  cbn [app]. rewrite app_nil_r. reflexivity.
Qed.

(** *** Claims on the structure of [draw] *)

(** C9. For every input, [draw] keeps the length of the point list, every
    stored radius, the first and the last control point, and the debug
    flag: only positions at the interior indices [1 .. n-2] can change. *)
Theorem draw_frame (w : world F) :
  let w' := (draw w).2 in
  let n := length (points (self w)) in
  length (points (self w')) = n /\
  pr <$> points (self w') = pr <$> points (self w) /\
  (forall j, (j = 0 \/ n - 1 <= j)%nat ->
             points (self w') !! j = points (self w) !! j) /\
  debug (self w') = debug (self w).
Proof.
  cbv zeta. rewrite draw_spec. unfold draw_trace.
  destruct (decide _) as [Hlt | Hge]; [simpl; auto |].
  pose proof (windows_frame (length (points (self w))) (debug (self w))
                (length (points (self w)) - 2) 0 (points (self w))) as Hf.
  destruct (windows _ _ _ _) as [[res pts'] cs]. simpl in *.
  destruct Hf as (H1 & H2 & H3). repeat split; auto.
  intros j Hj. apply H3. lia.
Qed.

(** C10. The debug flag changes neither the outcome nor the final point
    list, and the calls of the debug run that are not debug-styled are,
    in order, the calls of the plain run, which sets no stroke. *)
Theorem draw_debug_independent (pts : list (point F)) (v : Vsketch F) :
  let run_t := draw (mkWorld (mkSet pts true) v) in
  let run_f := draw (mkWorld (mkSet pts false) v) in
  run_t.1 = run_f.1 /\
  points (self run_t.2) = points (self run_f.2) /\
  exists cs_t cs_f,
    calls (vsk run_t.2) = calls v ++ cs_t /\
    calls (vsk run_f.2) = calls v ++ cs_f /\
    path_calls false cs_t = cs_f /\
    Forall (fun c => forall s, c <> Stroke s) cs_f.
Proof.
  cbv zeta. rewrite !draw_spec. cbn [self points debug vsk]. unfold draw_trace.
  destruct (decide _) as [Hlt | Hge].
  - cbn [fst snd self points vsk]. repeat split.
    exists (marker_calls pts), []. rewrite !calls_play.
    repeat split; auto. apply marker_calls_path.
  - pose proof (windows_debug (length pts) (seq 0 (length pts - 2)) pts) as Hd.
    pose proof (windows_no_stroke (length pts) (seq 0 (length pts - 2)) pts) as Hn.
    destruct (windows _ true _ _) as [[res_t pts_t] cs_t].
    destruct (windows _ false _ _) as [[res_f pts_f] cs_f].
    destruct Hd as (-> & -> & Hp & Hs).
    cbn [fst snd self points vsk] in *. repeat split.
    exists (marker_calls pts ++ cs_t), cs_f. rewrite !calls_play.
    repeat split; auto.
    rewrite path_calls_app.
    destruct (marker_calls_path pts) as [-> ->]. exact Hp.
Qed.

(** An exception raised by the enclosed drawing leaves [_debug_draw] at
    once: no stroke call follows. *)
Lemma debug_draw_raise (stroke_value : Z) (body : M F unit) (w : world F)
    (e : exn) (w2 : world F) :
  debug (self w) = true ->
  body (vsk_stroke stroke_value w).2 = (inl e, w2) ->
  _debug_draw stroke_value body w = (inl e, w2).
Proof.
  intros Hd Hb. unfold _debug_draw, gets, mbind, M_bind. rewrite Hd.
  unfold vsk_stroke in *; simpl in *. now rewrite Hb.
Qed.

(** C7 (amended). With [debug] set, a debug draw whose enclosed drawing
    completes sets the stroke to [stroke_value] before it and to the
    layer [1] after it, whatever stroke was in force before; with [debug]
    unset it is the enclosed drawing alone. *)
Theorem debug_draw_stroke (stroke_value : Z) (body : M F unit) (w w2 : world F) :
  body (if debug (self w) then (vsk_stroke stroke_value w).2 else w) = (inr tt, w2) ->
  if debug (self w) then
    exists w3,
      _debug_draw stroke_value body w = (inr tt, w3) /\
      cur_stroke (vsk w3) = 1%Z /\
      calls (vsk w3) = calls (vsk w2) ++ [Stroke 1] /\
      self w3 = self w2
  else _debug_draw stroke_value body w = (inr tt, w2).
Proof.
  intros Hb. unfold _debug_draw, gets, mbind, M_bind.
  destruct (debug (self w)).
  - unfold vsk_stroke in *; simpl in *. rewrite Hb.
    eexists; repeat split.
  - exact Hb.
Qed.

(** C4. A window [i] that is not skipped ends without exception, and
    overwrites [points[i+1]] with the outgoing tangent point [b], keeping
    its radius; the next window, when it is rounded too, draws its
    incoming segment from [b]. *)
Theorem window_chaining (i : nat) (w : world F) (A g B : point F) (k : corner F) :
  points (self w) !! i = Some A ->
  points (self w) !! S i = Some g ->
  points (self w) !! S (S i) = Some B ->
  tangent_circle A g B = inr (Some k) ->
  let w' := (draw_window i w).2 in
  let b := ((tangent_b k).1, (tangent_b k).2, pr g) in
  (draw_window i w).1 = inr tt /\
  points (self w') = <[S i := b]> (points (self w)) /\
  points (self w') !! S i = Some b /\
  forall (C : point F) (k' : corner F),
    points (self w) !! S (S (S i)) = Some C ->
    tangent_circle b B C = inr (Some k') ->
    exists cs rest,
      calls (vsk (draw_window (S i) w').2) = calls (vsk w') ++ cs /\
      path_calls false cs =
        Line (tangent_b k).1 (tangent_b k).2 (tangent_a k').1 (tangent_a k').2 :: rest.
Proof.
  intros HA Hg HB Hk. cbv zeta.
  rewrite (draw_window_spec i w A g B HA Hg HB). cbv zeta. rewrite Hk.
  cbn [fst snd self points window_result window_points].
  assert (Hlt : (S i < length (points (self w)))%nat)
    by (eapply lookup_lt_Some; eauto).
  assert (Hb : <[S i := ((tangent_b k).1, (tangent_b k).2, pr g)]> (points (self w)) !! S i
               = Some ((tangent_b k).1, (tangent_b k).2, pr g))
    by (apply list_lookup_insert_eq; exact Hlt).
  repeat split; auto.
  intros C k' HC Hk'.
  erewrite (draw_window_spec (S i) _ _ B C); cbn [self points debug vsk]; eauto.
  2: { rewrite list_lookup_insert_ne by lia. exact HB. }
  2: { rewrite list_lookup_insert_ne by lia. exact HC. }
  cbv zeta. rewrite Hk'. cbn [snd vsk].
  rewrite calls_play.
  match goal with
  | |- context [window_calls ?d ?l ?a1 B C ?r] =>
      exists (window_calls d l a1 B C r),
             (tl (path_calls false (window_calls d l a1 B C r)))
  end.
  split; [reflexivity |].
  unfold window_calls, path_of_corner.
  destruct (arc_angles _ _ _) as [sa ea].
  destruct (debug (self w)); cbn; reflexivity.
Qed.

End Trace.

(** ** Exact arithmetic: the stages of lines 67-128 *)

Ltac rsimpl :=
  cbn [fadd fsub fmul fneg fabs fdiv fsquare math_sqrt math_acos math_tan
       math_sin math_atan2 flt fgt math_pi f0 f1 f2 f1em10 f0_1 f0_05 f0_5
       R_float fst snd mbind mret E_bind E_ret] in *.

Section RealStages.
Local Open Scope R_scope.

Lemma Rltb_true (x y : R) : Rltb x y = true <-> x < y.
Proof. unfold Rltb; destruct (Rlt_dec x y); split; intros; try easy. Qed.

Lemma Rltb_false (x y : R) : Rltb x y = false <-> y <= x.
Proof.
  unfold Rltb; destruct (Rlt_dec x y); split; intros; try easy; lra.
Qed.

Lemma div_lt_1 (a b : R) : 0 < b -> a < b -> a / b < 1.
Proof.
  intros Hb Hab. apply Rmult_lt_reg_r with b; [exact Hb |].
  unfold Rdiv. rewrite Rmult_assoc, Rinv_l by lra. lra.
Qed.

Lemma norm_nonneg (v : R * R) : 0 <= norm v.
Proof. apply sqrt_pos. Qed.

Lemma norm_sq (v : R * R) : norm v * norm v = v.1 * v.1 + v.2 * v.2.
Proof. unfold norm. apply sqrt_sqrt. nra. Qed.

Lemma norm_eq (v : R * R) (x : R) :
  0 <= x -> v.1 * v.1 + v.2 * v.2 = x * x -> norm v = x.
Proof. intros Hx H. unfold norm. rewrite H. now apply sqrt_square. Qed.

Lemma norm_scale (k : R) (u : R * R) :
  u.1 * u.1 + u.2 * u.2 = 1 -> 0 <= k -> norm (k * u.1, k * u.2) = k.
Proof.
  intros Hu Hk. apply norm_eq; [exact Hk |]. cbn [fst snd]. nra.
Qed.

Lemma unit_dir_unit (P Q : point R) :
  0 < seg_length P Q ->
  (unit_dir P Q).1 * (unit_dir P Q).1 + (unit_dir P Q).2 * (unit_dir P Q).2 = 1.
Proof.
  intros H. unfold unit_dir; cbn [fst snd].
  pose proof (norm_sq (px Q - px P, py Q - py P)) as Hn; cbn [fst snd] in Hn.
  fold (seg_length P Q) in Hn.
  field_simplify_eq; [| lra]. nra.
Qed.

Lemma vec_length_R (v : R * R) : vec_length v = inr (norm v).
Proof.
  unfold vec_length, norm; rsimpl.
  destruct (Rlt_dec _ 0) as [Hneg | _]; [| reflexivity].
  nra.
Qed.

Lemma clamp_range (x : R) : -1 <= clamp x <= 1.
Proof.
  unfold clamp, py_max, py_min, fgt; rsimpl.
  unfold Rltb; repeat destruct (Rlt_dec _ _); lra.
Qed.

Lemma clamp_id (x : R) : -1 <= x <= 1 -> clamp x = x.
Proof.
  unfold clamp, py_max, py_min, fgt; rsimpl.
  unfold Rltb; repeat destruct (Rlt_dec _ _); lra.
Qed.

Lemma unit_vectors_R (A g B : point R) :
  unit_vectors A g B =
    inr (if Rltb (seg_length A g) 1e-10 || Rltb (seg_length g B) 1e-10 then None
         else Some (unit_dir A g, unit_dir g B)).
Proof.
  destruct A as [[Ax Ay] rA], g as [[gx gy] rg], B as [[Bx By] rB].
  unfold unit_vectors, unit_dir, seg_length, px, py; rsimpl.
  rewrite !vec_length_R; rsimpl.
  destruct (Rltb (norm (gx - Ax, gy - Ay)) 1e-10) eqn:H1; [reflexivity |].
  destruct (Rltb (norm (Bx - gx, By - gy)) 1e-10) eqn:H2; [reflexivity |].
  apply Rltb_false in H1, H2. cbn [orb].
  repeat (destruct (Req_dec_T _ 0); [lra |]; rsimpl).
  reflexivity.
Qed.

Lemma unit_vectors_long (A g B : point R) :
  1e-10 <= seg_length A g -> 1e-10 <= seg_length g B ->
  unit_vectors A g B = inr (Some (unit_dir A g, unit_dir g B)).
Proof.
  intros H1 H2. rewrite unit_vectors_R.
  apply Rltb_false in H1, H2. now rewrite H1, H2.
Qed.

Lemma unit_vectors_short (A g B : point R) :
  seg_length A g < 1e-10 \/ seg_length g B < 1e-10 ->
  unit_vectors A g B = inr None.
Proof.
  intros H. rewrite unit_vectors_R.
  destruct H as [H | H]; apply Rltb_true in H; rewrite H;
    [| rewrite orb_true_r]; reflexivity.
Qed.

Lemma interior_angle_R (u v : R * R) :
  interior_angle_of u v = inr (acos (clamp (u.1 * - v.1 + u.2 * - v.2))).
Proof.
  unfold interior_angle_of; rsimpl.
  fold (clamp (u.1 * - v.1 + u.2 * - v.2)).
  pose proof (clamp_range (u.1 * - v.1 + u.2 * - v.2)).
  repeat (destruct (Rlt_dec _ _); [lra |]). reflexivity.
Qed.

Lemma interior_angle_dirs (A g B : point R) :
  interior_angle_of (unit_dir A g) (unit_dir g B) = inr (angle_at A g B).
Proof. rewrite interior_angle_R. reflexivity. Qed.

Lemma bisector_sum_R (u v : R * R) :
  bisector_sum u v = (- u.1 + v.1, - u.2 + v.2).
Proof. reflexivity. Qed.

Lemma bisector_R (u v : R * R) :
  let s := bisector_sum u v in
  bisector u v =
    inr (if Rltb (norm s) 1e-10 then (u.2 / 1, - u.1 / 1)
         else (s.1 / norm s, s.2 / norm s)).
Proof.
  unfold bisector, bisector_sum; rsimpl.
  rewrite vec_length_R; rsimpl.
  destruct (Rltb _ 1e-10) eqn:H1; rsimpl.
  - repeat (destruct (Req_dec_T _ 0); [lra |]; rsimpl). reflexivity.
  - apply Rltb_false in H1.
    repeat (destruct (Req_dec_T _ 0); [lra |]; rsimpl). reflexivity.
Qed.

Lemma angle_skipped_R (theta : R) :
  angle_skipped theta = false <-> 1e-10 <= theta <= PI - 1e-10.
Proof.
  unfold angle_skipped; rsimpl. rewrite orb_false_iff, !Rltb_false. tauto.
Qed.

Lemma angle_skipped_R_true (theta : R) :
  angle_skipped theta = true <-> theta < 1e-10 \/ PI - 1e-10 < theta.
Proof.
  unfold angle_skipped; rsimpl. rewrite orb_true_iff, !Rltb_true. tauto.
Qed.

Lemma half_angle_pos (theta : R) :
  1e-10 <= theta <= PI - 1e-10 ->
  0 < sin (theta / 2) /\ 0 < cos (theta / 2) /\ 0 < tan (theta / 2).
Proof.
  intros H. pose proof PI_RGT_0.
  assert (0 < theta / 2 < PI / 2) by lra.
  repeat split.
  - apply sin_gt_0; lra.
  - apply cos_gt_0; lra.
  - apply tan_gt_0; lra.
Qed.

(** Lines 67-128 on a corner that passes both tests. *)
Lemma tangent_circle_R (A g B : point R) (u v w : R * R) (theta : R) :
  unit_vectors A g B = inr (Some (u, v)) ->
  interior_angle_of u v = inr theta ->
  angle_skipped theta = false ->
  bisector u v = inr w ->
  let t := pr g / tan (theta / 2) in
  let d := pr g / sin (theta / 2) in
  tangent_circle A g B =
    inr (Some (mkCorner (px g - t * u.1, py g - t * u.2)
                        (px g + t * v.1, py g + t * v.2)
                        (px g + d * w.1, py g + d * w.2) w)).
Proof.
  intros Huv Hth Hskip Hw t d. subst t d.
  unfold tangent_circle. rewrite Huv; rsimpl.
  destruct g as [[gx gy] radius]; unfold px, py, pr; rsimpl.
  rewrite Hth; rsimpl. rewrite Hskip.
  apply angle_skipped_R in Hskip.
  destruct (half_angle_pos theta Hskip) as (Hs & Hc & Ht).
  destruct (Req_dec_T 2 0); [lra |]; rsimpl.
  destruct (Req_dec_T (cos (theta / 2)) 0); [lra |]; rsimpl.
  destruct (Req_dec_T (tan (theta / 2)) 0); [lra |]; rsimpl.
  rewrite Hw; rsimpl.
  destruct (Req_dec_T (sin (theta / 2)) 0); [lra |]; rsimpl.
  reflexivity.
Qed.

(** Lines 67-95 on a corner that fails a test. *)
Lemma tangent_circle_skip (A g B : point R) :
  seg_length A g < 1e-10 \/ seg_length g B < 1e-10 \/
  angle_at A g B < 1e-10 \/ PI - 1e-10 < angle_at A g B ->
  tangent_circle A g B = inr None.
Proof.
  intros H. unfold tangent_circle.
  destruct (Rlt_dec (seg_length A g) 1e-10) as [H1 | H1];
    [rewrite unit_vectors_short by auto; reflexivity |].
  destruct (Rlt_dec (seg_length g B) 1e-10) as [H2 | H2];
    [rewrite unit_vectors_short by auto; reflexivity |].
  rewrite unit_vectors_long by lra; rsimpl.
  destruct g as [[gx gy] radius].
  rewrite interior_angle_dirs; rsimpl.
  assert (Hs : angle_skipped (angle_at A (gx, gy, radius) B) = true)
    by (apply angle_skipped_R_true; tauto).
  now rewrite Hs.
Qed.

(** In exact arithmetic no step of lines 67-128 raises. *)
Lemma tangent_circle_total (A g B : point R) :
  exists r, tangent_circle A g B = inr r.
Proof.
  destruct (Rlt_dec (seg_length A g) 1e-10) as [H1 | H1];
    [exists None; apply tangent_circle_skip; auto |].
  destruct (Rlt_dec (seg_length g B) 1e-10) as [H2 | H2];
    [exists None; apply tangent_circle_skip; auto |].
  destruct (angle_skipped (angle_at A g B)) eqn:Hs.
  - exists None. apply tangent_circle_skip.
    apply angle_skipped_R_true in Hs. tauto.
  - eexists. eapply tangent_circle_R; eauto.
    + apply unit_vectors_long; lra.
    + apply interior_angle_dirs.
    + apply bisector_R.
Qed.

End RealStages.

(** ** Exact arithmetic: the tangent circle of two unit directions *)

Section Units.
Local Open Scope R_scope.

(** [u] is [Ag_unit], [v] is [gB_unit]. *)
Variables u v : R * R.
Hypothesis Hu : u.1 * u.1 + u.2 * u.2 = 1.
Hypothesis Hv : v.1 * v.1 + v.2 * v.2 = 1.

Let d := u.1 * - v.1 + u.2 * - v.2.
Let theta := acos (clamp d).

Lemma unit_dot_range : -1 <= d <= 1.
Proof.
  unfold d.
  pose proof (Rle_0_sqr (u.1 - v.1)). pose proof (Rle_0_sqr (u.2 - v.2)).
  pose proof (Rle_0_sqr (u.1 + v.1)). pose proof (Rle_0_sqr (u.2 + v.2)).
  unfold Rsqr in *. lra.
Qed.

Lemma cos_theta : cos theta = d.
Proof.
  unfold theta. rewrite clamp_id by apply unit_dot_range.
  apply cos_acos, unit_dot_range.
Qed.

Lemma dot_half_angle : d = 2 * cos (theta / 2) * cos (theta / 2) - 1.
Proof.
  rewrite <- cos_theta. rewrite <- cos_2a_cos. f_equal. lra.
Qed.

Lemma theta_range : 0 <= theta <= PI.
Proof. apply acos_bound. Qed.

Lemma half_cos_nonneg : 0 <= cos (theta / 2).
Proof.
  pose proof theta_range. pose proof PI_RGT_0.
  apply cos_ge_0; lra.
Qed.

(** Line 112: the bisector sum has length [2 cos (theta / 2)]. *)
Lemma bisector_sum_norm : norm (bisector_sum u v) = 2 * cos (theta / 2).
Proof.
  pose proof half_cos_nonneg. pose proof dot_half_angle as Hd. unfold d in Hd.
  apply norm_eq; [lra |].
  rewrite bisector_sum_R; cbn [fst snd]. nra.
Qed.

Lemma lagrange_uv :
  (u.1 * v.2 - u.2 * v.1) * (u.1 * v.2 - u.2 * v.1) + d * d = 1.
Proof.
  unfold d.
  transitivity ((u.1 * u.1 + u.2 * u.2) * (v.1 * v.1 + v.2 * v.2)); [ring |].
  rewrite Hu, Hv. ring.
Qed.

Hypothesis Hth : 1e-10 <= theta <= PI - 1e-10.

Let c := cos (theta / 2).
Let s := sin (theta / 2).

(** The radius, the tangent distance, the center distance and the unit
    bisector of lines 98-123. *)
Variable r : R.
Let t := r / tan (theta / 2).
Let dd := r / s.
Let w := ((bisector_sum u v).1 / (2 * c), (bisector_sum u v).2 / (2 * c)).

Lemma cs_pos : 0 < s /\ 0 < c /\ c * c + s * s = 1.
Proof.
  destruct (half_angle_pos theta Hth) as (H1 & H2 & _).
  unfold c, s. repeat split; auto.
  pose proof (sin2_cos2 (theta / 2)) as H. unfold Rsqr in H. lra.
Qed.

Lemma t_eq : t = r * c / s.
Proof.
  destruct cs_pos as (Hs & Hc & _).
  unfold t, tan. fold c s. field. lra.
Qed.

Lemma w_unit : w.1 * w.1 + w.2 * w.2 = 1.
Proof.
  destruct cs_pos as (Hs & Hc & _).
  pose proof dot_half_angle as Hd. fold c in Hd. unfold d in Hd.
  unfold w; rewrite bisector_sum_R; cbn [fst snd].
  field_simplify_eq; [| lra]. nra.
Qed.

Lemma w_dot_u : w.1 * u.1 + w.2 * u.2 = - c.
Proof.
  destruct cs_pos as (Hs & Hc & _).
  pose proof dot_half_angle as Hd. fold c in Hd. unfold d in Hd.
  unfold w; rewrite bisector_sum_R; cbn [fst snd].
  field_simplify_eq; [| lra]. nra.
Qed.

Lemma w_dot_v : w.1 * v.1 + w.2 * v.2 = c.
Proof.
  destruct cs_pos as (Hs & Hc & _).
  pose proof dot_half_angle as Hd. fold c in Hd. unfold d in Hd.
  unfold w; rewrite bisector_sum_R; cbn [fst snd].
  field_simplify_eq; [| lra]. nra.
Qed.

(** The center is at the distance [r] from the tangent point [a] ... *)
Lemma center_to_a (gx gy : R) :
  let a := (gx - t * u.1, gy - t * u.2) in
  let o := (gx + dd * w.1, gy + dd * w.2) in
  (o.1 - a.1) * (o.1 - a.1) + (o.2 - a.2) * (o.2 - a.2) = r * r.
Proof.
  destruct cs_pos as (Hs & Hc & Hcs).
  cbn [fst snd].
  transitivity (dd * dd * (w.1 * w.1 + w.2 * w.2)
                + 2 * dd * t * (w.1 * u.1 + w.2 * u.2)
                + t * t * (u.1 * u.1 + u.2 * u.2)); [ring |].
  rewrite w_unit, w_dot_u, Hu, t_eq. unfold dd.
  field_simplify_eq; [| lra]. nra.
Qed.

(** ... and from the tangent point [b]. *)
Lemma center_to_b (gx gy : R) :
  let b := (gx + t * v.1, gy + t * v.2) in
  let o := (gx + dd * w.1, gy + dd * w.2) in
  (o.1 - b.1) * (o.1 - b.1) + (o.2 - b.2) * (o.2 - b.2) = r * r.
Proof.
  destruct cs_pos as (Hs & Hc & Hcs).
  cbn [fst snd].
  transitivity (dd * dd * (w.1 * w.1 + w.2 * w.2)
                - 2 * dd * t * (w.1 * v.1 + w.2 * v.2)
                + t * t * (v.1 * v.1 + v.2 * v.2)); [ring |].
  rewrite w_unit, w_dot_v, Hv, t_eq. unfold dd.
  field_simplify_eq; [| lra]. nra.
Qed.

Lemma cross_uv_nonzero : u.1 * v.2 - u.2 * v.1 <> 0.
Proof.
  destruct cs_pos as (Hs & Hc & Hcs).
  pose proof dot_half_angle as Hd. fold c in Hd.
  pose proof lagrange_uv as Hl.
  rewrite Hd in Hl. intros H0. rewrite H0 in Hl.
  assert (c * c < 1) by nra.
  assert (0 < c * c) by nra.
  nra.
Qed.

(** The cross product of line 157, at the bisector of lines 109-120. *)
Lemma cross_z_bisector (gx gy : R) :
  let a := (gx - t * u.1, gy - t * u.2) in
  let b := (gx + t * v.1, gy + t * v.2) in
  let o := (gx + dd * w.1, gy + dd * w.2) in
  (a.1 - o.1) * (b.2 - o.2) - (a.2 - o.2) * (b.1 - o.1)
  = r * r * (u.1 * v.2 - u.2 * v.1).
Proof.
  destruct cs_pos as (Hs & Hc & Hcs).
  cbn [fst snd]. rewrite t_eq. unfold dd, w. rewrite bisector_sum_R. cbn [fst snd].
  field_simplify_eq; [| lra].
  replace (s ^ 2) with (1 - c * c) by lra. ring.
Qed.

(** The same at the fallback of lines 114-118. *)
Lemma cross_z_fallback (gx gy : R) :
  2 * c < 1e-10 -> r <> 0 ->
  let a := (gx - t * u.1, gy - t * u.2) in
  let b := (gx + t * v.1, gy + t * v.2) in
  let o := (gx + dd * (u.2 / 1), gy + dd * (- u.1 / 1)) in
  (a.1 - o.1) * (b.2 - o.2) - (a.2 - o.2) * (b.1 - o.1) <> 0.
Proof.
  intros Hsmall Hr.
  destruct cs_pos as (Hs & Hc & Hcs).
  pose proof dot_half_angle as Hd. fold c in Hd. unfold d in Hd.
  cbn [fst snd]. rewrite t_eq. unfold dd.
  set (x := u.1 * v.2 - u.2 * v.1).
  assert (Hx : x * x <= 1).
  { pose proof lagrange_uv as Hl. fold x in Hl. unfold d in Hl. nra. }
  assert (E : (gx - r * c / s * u.1 - (gx + r / s * (u.2 / 1))) *
              (gy + r * c / s * v.2 - (gy + r / s * (- u.1 / 1))) -
              (gy - r * c / s * u.2 - (gy + r / s * (- u.1 / 1))) *
              (gx + r * c / s * v.1 - (gx + r / s * (u.2 / 1)))
              = - (r * r * c / (s * s)) * (c * x + 1 + (u.1 * v.1 + u.2 * v.2))).
  { unfold x. field_simplify_eq; [| lra].
    replace (u.1 ^ 2) with (1 - u.2 * u.2) by lra. ring. }
  rewrite E. clear E.
  assert (Hd' : u.1 * v.1 + u.2 * v.2 = 1 - 2 * c * c) by lra.
  rewrite Hd'.
  assert (c < 1 / 2) by lra.
  assert (Hk : c * x + 1 + (1 - 2 * c * c) <> 0).
  { assert (-1 <= x <= 1) by nra. nra. }
  assert (Hrr : r * r * c / (s * s) <> 0).
  { assert (0 < r * r) by nra.
    assert (0 < r * r * c / (s * s)) by (apply Rdiv_lt_0_compat; nra). lra. }
  intros H0. apply Rmult_integral in H0. destruct H0 as [H0 | H0]; [| auto].
  lra.
Qed.

End Units.

(** ** Exact arithmetic: the angles of lines 147-169 *)

Section Angles.
Local Open Scope R_scope.

Lemma atan_nonpos (x : R) : x <= 0 -> atan x <= 0.
Proof.
  intros [H | ->]; [| rewrite atan_0; lra].
  pose proof (atan_increasing x 0 H). rewrite atan_0 in *. lra.
Qed.

Lemma atan_pos (x : R) : 0 < x -> 0 < atan x.
Proof.
  intros H. pose proof (atan_increasing 0 x H). rewrite atan_0 in *. lra.
Qed.

Lemma atan2_range (y x : R) : - PI < atan2 y x <= PI.
Proof.
  pose proof PI_RGT_0 as Hpi.
  unfold atan2.
  destruct (Rlt_dec 0 x) as [Hx | Hx].
  - pose proof (atan_bound (y / x)). lra.
  - destruct (Rlt_dec x 0) as [Hx' | Hx'].
    + assert (Hi : / x < 0) by (apply Rinv_lt_0_compat; lra).
      pose proof (atan_bound (y / x)).
      destruct (Rle_dec 0 y) as [Hy | Hy].
      * assert (Hq : y / x <= 0) by (unfold Rdiv; nra).
        pose proof (atan_nonpos _ Hq). lra.
      * assert (Hq : 0 < y / x) by (unfold Rdiv; nra).
        pose proof (atan_pos _ Hq). lra.
    + destruct (Rlt_dec 0 y); [lra |]. destruct (Rlt_dec y 0); lra.
Qed.

Lemma atan2_origin : atan2 0 0 = 0.
Proof.
  unfold atan2. repeat (destruct (Rlt_dec _ _); [lra |]). reflexivity.
Qed.

Lemma atan2_down (y x : R) : x = 0 -> y < 0 -> atan2 y x = - (PI / 2).
Proof.
  intros -> Hy. unfold atan2. repeat (destruct (Rlt_dec _ _); try lra).
Qed.

Lemma atan2_right (y x : R) : y = 0 -> 0 < x -> atan2 y x = 0.
Proof.
  intros -> Hx. unfold atan2. destruct (Rlt_dec 0 x); [| lra].
  unfold Rdiv. rewrite Rmult_0_l. apply atan_0.
Qed.

(** The point [(x, y)] lies on the ray of angle [atan2 y x]. *)
Lemma atan2_ray (y x : R) : x * sin (atan2 y x) = y * cos (atan2 y x).
Proof.
  unfold atan2.
  assert (Hat : forall z, sin (atan z) = z * cos (atan z)).
  { intros z. pose proof (atan_bound z).
    assert (0 < cos (atan z)) by (apply cos_gt_0; lra).
    rewrite <- (tan_atan z) at 2. unfold tan. field. lra. }
  destruct (Rlt_dec 0 x) as [Hx | Hx].
  - rewrite Hat. field. lra.
  - destruct (Rlt_dec x 0) as [Hx' | Hx'].
    + destruct (Rle_dec 0 y) as [Hy | Hy].
      * rewrite neg_sin, neg_cos, Hat. field. lra.
      * unfold Rminus. rewrite <- (Ropp_involutive (atan (y / x) + - PI)).
        rewrite sin_neg, cos_neg.
        replace (- (atan (y / x) + - PI)) with (PI - atan (y / x)) by ring.
        rewrite sin_PI_x, Rtrigo_facts.cos_pi_minus, Hat. field. lra.
    + assert (x = 0) by lra. subst x.
      destruct (Rlt_dec 0 y); [rewrite cos_PI2; ring |].
      destruct (Rlt_dec y 0); [rewrite cos_neg, cos_PI2; ring |].
      assert (y = 0) by lra. subst y. ring.
Qed.

(** Two points seen from the origin under the same angle are aligned
    with it. *)
Lemma atan2_eq_cross (y1 x1 y2 x2 : R) :
  atan2 y1 x1 = atan2 y2 x2 -> x1 * y2 - y1 * x2 = 0.
Proof.
  intros H. pose proof (atan2_ray y1 x1) as H1. pose proof (atan2_ray y2 x2) as H2.
  rewrite H in H1. set (al := atan2 y2 x2) in *.
  pose proof (sin2_cos2 al) as Hsc. unfold Rsqr in Hsc.
  assert (Hc : (x1 * y2 - y1 * x2) * cos al = 0).
  { replace ((x1 * y2 - y1 * x2) * cos al)
      with (x1 * (y2 * cos al) - (y1 * cos al) * x2) by ring.
    rewrite <- H1, <- H2. ring. }
  assert (Hs : (x1 * y2 - y1 * x2) * sin al = 0).
  { replace ((x1 * y2 - y1 * x2) * sin al)
      with (y2 * (x1 * sin al) - y1 * (x2 * sin al)) by ring.
    rewrite H1, H2. ring. }
  replace (x1 * y2 - y1 * x2)
    with ((x1 * y2 - y1 * x2) * sin al * sin al
          + (x1 * y2 - y1 * x2) * cos al * cos al).
  - rewrite Hc, Hs. ring.
  - transitivity ((x1 * y2 - y1 * x2) * (sin al * sin al + cos al * cos al));
      [ring |].
    rewrite Hsc. ring.
Qed.

Lemma arc_angles_R (a b c : R * R) :
  let s0 := atan2 (a.2 - c.2) (a.1 - c.1) in
  let e0 := atan2 (b.2 - c.2) (b.1 - c.1) in
  let cross_z := (a.1 - c.1) * (b.2 - c.2) - (a.2 - c.2) * (b.1 - c.1) in
  let s := if Rltb cross_z 0 then e0 else s0 in
  let e := if Rltb cross_z 0 then s0 else e0 in
  arc_angles a b c =
    (s, if Rltb PI (Rabs (e - s))
        then if Rltb s e then e - 2 * PI else e + 2 * PI
        else e).
Proof.
  unfold arc_angles; rsimpl. destruct (Rltb _ 0); reflexivity.
Qed.

Lemma arc_angles_within_pi (a b c : R * R) :
  Rabs ((arc_angles a b c).2 - (arc_angles a b c).1) <= PI.
Proof.
  rewrite arc_angles_R. cbv zeta. cbn [fst snd].
  pose proof (atan2_range (a.2 - c.2) (a.1 - c.1)) as Hs.
  pose proof (atan2_range (b.2 - c.2) (b.1 - c.1)) as He.
  set (s0 := atan2 (a.2 - c.2) (a.1 - c.1)) in *.
  set (e0 := atan2 (b.2 - c.2) (b.1 - c.1)) in *.
  destruct (Rltb _ 0).
  - destruct (Rltb PI (Rabs (s0 - e0))) eqn:Hbig.
    + apply Rltb_true in Hbig.
      destruct (Rltb e0 s0) eqn:Hord;
        [apply Rltb_true in Hord | apply Rltb_false in Hord];
        revert Hbig; unfold Rabs; repeat destruct (Rcase_abs _); lra.
    + apply Rltb_false in Hbig. exact Hbig.
  - destruct (Rltb PI (Rabs (e0 - s0))) eqn:Hbig.
    + apply Rltb_true in Hbig.
      destruct (Rltb s0 e0) eqn:Hord;
        [apply Rltb_true in Hord | apply Rltb_false in Hord];
        revert Hbig; unfold Rabs; repeat destruct (Rcase_abs _); lra.
    + apply Rltb_false in Hbig. exact Hbig.
Qed.

Lemma arc_angles_distinct (a b c : R * R) :
  (a.1 - c.1) * (b.2 - c.2) - (a.2 - c.2) * (b.1 - c.1) <> 0 ->
  0 < Rabs ((arc_angles a b c).2 - (arc_angles a b c).1).
Proof.
  intros Hx. apply Rabs_pos_lt.
  rewrite arc_angles_R. cbv zeta. cbn [fst snd].
  pose proof (atan2_range (a.2 - c.2) (a.1 - c.1)) as Hs.
  pose proof (atan2_range (b.2 - c.2) (b.1 - c.1)) as He.
  assert (Hne : atan2 (a.2 - c.2) (a.1 - c.1) <> atan2 (b.2 - c.2) (b.1 - c.1)).
  { intros Heq. apply Hx. apply atan2_eq_cross. exact Heq. }
  set (s0 := atan2 (a.2 - c.2) (a.1 - c.1)) in *.
  set (e0 := atan2 (b.2 - c.2) (b.1 - c.1)) in *.
  destruct (Rltb _ 0).
  - destruct (Rltb PI (Rabs (s0 - e0))); [| lra].
    destruct (Rltb e0 s0); lra.
  - destruct (Rltb PI (Rabs (e0 - s0))); [| lra].
    destruct (Rltb s0 e0); lra.
Qed.

End Angles.

(** ** Exact arithmetic: the right angle at [(10, 0)] *)

Section RightAngle.
Local Open Scope R_scope.

Variables rA r rB : R.
Let A : point R := (0, 0, rA).
Let g : point R := (10, 0, r).
Let B : point R := (10, 10, rB).

Lemma sqrt2_sq : sqrt 2 * sqrt 2 = 2.
Proof. apply sqrt_sqrt. lra. Qed.

Lemma sqrt2_pos : 1 < sqrt 2.
Proof.
  pose proof sqrt2_sq. pose proof (sqrt_pos 2).
  destruct (Rlt_dec 1 (sqrt 2)); [assumption | nra].
Qed.

Lemma right_angle_lengths : seg_length A g = 10 /\ seg_length g B = 10.
Proof.
  split; apply norm_eq; try lra; unfold A, g, B, px, py; cbn [fst snd]; ring.
Qed.

Lemma right_angle_dirs : unit_dir A g = (1, 0) /\ unit_dir g B = (0, 1).
Proof.
  destruct right_angle_lengths as [H1 H2].
  unfold unit_dir. rewrite H1, H2. unfold A, g, B, px, py; cbn [fst snd].
  split; f_equal; field.
Qed.

Lemma right_angle_angle : angle_at A g B = PI / 2.
Proof.
  destruct right_angle_dirs as [H1 H2].
  unfold angle_at. rewrite H1, H2. cbn [fst snd].
  replace (1 * - 0 + 0 * - (1)) with 0 by ring.
  rewrite clamp_id by lra. apply acos_0.
Qed.

Lemma right_angle_in_range : 1e-10 <= PI / 2 <= PI - 1e-10.
Proof. pose proof PI2_1. lra. Qed.

Lemma right_angle_bisector :
  norm (bisector_sum (unit_dir A g) (unit_dir g B)) = sqrt 2.
Proof.
  destruct right_angle_dirs as [H1 H2]. rewrite H1, H2.
  pose proof sqrt2_pos. pose proof sqrt2_sq.
  apply norm_eq; [lra |]. rewrite bisector_sum_R. cbn [fst snd]. lra.
Qed.

(** Lines 67-128 at the right angle: the tangent points are at the
    distance [r] from the corner and the center is at [(10 - r, r)]. *)
Lemma right_angle_corner :
  tangent_circle A g B =
    inr (Some (mkCorner (10 - r, 0) (10, r) (10 - r, r) (- / sqrt 2, / sqrt 2))).
Proof.
  destruct right_angle_lengths as [HL1 HL2].
  destruct right_angle_dirs as [HD1 HD2].
  pose proof right_angle_bisector as Hn. rewrite HD1, HD2 in Hn.
  pose proof sqrt2_pos as Hs2.
  rewrite (tangent_circle_R A g B (1, 0) (0, 1) (- / sqrt 2, / sqrt 2) (PI / 2)).
  - unfold g, px, py, pr; cbn [fst snd].
    replace (PI / 2 / 2) with (PI / 4) by field.
    rewrite tan_PI4, sin_PI4.
    do 2 f_equal. f_equal; f_equal; field; lra.
  - rewrite unit_vectors_long by lra. now rewrite HD1, HD2.
  - rewrite <- HD1, <- HD2, interior_angle_dirs. now rewrite right_angle_angle.
  - apply angle_skipped_R, right_angle_in_range.
  - rewrite bisector_R. cbv zeta. rewrite Hn.
    assert (Hf : Rltb (sqrt 2) 1e-10 = false) by (apply Rltb_false; lra).
    rewrite Hf, bisector_sum_R. cbn [fst snd].
    do 2 f_equal; field; lra.
Qed.

(** Lines 147-169 at the right angle, for a positive radius: a quarter
    turn, from [-PI/2] to [0]. *)
Lemma right_angle_arc :
  0 < r -> arc_angles (10 - r, 0) (10, r) (10 - r, r) = (- (PI / 2), 0).
Proof.
  intros Hr. rewrite arc_angles_R. cbv zeta. cbn [fst snd].
  rewrite (atan2_down (0 - r) (10 - r - (10 - r))) by lra.
  rewrite (atan2_right (r - r) (10 - (10 - r))) by lra.
  assert (Hc : Rltb ((10 - r - (10 - r)) * (r - r) - (0 - r) * (10 - (10 - r))) 0 = false)
    by (apply Rltb_false; nra).
  rewrite Hc.
  assert (Hp : Rltb PI (Rabs (0 - - (PI / 2))) = false).
  { apply Rltb_false. pose proof PI_RGT_0. rewrite Rabs_right; lra. }
  now rewrite Hp.
Qed.

(** And for the radius [0]: both angles are [0]. *)
Lemma right_angle_arc_0 :
  r = 0 -> arc_angles (10 - r, 0) (10, r) (10 - r, r) = (0, 0).
Proof.
  intros ->. rewrite arc_angles_R. cbv zeta. cbn [fst snd].
  replace (10 - 0 - (10 - 0)) with 0 by ring.
  replace (10 - (10 - 0)) with 0 by ring.
  replace (0 - 0) with 0 by ring.
  rewrite atan2_origin.
  replace (0 * 0 - 0 * 0) with 0 by ring.
  assert (Hc : Rltb 0 0 = false) by (apply Rltb_false; lra).
  rewrite Hc. replace (0 - 0) with 0 by ring. rewrite Rabs_R0.
  assert (Hp : Rltb PI 0 = false) by (apply Rltb_false; pose proof PI_RGT_0; lra).
  now rewrite Hp.
Qed.

End RightAngle.

(** ** Exact arithmetic: an angle on the edge of the skip band

    The corner at the origin between [(-1, 0)] and the point of the unit
    circle at the angle [1e-10]: its interior angle is [PI - 1e-10], which
    the test of line 94 lets through. *)

Section Boundary.
Local Open Scope R_scope.

Variable r : R.
Let A : point R := (-1, 0, 0).
Let g : point R := (0, 0, r).
Let B : point R := (cos 1e-10, sin 1e-10, 0).

Lemma boundary_lengths : seg_length A g = 1 /\ seg_length g B = 1.
Proof.
  pose proof (sin2_cos2 1e-10) as H. unfold Rsqr in H.
  split; apply norm_eq; try lra; unfold A, g, B, px, py; cbn [fst snd]; lra.
Qed.

Lemma boundary_dirs :
  unit_dir A g = (1, 0) /\ unit_dir g B = (cos 1e-10, sin 1e-10).
Proof.
  destruct boundary_lengths as [H1 H2].
  unfold unit_dir. rewrite H1, H2. unfold A, g, B, px, py; cbn [fst snd].
  split; f_equal; field.
Qed.

Lemma boundary_angle : angle_at A g B = PI - 1e-10.
Proof.
  destruct boundary_dirs as [H1 H2].
  unfold angle_at. rewrite H1, H2. cbn [fst snd].
  replace (1 * - cos 1e-10 + 0 * - sin 1e-10) with (- cos 1e-10) by ring.
  pose proof (COS_bound 1e-10).
  rewrite clamp_id by lra.
  rewrite acos_opp, acos_cos; [reflexivity |].
  pose proof PI2_1. lra.
Qed.

Lemma boundary_in_range : 1e-10 <= angle_at A g B <= PI - 1e-10.
Proof. rewrite boundary_angle. pose proof PI2_1. lra. Qed.

Lemma boundary_units :
  let u := unit_dir A g in
  let v := unit_dir g B in
  u.1 * u.1 + u.2 * u.2 = 1 /\ v.1 * v.1 + v.2 * v.2 = 1.
Proof.
  destruct boundary_dirs as [H1 H2]. cbv zeta. rewrite H1, H2. cbn [fst snd].
  pose proof (sin2_cos2 1e-10) as H. unfold Rsqr in H. lra.
Qed.

(** Line 112 there: the bisector sum is shorter than [1e-10]. *)
Lemma boundary_bisector_short :
  norm (bisector_sum (unit_dir A g) (unit_dir g B)) < 1e-10.
Proof.
  destruct boundary_units as [Hu Hv].
  rewrite (bisector_sum_norm _ _ Hu Hv).
  fold (angle_at A g B). rewrite boundary_angle.
  replace ((PI - 1e-10) / 2) with (PI / 2 - 1e-10 / 2) by field.
  rewrite cos_shift.
  pose proof (sin_lt_x (1e-10 / 2)). lra.
Qed.

(** Lines 107-120 there: the fallback of lines 114-118. *)
Lemma boundary_bisector : bisector (unit_dir A g) (unit_dir g B) = inr (0 / 1, - (1) / 1).
Proof.
  rewrite bisector_R. cbv zeta.
  pose proof boundary_bisector_short as H. apply Rltb_true in H. rewrite H.
  destruct boundary_dirs as [H1 _]. now rewrite H1.
Qed.

Lemma boundary_corner :
  let t := r / tan ((PI - 1e-10) / 2) in
  let d := r / sin ((PI - 1e-10) / 2) in
  tangent_circle A g B =
    inr (Some (mkCorner (0 - t * 1, 0 - t * 0)
                        (0 + t * cos 1e-10, 0 + t * sin 1e-10)
                        (0 + d * (0 / 1), 0 + d * (- (1) / 1))
                        (0 / 1, - (1) / 1))).
Proof.
  destruct boundary_lengths as [HL1 HL2].
  destruct boundary_dirs as [HD1 HD2].
  pose proof boundary_in_range as Hr.
  pose proof (tangent_circle_R A g B _ _ _ _
                (unit_vectors_long A g B ltac:(lra) ltac:(lra))
                (interior_angle_dirs A g B)
                (proj2 (angle_skipped_R _) Hr)
                boundary_bisector) as Hk.
  cbv zeta in Hk. rewrite boundary_angle, HD1, HD2 in Hk.
  exact Hk.
Qed.

Lemma boundary_half_angle :
  PI / 4 < (PI - 1e-10) / 2 < PI / 2.
Proof. pose proof PI2_1. lra. Qed.

Lemma boundary_tangent_distance :
  0 < r -> 0 < r / tan ((PI - 1e-10) / 2) < r.
Proof.
  intros Hr. pose proof boundary_half_angle as Hh. pose proof PI_RGT_0.
  assert (Ht : 1 < tan ((PI - 1e-10) / 2)).
  { pose proof (tan_increasing (PI / 4) ((PI - 1e-10) / 2)) as Hi.
    rewrite tan_PI4 in Hi. apply Hi; lra. }
  set (x := tan ((PI - 1e-10) / 2)) in *.
  split; [apply Rdiv_lt_0_compat; lra |].
  apply Rmult_lt_reg_r with x; [lra |].
  unfold Rdiv. rewrite Rmult_assoc, Rinv_l by lra. nra.
Qed.

Lemma boundary_center_distance :
  0 < r -> r <= r / sin ((PI - 1e-10) / 2).
Proof.
  intros Hr. pose proof boundary_half_angle as Hh. pose proof PI_RGT_0.
  assert (Hs : 0 < sin ((PI - 1e-10) / 2)) by (apply sin_gt_0; lra).
  pose proof (SIN_bound ((PI - 1e-10) / 2)) as Hb.
  set (x := sin ((PI - 1e-10) / 2)) in *.
  apply Rmult_le_reg_r with x; [lra |].
  unfold Rdiv. rewrite Rmult_assoc, Rinv_l by lra. nra.
Qed.

End Boundary.

(** ** What a window and the loop can raise, and what a skipped window does *)

Section Outcome.
Context {F : Type} {PF : PyFloat F}.

(** The loop raises only what a window raises: no index is out of range. *)
Lemma windows_raise (P : exn -> Prop) (n : nat) (dbg : bool) (k : nat) :
  (forall (A g B : point F) (e : exn), tangent_circle A g B = inl e -> P e) ->
  forall (a : nat) (pts : list (point F)),
    (a + k + 2 <= length pts)%nat ->
    match (windows n dbg (seq a k) pts).1.1 with
    | inl e => P e
    | inr _ => True
    end.
Proof.
  intros HP. induction k as [| k IH]; intros a pts Hlen; cbn [seq windows].
  - exact I.
  - destruct (lookup_lt_is_Some_2 pts a ltac:(lia)) as [A HA].
    destruct (lookup_lt_is_Some_2 pts (S a) ltac:(lia)) as [g Hg].
    destruct (lookup_lt_is_Some_2 pts (S (S a)) ltac:(lia)) as [B HB].
    rewrite HA, Hg, HB. cbv zeta.
    destruct (tangent_circle A g B) as [e | r] eqn:Hr.
    + cbn. exact (HP A g B e Hr).
    + specialize (IH (S a) (window_points a g (inr r) pts)).
      rewrite window_points_length in IH.
      destruct (windows n dbg (seq (S a) k) _) as [[res pts''] cs'].
      simpl in *. apply IH. lia.
Qed.

(** [draw] raises only what a window raises. *)
Lemma draw_raise (P : exn -> Prop) (w : world F) :
  (forall (A g B : point F) (e : exn), tangent_circle A g B = inl e -> P e) ->
  match (draw w).1 with
  | inl e => P e
  | inr _ => True
  end.
Proof.
  intros HP. rewrite draw_spec. unfold draw_trace.
  destruct (decide _) as [Hlt | Hge]; [exact I |].
  pose proof (windows_raise P (length (points (self w))) (debug (self w))
                (length (points (self w)) - 2) HP 0%nat (points (self w))
                ltac:(lia)) as H.
  destruct (windows _ _ _ _) as [[res pts'] cs]. exact H.
Qed.

End Outcome.

Section Skips.
Context {F : Type} {PF : PyFloat F}.

(** Lines 75-77 and 94-95: a degenerate window is skipped. *)
Lemma degenerate_window_skip (A g B : point F) :
  degenerate_window A g B -> tangent_circle A g B = inr None.
Proof.
  intros [(LA & LB & HA & HB & Ht) | (u & v & theta & Hu & Ha & Hs)].
  - unfold tangent_circle, unit_vectors.
    destruct A as [[Ax Ay] rA], g as [[gx gy] rg], B as [[Bx By] rB].
    unfold px, py in HA, HB; cbn [fst snd] in HA, HB.
    cbn [fst snd]. rewrite HA. cbn [mbind E_bind]. rewrite HB. cbn [mbind E_bind].
    rewrite Ht. reflexivity.
  - unfold tangent_circle. rewrite Hu. cbn [mbind E_bind].
    destruct g as [[gx gy] rg]. rewrite Ha. cbn [mbind E_bind]. now rewrite Hs.
Qed.

(** A window that is skipped: no call but the debug reference lines, the
    points as they were, and the loop goes on. *)
Lemma skipped_window (w : world F) (i : nat) (A g B : point F) :
  points (self w) !! i = Some A ->
  points (self w) !! S i = Some g ->
  points (self w) !! S (S i) = Some B ->
  tangent_circle A g B = inr None ->
  let cs := if debug (self w) then reference_calls A g B else [] in
  draw_window i w = (inr tt, mkWorld (self w) (play cs (vsk w))) /\
  path_calls false cs = [] /\
  forall idx,
    for_each (i :: idx) draw_window w =
    for_each idx draw_window (mkWorld (self w) (play cs (vsk w))).
Proof.
  intros HA Hg HB Hskip cs. subst cs.
  assert (Hd : draw_window i w =
               (inr tt, mkWorld (self w)
                  (play (if debug (self w) then reference_calls A g B else [])
                        (vsk w)))).
  { rewrite (draw_window_spec i w A g B HA Hg HB). cbv zeta.
    rewrite Hskip.
    unfold window_calls, window_points, window_result.
    rewrite app_nil_r. destruct w as [[pts dbg] v]. reflexivity. }
  split; [exact Hd |].
  split; [destruct (debug (self w)); reflexivity |].
  intros idx. cbn [for_each]. unfold mbind at 1, M_bind at 1.
  now rewrite Hd.
Qed.

(** Lines 44-52 with fewer than three points. *)
Lemma few_points (w : world F) :
  (length (points (self w)) < 3)%nat ->
  let cs := if debug (self w) then marker_calls (points (self w)) else [] in
  draw w = (inr tt, mkWorld (self w) (play cs (vsk w))) /\
  path_calls false cs = [] /\
  Forall (fun c => match c with
                   | Line _ _ _ _ | Arc _ _ _ _ _ _ => False
                   | _ => True
                   end) cs.
Proof.
  intros Hlt cs. subst cs.
  rewrite draw_spec. unfold draw_trace.
  destruct (decide _) as [_ | Hge]; [| lia].
  destruct w as [[pts dbg] v]; cbn [self points debug vsk].
  split; [reflexivity |]. destruct dbg.
  + split; [apply marker_calls_path |].
    unfold marker_calls. clear Hlt.
    induction pts as [| p pts IH]; cbn; repeat constructor. exact IH.
  + split; [reflexivity | constructor].
Qed.

End Skips.

Section NotSkipped.
Context {F : Type} {PF : PyFloat F}.

(** A window whose unit vectors are computed and whose angle passes the
    test of line 94 is not skipped: it is rounded, or a later step
    raises. *)
Lemma passed_is_not_skipped (A g B : point F) (u v : F * F) (theta : F) :
  unit_vectors A g B = inr (Some (u, v)) ->
  interior_angle_of u v = inr theta ->
  angle_skipped theta = false ->
  tangent_circle A g B <> inr None.
Proof.
  intros Hu Ha Hs. unfold tangent_circle. rewrite Hu. cbn [mbind E_bind].
  destruct g as [[gx gy] rg]. rewrite Ha. cbn [mbind E_bind]. rewrite Hs.
  destruct (fdiv theta f2) as [e | half]; [discriminate |]. cbn [mbind E_bind].
  destruct (math_tan half) as [e | tn]; [discriminate |]. cbn [mbind E_bind].
  destruct (fdiv rg tn) as [e | t]; [discriminate |]. cbn [mbind E_bind].
  destruct (bisector u v) as [e | w]; [discriminate |]. cbn [mbind E_bind].
  destruct (math_sin half) as [e | sn]; [discriminate |]. cbn [mbind E_bind].
  destruct (fdiv rg sn) as [e | d]; discriminate.
Qed.

End NotSkipped.

(** ** Binary64: the specification of the rounded operations *)

Section SpecFloatFacts.
Local Open Scope Z_scope.

Lemma digits2_pos_size (p : positive) : digits2_pos p = Pos.size p.
Proof. induction p as [p IH | p IH |]; cbn; now rewrite ?IH. Qed.

Lemma Zdigits2_log2 (x : Z) : 0 < x -> Zdigits2 x = Z.log2 x + 1.
Proof.
  destruct x as [| p | p]; try lia. intros _. cbn [Zdigits2].
  destruct p as [p | p |]; cbn [digits2_pos Z.log2];
    rewrite ?digits2_pos_size; lia.
Qed.

Lemma Zdigits2_nonneg (x : Z) : 0 <= Zdigits2 x.
Proof. destruct x; cbn; lia. Qed.

Lemma Zdigits2_mono (x y : Z) : 0 <= x <= y -> Zdigits2 x <= Zdigits2 y.
Proof.
  intros [Hx Hxy]. destruct (Z.eq_dec x 0) as [-> | Hne].
  - apply Zdigits2_nonneg.
  - rewrite !Zdigits2_log2 by lia.
    pose proof (Z.log2_le_mono x y Hxy). lia.
Qed.

Lemma Zdigits2_succ (x : Z) : 0 <= x -> Zdigits2 (x + 1) <= Zdigits2 x + 1.
Proof.
  intros Hx. destruct (Z.eq_dec x 0) as [-> | Hne]; [now vm_compute |].
  rewrite !Zdigits2_log2 by lia.
  pose proof (Z.log2_succ_le x). unfold Z.succ in *. lia.
Qed.

Lemma Zdigits2_shiftl (m s : Z) : 0 < m -> 0 <= s -> Zdigits2 (Z.shiftl m s) = Zdigits2 m + s.
Proof.
  intros Hm Hs.
  assert (0 < Z.shiftl m s).
  { rewrite Z.shiftl_mul_pow2 by lia. pose proof (Z.pow_pos_nonneg 2 s). nia. }
  rewrite !Zdigits2_log2 by lia. rewrite Z.log2_shiftl by lia. lia.
Qed.

Lemma shr_1_bounds (mrs : shr_record) :
  0 <= shr_m mrs -> 0 <= shr_m (shr_1 mrs) <= shr_m mrs.
Proof.
  destruct mrs as [m r s]. cbn [shr_m]. intros Hm.
  destruct m as [| [p | p |] | p]; cbn; lia.
Qed.

Lemma iter_shr_1_bounds (p : positive) :
  forall mrs, 0 <= shr_m mrs -> 0 <= shr_m (SpecFloat.iter_pos shr_1 p mrs) <= shr_m mrs.
Proof.
  induction p as [p IH | p IH |]; intros mrs Hm; cbn [SpecFloat.iter_pos].
  - pose proof (shr_1_bounds mrs Hm) as H1.
    pose proof (IH _ (proj1 H1)) as H2.
    pose proof (IH _ (proj1 H2)) as H3. lia.
  - pose proof (IH _ Hm) as H2.
    pose proof (IH _ (proj1 H2)) as H3. lia.
  - apply shr_1_bounds, Hm.
Qed.

Lemma shr_record_of_loc_m (m : Z) (l : location) : shr_m (shr_record_of_loc m l) = m.
Proof. destruct l as [| []]; reflexivity. Qed.

(** The shift of [binary_round_aux]: the mantissa does not grow and stays
    non-negative, the exponent becomes the larger of the two. *)
Lemma shr_fexp_bounds (m e : Z) (l : location) :
  0 <= m ->
  let r := shr_fexp prec emax m e l in
  0 <= shr_m r.1 <= m /\
  r.2 = Z.max e (fexp prec emax (Zdigits2 m + e)).
Proof.
  intros Hm. unfold shr_fexp, shr.
  destruct (fexp prec emax (Zdigits2 m + e) - e) as [| p | p] eqn:Hn; cbn [fst snd].
  - rewrite shr_record_of_loc_m. lia.
  - pose proof (iter_shr_1_bounds p (shr_record_of_loc m l)) as H.
    rewrite shr_record_of_loc_m in H. specialize (H Hm). lia.
  - rewrite shr_record_of_loc_m. lia.
Qed.

Lemma round_nearest_even_bounds (m : Z) (l : location) :
  m <= round_nearest_even m l <= m + 1.
Proof.
  unfold round_nearest_even. destruct l as [| []]; try lia.
  destruct (Z.even m); lia.
Qed.

(** When the mantissa is not negative and the exponents are small enough,
    rounding gives a zero or a finite number. *)
Lemma binary_round_aux_finite (sx : bool) (mx ex : Z) (lx : location) :
  0 <= mx -> Zdigits2 mx <= 200 -> ex <= 500 ->
  match binary_round_aux prec emax sx mx ex lx with
  | S754_zero _ | S754_finite _ _ _ => True
  | _ => False
  end.
Proof.
  intros Hm Hd He. unfold binary_round_aux.
  pose proof (shr_fexp_bounds mx ex lx Hm) as H1. cbv zeta in H1.
  destruct (shr_fexp prec emax mx ex lx) as [mrs1 e1]. cbn [fst snd] in H1.
  destruct H1 as [Hm1 He1].
  pose proof (round_nearest_even_bounds (shr_m mrs1) (loc_of_shr_record mrs1)) as Hr.
  set (mx2 := round_nearest_even (shr_m mrs1) (loc_of_shr_record mrs1)) in *.
  pose proof (shr_fexp_bounds mx2 e1 loc_Exact ltac:(lia)) as H2. cbv zeta in H2.
  destruct (shr_fexp prec emax mx2 e1 loc_Exact) as [mrs2 e2]. cbn [fst snd] in H2.
  destruct H2 as [Hm2 He2].
  assert (Hd2 : Zdigits2 mx2 <= Zdigits2 mx + 1).
  { pose proof (Zdigits2_mono mx2 (shr_m mrs1 + 1) ltac:(lia)).
    pose proof (Zdigits2_succ (shr_m mrs1) ltac:(lia)).
    pose proof (Zdigits2_mono (shr_m mrs1) mx ltac:(lia)). lia. }
  destruct (shr_m mrs2) as [| p | p] eqn:Hs; [exact I | | lia].
  assert (Hle : e2 <= emax - prec).
  { subst e2 e1. unfold fexp, SpecFloat.emin, prec, emax in *. lia. }
  apply Z.leb_le in Hle. rewrite Hle. exact I.
Qed.

(** The square root of a finite positive binary64 number is finite. *)
Lemma SFsqrt_finite (m : positive) (e : Z) :
  SpecFloat.bounded prec emax m e = true ->
  match SFsqrt prec emax (S754_finite false m e) with
  | S754_zero _ | S754_finite _ _ _ => True
  | _ => False
  end.
Proof.
  intros Hb. unfold SpecFloat.bounded, canonical_mantissa in Hb.
  apply andb_prop in Hb. destruct Hb as [Hc He].
  apply Z.eqb_eq in Hc. apply Z.leb_le in He.
  cbn [SFsqrt]. unfold SFsqrt_core_binary.
  set (d := Zdigits2 (Z.pos m)).
  assert (Hd : d = Z.pos (digits2_pos m)) by reflexivity.
  assert (Hd1 : 1 <= d) by lia.
  set (e' := Z.min (fexp prec emax (Z.div2 (d + e + 1))) (Z.div2 e)).
  set (s := e - 2 * e').
  set (m' := match s with Z.pos _ => Z.shiftl (Z.pos m) s | 0 => Z.pos m | Z.neg _ => 0 end).
  assert (Hbounds : d <= 53 /\ -1074 <= e <= 971).
  { rewrite <- Hd in Hc. unfold fexp, SpecFloat.emin, prec, emax in *. lia. }
  assert (He' : -1074 <= e' <= 485 /\ s <= 108).
  { subst s e'. rewrite !Z.div2_div. unfold fexp, SpecFloat.emin, prec, emax.
    clearbody d. clear m' Hc Hd. Z.to_euclidean_division_equations. lia. }
  assert (Hm' : 0 <= m' /\ Zdigits2 m' <= d + Z.max s 0).
  { subst m'. destruct s as [| p | p] eqn:Hs.
    - fold d. lia.
    - rewrite Zdigits2_shiftl by lia. fold d.
      rewrite Z.shiftl_mul_pow2 by lia. pose proof (Z.pow_pos_nonneg 2 (Z.pos p)). nia.
    - cbn. lia. }
  pose proof (Z.sqrtrem_sqrt m') as Hq.
  destruct (Z.sqrtrem m') as [q r]. cbn [fst] in Hq. subst q.
  apply binary_round_aux_finite.
  - apply Z.sqrt_nonneg.
  - assert (Z.sqrt m' <= m').
    { destruct (Z.eq_dec m' 0) as [-> | Hne]; [reflexivity |].
      pose proof (Z.sqrt_lt_lin m'). destruct (Z.eq_dec m' 1) as [-> | H1]; [reflexivity | lia]. }
    pose proof (Zdigits2_mono (Z.sqrt m') m' ltac:(pose proof (Z.sqrt_nonneg m'); lia)). lia.
  - lia.
Qed.

End SpecFloatFacts.

(** ** Binary64: what lines 67-128 can raise *)

Section Binary64.

Lemma SFeqb_refl_finite (s : bool) (m : positive) (e : Z) :
  SFeqb (S754_finite s m e) (S754_finite s m e) = true.
Proof.
  unfold SFeqb. cbn [SFcompare].
  rewrite Z.compare_refl, Pos.compare_cont_refl. now destruct s.
Qed.

Lemma is_nan_true (x : float) : is_nan x = true -> Prim2SF x = S754_nan.
Proof.
  unfold is_nan. rewrite FloatAxioms.eqb_spec.
  destruct (Prim2SF x) as [s | s | | s m e]; try reflexivity.
  - destruct s; discriminate.
  - destruct s; discriminate.
  - rewrite SFeqb_refl_finite. discriminate.
Qed.

Lemma is_infinity_true (x : float) :
  is_infinity x = true -> exists s, Prim2SF x = S754_infinity s.
Proof.
  unfold is_infinity. rewrite FloatAxioms.eqb_spec, FloatAxioms.abs_spec.
  destruct (Prim2SF x) as [s | s | | s m e]; try discriminate. eauto.
Qed.

(** A zero or a finite number is neither a NaN nor an infinity. *)
Lemma zero_or_finite_is_finite (x : float) :
  match Prim2SF x with
  | S754_zero _ | S754_finite _ _ _ => True
  | _ => False
  end ->
  is_nan x = false /\ is_infinity x = false.
Proof.
  unfold is_nan, is_infinity.
  rewrite !FloatAxioms.eqb_spec, FloatAxioms.abs_spec.
  destruct (Prim2SF x) as [s | s | | s m e]; intros H; try contradiction.
  - now destruct s.
  - rewrite SFeqb_refl_finite. split; reflexivity.
Qed.

Lemma binary_round_aux_sign (mx ex : Z) (lx : location) :
  match binary_round_aux prec emax false mx ex lx with
  | S754_nan | S754_zero false | S754_infinity false | S754_finite false _ _ => True
  | _ => False
  end.
Proof.
  unfold binary_round_aux.
  destruct (shr_fexp prec emax mx ex lx) as [mrs1 e1].
  destruct (shr_fexp prec emax _ e1 loc_Exact) as [mrs2 e2].
  destruct (shr_m mrs2); [exact I | | exact I].
  destruct (e2 <=? emax - prec)%Z; exact I.
Qed.

(** [x ** 2] is a NaN or has its sign bit clear. *)
Lemma b64_square_unsigned (x s : float) :
  b64_square x = inr s -> nan_or_unsigned s.
Proof.
  unfold b64_square, nan_or_unsigned.
  destruct (is_nan x) eqn:Hn.
  { intros [= <-]. now rewrite (is_nan_true x Hn). }
  destruct (is_infinity x) eqn:Hi.
  { intros [= <-]. rewrite FloatAxioms.abs_spec.
    destruct (is_infinity_true x Hi) as [b ->]. exact I. }
  destruct (is_infinity (x * x)); [discriminate |].
  intros [= <-]. rewrite mul_spec. unfold SF64mul.
  destruct (Prim2SF x) as [b | b | | b m e]; cbn [SFmul].
  - now destruct b.
  - now destruct b.
  - exact I.
  - replace (xorb b b) with false by now destruct b.
    apply binary_round_aux_sign.
Qed.

Lemma add_unsigned (s t : float) :
  nan_or_unsigned s -> nan_or_unsigned t -> nan_or_unsigned (s + t).
Proof.
  unfold nan_or_unsigned. rewrite add_spec. unfold SF64add.
  destruct (Prim2SF s) as [[] | [] | | [] m1 e1]; try contradiction;
    destruct (Prim2SF t) as [[] | [] | | [] m2 e2]; try contradiction;
    intros _ _; try exact I.
  cbn [SFadd cond_Zopp].
  destruct (shl_align m1 e1 _) as [a ea], (shl_align m2 e2 _) as [b eb].
  cbn [fst]. change (Z.pos a + Z.pos b)%Z with (Z.pos (a + b)).
  cbn [binary_normalize]. unfold binary_round.
  match goal with
  | |- context [shl_align ?x ?y ?z] => destruct (shl_align x y z) as [mz ez]
  end.
  apply binary_round_aux_sign.
Qed.

(** [math.sqrt] raises nothing on such a number. *)
Lemma math_sqrt_unsigned (z : float) :
  nan_or_unsigned z -> math_1 PrimFloat.sqrt z = inr (PrimFloat.sqrt z).
Proof.
  unfold nan_or_unsigned. intros Hz.
  destruct (Prim2SF z) as [[] | [] | | [] m e] eqn:HP; try contradiction.
  - assert (z = 0%float) as -> by (apply Prim2SF_inj; rewrite HP; reflexivity).
    reflexivity.
  - assert (z = infinity) as -> by (apply Prim2SF_inj; rewrite HP; reflexivity).
    reflexivity.
  - assert (z = nan) as -> by (apply Prim2SF_inj; rewrite HP; reflexivity).
    reflexivity.
  - pose proof (Prim2SF_valid z) as Hv. rewrite HP in Hv. cbn [valid_binary] in Hv.
    pose proof (SFsqrt_finite m e Hv) as Hs.
    destruct (zero_or_finite_is_finite (PrimFloat.sqrt z)) as [H1 H2].
    { rewrite sqrt_spec, HP. exact Hs. }
    unfold math_1. now rewrite H1, H2.
Qed.

Lemma b64_square_cases (x : float) :
  b64_square x = inl OverflowError \/ exists s, b64_square x = inr s.
Proof.
  unfold b64_square.
  destruct (is_nan x); [right; eauto |].
  destruct (is_infinity x); [right; eauto |].
  destruct (is_infinity (x * x)); [now left | right; eauto].
Qed.

Variable m : libm.

(** Lines 72, 73 and 112 in binary64: the only exception is the
    [OverflowError] of a square. *)
Lemma vec_length_b64 (v : float * float) :
  @vec_length float (b64_float m) v = inl OverflowError \/
  exists L, @vec_length float (b64_float m) v = inr L.
Proof.
  unfold vec_length. cbn [fsquare fadd math_sqrt b64_float].
  destruct (b64_square_cases v.1) as [-> | [s Hs]]; [now left |].
  destruct (b64_square_cases v.2) as [Ht | [t Ht]]; rewrite Hs, Ht; [now left |].
  cbn [mbind E_bind]. right. eexists.
  apply math_sqrt_unsigned, add_unsigned; eapply b64_square_unsigned; eassumption.
Qed.

(** A length that is not below [1e-10] is not [0]. *)
Lemma long_is_nonzero (L : float) :
  PrimFloat.ltb L 0x1.b7cdfd9d7bdbbp-34 = false -> PrimFloat.eqb L 0 = false.
Proof.
  rewrite ltb_spec, FloatAxioms.eqb_spec.
  destruct (Prim2SF L) as [[] | [] | | [] m0 e0]; intros H; try reflexivity;
    discriminate.
Qed.

Lemma ltb_leb (x y : float) : PrimFloat.ltb x y = true -> PrimFloat.leb x y = true.
Proof.
  rewrite ltb_spec, leb_spec. unfold SFltb, SFleb.
  destruct (SFcompare (Prim2SF x) (Prim2SF y)) as [[] |]; congruence.
Qed.

(** The clamp of line 88 gives a number of [[-1, 1]], also for a NaN. *)
Lemma clamp_b64 (d : float) :
  let c := @py_max float (b64_float m) (-1)%float (@py_min float (b64_float m) 1%float d) in
  PrimFloat.leb (-1) c = true /\ PrimFloat.leb c 1 = true.
Proof.
  unfold py_max, py_min, fgt. cbn [flt b64_float].
  destruct (PrimFloat.ltb d 1) eqn:H1.
  - destruct (PrimFloat.ltb (-1) d) eqn:H2.
    + split; apply ltb_leb; assumption.
    + split; reflexivity.
  - split; reflexivity.
Qed.

Lemma math_1_finite (f : float -> float) (x : float) :
  is_finite (f x) = true -> math_1 f x = inr (f x).
Proof.
  unfold is_finite, math_1. intros H. apply negb_true_iff, orb_false_iff in H.
  destruct H as [-> ->]. reflexivity.
Qed.

End Binary64.

Section Binary64Corner.
Variable m : libm.
Hypothesis Hm : libm_in_range m.

Lemma b64_div_nonzero (x y : float) :
  PrimFloat.eqb y 0 = false -> b64_div x y = inr (x / y)%float.
Proof. unfold b64_div. now intros ->. Qed.

(** Lines 67-80. *)
Lemma unit_vectors_b64 (A g B : point float) :
  @unit_vectors float (b64_float m) A g B = inl OverflowError \/
  exists r, @unit_vectors float (b64_float m) A g B = inr r.
Proof.
  destruct A as [[Ax Ay] rA], g as [[gx gy] rg], B as [[Bx By] rB].
  unfold unit_vectors. cbn [fst snd fsub b64_float].
  destruct (vec_length_b64 m (gx - Ax, gy - Ay)%float) as [-> | [LA ->]]; [now left |].
  cbn [mbind E_bind].
  destruct (vec_length_b64 m (Bx - gx, By - gy)%float) as [-> | [LB ->]]; [now left |].
  cbn [mbind E_bind flt fdiv b64_float f1em10].
  destruct (PrimFloat.ltb LA _) eqn:HLA; [right; eexists; reflexivity |].
  destruct (PrimFloat.ltb LB _) eqn:HLB; [right; eexists; reflexivity |].
  cbn [orb].
  rewrite !(b64_div_nonzero _ LA (long_is_nonzero LA HLA)).
  rewrite !(b64_div_nonzero _ LB (long_is_nonzero LB HLB)).
  right. eexists. reflexivity.
Qed.

(** Lines 82-91. *)
Lemma interior_angle_b64 (u v : float * float) :
  exists a, @interior_angle_of float (b64_float m) u v = inr a /\ is_finite a = true.
Proof.
  destruct Hm as [Hacos _].
  unfold interior_angle_of. cbn [fneg fmul fadd f1 math_acos b64_float].
  set (d := (u.1 * - v.1 + u.2 * - v.2)%float).
  destruct (clamp_b64 m d) as [H1 H2].
  eexists. split; [apply math_1_finite | ]; apply Hacos; assumption.
Qed.

(** Lines 107-120. *)
Lemma bisector_b64 (u v : float * float) :
  @bisector float (b64_float m) u v = inl OverflowError \/
  exists w, @bisector float (b64_float m) u v = inr w.
Proof.
  unfold bisector.
  destruct (@bisector_sum float (b64_float m) u v) as [bx by_].
  destruct (vec_length_b64 m (bx, by_)) as [-> | [L ->]]; [now left |].
  cbn [mbind E_bind flt fdiv b64_float f1em10 f1].
  destruct (PrimFloat.ltb L _) eqn:HL.
  - rewrite !(b64_div_nonzero _ 1%float eq_refl). right. eexists. reflexivity.
  - rewrite !(b64_div_nonzero _ L (long_is_nonzero L HL)). right. eexists. reflexivity.
Qed.

(** Lines 67-128 in binary64: a corner is rounded or skipped, or a square
    overflows. *)
Lemma tangent_circle_b64 (A g B : point float) :
  @tangent_circle float (b64_float m) A g B = inl OverflowError \/
  exists r, @tangent_circle float (b64_float m) A g B = inr r.
Proof.
  unfold tangent_circle.
  destruct (unit_vectors_b64 A g B) as [-> | [[[u v] |] ->]];
    [now left | | right; eexists; reflexivity].
  cbn [mbind E_bind]. destruct g as [[gx gy] rg].
  destruct (interior_angle_b64 u v) as (a & -> & Hfin).
  cbn [mbind E_bind].
  destruct (@angle_skipped float (b64_float m) a) eqn:Hs;
    [right; eexists; reflexivity |].
  destruct Hm as [_ Hhalf].
  destruct (Hhalf a Hfin Hs) as [[Ht1 Ht2] [Hs1 Hs2]].
  cbn [fdiv f2 math_tan math_sin b64_float].
  rewrite !(b64_div_nonzero a 2%float eq_refl). cbn [mbind E_bind].
  rewrite (math_1_finite _ _ Ht1). cbn [mbind E_bind].
  rewrite (b64_div_nonzero rg _ Ht2). cbn [mbind E_bind].
  destruct (bisector_b64 u v) as [-> | [w ->]]; [now left |].
  cbn [mbind E_bind].
  rewrite (math_1_finite _ _ Hs1). cbn [mbind E_bind].
  rewrite (b64_div_nonzero rg _ Hs2). cbn [mbind E_bind].
  right. eexists. reflexivity.
Qed.

End Binary64Corner.

Section Binary64Draw.

(** In binary64 [draw] returns, or raises the [OverflowError] of a
    square. *)
Lemma draw_b64 (m : libm) (w : world float) :
  libm_in_range m ->
  (@draw float (b64_float m) w).1 = inr tt \/
  (@draw float (b64_float m) w).1 = inl OverflowError.
Proof.
  intros Hm.
  pose proof (@draw_raise float (b64_float m) (fun e => e = OverflowError) w) as H.
  destruct ((@draw float (b64_float m) w).1) as [e | []].
  - right. f_equal. apply H. intros A g B e' He'.
    destruct (tangent_circle_b64 m Hm A g B) as [H1 | [r H1]]; congruence.
  - now left.
Qed.

End Binary64Draw.

(** ** Exact arithmetic: the center on the fallback of lines 114-118 *)

Section Fallback.
Local Open Scope R_scope.

(** A length whose square is within [3e-20] of [r * r], relatively, is
    within [2e-20 * r] of [r]. *)
Lemma near_radius (D r q : R) :
  0 <= D -> 0 < r -> D * D = r * r * q -> Rabs (q - 1) <= 3e-20 ->
  Rabs (D - r) <= 2e-20 * r.
Proof.
  intros HD Hr Hsq Hq.
  assert (Hq' : -3e-20 <= q - 1 <= 3e-20).
  { unfold Rabs in Hq. destruct (Rcase_abs (q - 1)); lra. }
  clear Hq. apply Rabs_le. split.
  - destruct (Rle_dec ((1 - 2e-20) * r) D) as [H | H]; [lra |].
    apply Rnot_le_lt in H.
    assert (D * D <= (1 - 2e-20) * r * ((1 - 2e-20) * r)).
    { apply Rmult_le_compat; lra. }
    assert (r * r * q >= r * r * (1 - 3e-20)).
    { apply Rle_ge, Rmult_le_compat_l; [nra | lra]. }
    assert (0 < r * r) by nra.
    nra.
  - destruct (Rle_dec D ((1 + 2e-20) * r)) as [H | H]; [lra |].
    apply Rnot_le_lt in H.
    assert ((1 + 2e-20) * r * ((1 + 2e-20) * r) <= D * D).
    { apply Rmult_le_compat; nra. }
    assert (r * r * q <= r * r * (1 + 3e-20)).
    { apply Rmult_le_compat_l; [nra | lra]. }
    assert (0 < r * r) by nra.
    nra.
Qed.

Variables u v : R * R.
Hypothesis Hu : u.1 * u.1 + u.2 * u.2 = 1.
Hypothesis Hv : v.1 * v.1 + v.2 * v.2 = 1.

Let theta := acos (clamp (u.1 * - v.1 + u.2 * - v.2)).
Hypothesis Hth : 1e-10 <= theta <= PI - 1e-10.

Let c := cos (theta / 2).
Let s := sin (theta / 2).
Hypothesis Hshort : 2 * c < 1e-10.

Variable r : R.
Let t := r / tan (theta / 2).
Let dd := r / s.
Let x := u.1 * v.2 - u.2 * v.1.

Lemma fallback_facts :
  0 < s /\ 0 < c /\ c * c + s * s = 1 /\ t = r * c / s /\
  c * c < 2.5e-21 /\ - (2 * c) <= x <= 2 * c.
Proof.
  destruct (cs_pos u v Hth) as (Hs & Hc & Hcs). fold theta c s in Hs, Hc, Hcs.
  pose proof (t_eq u v Hth r) as Ht. fold theta c s t in Ht.
  pose proof (dot_half_angle u v Hu Hv) as Hd. fold theta c in Hd.
  pose proof (lagrange_uv u v Hu Hv) as Hl. fold x in Hl.
  assert (Hcc : c * c < 2.5e-21) by nra.
  repeat split; try assumption.
  - assert (x * x <= 2 * c * (2 * c)) by nra.
    destruct (Rle_dec (- (2 * c)) x) as [H1 | H1]; [exact H1 |].
    apply Rnot_le_lt in H1. nra.
  - assert (x * x <= 2 * c * (2 * c)) by nra.
    destruct (Rle_dec x (2 * c)) as [H1 | H1]; [exact H1 |].
    apply Rnot_le_lt in H1. nra.
Qed.

(** On the fallback of lines 114-118 the center is off the circle through
    the tangent points by less than [2e-20] of the radius. *)
Lemma fallback_center_near (gx gy : R) :
  0 < r ->
  let a := (gx - t * u.1, gy - t * u.2) in
  let b := (gx + t * v.1, gy + t * v.2) in
  let o := (gx + dd * (u.2 / 1), gy + dd * (- u.1 / 1)) in
  Rabs (dist o a - r) <= 2e-20 * r /\ Rabs (dist o b - r) <= 2e-20 * r.
Proof.
  intros Hr a b o.
  destruct fallback_facts as (Hs & Hc & Hcs & Ht & Hcc & Hx).
  assert (Hss : 1 / 2 < s * s) by nra.
  split.
  - apply (near_radius _ r ((1 + c * c) / (s * s))).
    + apply sqrt_pos.
    + exact Hr.
    + unfold dist. rewrite norm_sq. subst a o. cbn [fst snd].
      rewrite Ht. unfold dd.
      field_simplify_eq; [| lra].
      replace (u.1 ^ 2) with (1 - u.2 * u.2) by lra. ring.
    + replace ((1 + c * c) / (s * s) - 1) with (2 * (c * c) / (s * s))
        by (field_simplify_eq; [nra | lra]).
      assert (0 <= 2 * (c * c) / (s * s)).
      { apply Rmult_le_pos; [nra |]. left. apply Rinv_0_lt_compat. lra. }
      rewrite Rabs_pos_eq by assumption.
      apply (Rmult_le_reg_r (s * s)); [lra |].
      replace (2 * (c * c) / (s * s) * (s * s)) with (2 * (c * c)) by (field; lra).
      nra.
  - apply (near_radius _ r ((1 + c * c + 2 * c * x) / (s * s))).
    + apply sqrt_pos.
    + exact Hr.
    + unfold dist. rewrite norm_sq. subst b o. cbn [fst snd].
      rewrite Ht. unfold dd, x.
      field_simplify_eq; [| lra].
      replace (u.1 ^ 2) with (1 - u.2 * u.2) by lra.
      replace (v.1 ^ 2) with (1 - v.2 * v.2) by lra. ring.
    + replace ((1 + c * c + 2 * c * x) / (s * s) - 1)
        with ((2 * (c * c) + 2 * c * x) / (s * s))
        by (field_simplify_eq; [nra | lra]).
      apply Rabs_le.
      assert (Hnum : - (6 * (c * c)) <= 2 * (c * c) + 2 * c * x <= 6 * (c * c)) by nra.
      split.
      * apply (Rmult_le_reg_r (s * s)); [lra |].
        replace ((2 * (c * c) + 2 * c * x) / (s * s) * (s * s))
          with (2 * (c * c) + 2 * c * x) by (field; lra).
        nra.
      * apply (Rmult_le_reg_r (s * s)); [lra |].
        replace ((2 * (c * c) + 2 * c * x) / (s * s) * (s * s))
          with (2 * (c * c) + 2 * c * x) by (field; lra).
        nra.
Qed.

End Fallback.

(** ** Claims on the geometry of a corner *)

Section CornerClaims.
Local Open Scope R_scope.

(** A corner that is rounded passed both tests, and its tangent points
    and center are the ones of lines 98-128. *)
Lemma tangent_circle_Some (A g B : point R) (k : corner R) :
  tangent_circle A g B = inr (Some k) ->
  let u := unit_dir A g in
  let v := unit_dir g B in
  let theta := angle_at A g B in
  let t := pr g / tan (theta / 2) in
  let d := pr g / sin (theta / 2) in
  1e-10 <= seg_length A g /\ 1e-10 <= seg_length g B /\
  1e-10 <= theta <= PI - 1e-10 /\
  bisector u v = inr (bisector_unit k) /\
  tangent_a k = (px g - t * u.1, py g - t * u.2) /\
  tangent_b k = (px g + t * v.1, py g + t * v.2) /\
  center k = (px g + d * (bisector_unit k).1, py g + d * (bisector_unit k).2).
Proof.
  intros Hk. cbv zeta.
  destruct (Rlt_dec (seg_length A g) 1e-10) as [H1 | H1];
    [rewrite tangent_circle_skip in Hk by auto; discriminate |].
  destruct (Rlt_dec (seg_length g B) 1e-10) as [H2 | H2];
    [rewrite tangent_circle_skip in Hk by auto; discriminate |].
  destruct (angle_skipped (angle_at A g B)) eqn:Hs.
  { apply angle_skipped_R_true in Hs.
    rewrite tangent_circle_skip in Hk by tauto. discriminate. }
  pose proof (bisector_R (unit_dir A g) (unit_dir g B)) as Hw. cbv zeta in Hw.
  rewrite (tangent_circle_R A g B _ _ _ _
             (unit_vectors_long A g B ltac:(lra) ltac:(lra))
             (interior_angle_dirs A g B) Hs Hw) in Hk.
  injection Hk as <-. cbn [tangent_a tangent_b center bisector_unit].
  apply angle_skipped_R in Hs.
  repeat split; try lra; auto.
Qed.

(** C1 (amended).  In exact arithmetic, for three points with both
    segments at least [1e-10] long, an interior angle [theta] outside the
    skip bands and a radius [r > 0] whose tangent distance
    [t = r / tan (theta / 2)] is below both segment lengths: the corner is
    rounded, its tangent points lie on the two segments at the distance
    [t] from [g], and the center is
    [g + (r / sin (theta / 2)) * bisector_unit].  When the bisector sum is
    at least [1e-10] long the bisector is the normalised sum and the
    center is at the distance [r] from both tangent points; when it is
    shorter, lines 114-118 take [(Ag_unit.y, -Ag_unit.x)] instead.  In both
    cases the distance from the center to each tangent point is within
    [2e-20 * r] of [r]. *)
Theorem tangent_circle_correct (A g B : point R) :
  let r := pr g in
  let theta := angle_at A g B in
  let t := r / tan (theta / 2) in
  let u := unit_dir A g in
  let v := unit_dir g B in
  1e-10 <= seg_length A g ->
  1e-10 <= seg_length g B ->
  1e-10 <= theta <= PI - 1e-10 ->
  0 < r ->
  t < Rmin (seg_length A g) (seg_length g B) ->
  exists k,
    tangent_circle A g B = inr (Some k) /\
    tangent_a k = (px g - t * u.1, py g - t * u.2) /\
    tangent_b k = (px g + t * v.1, py g + t * v.2) /\
    dist (tangent_a k) (pos g) = t /\
    dist (tangent_b k) (pos g) = t /\
    on_segment (tangent_a k) (pos A) (pos g) /\
    on_segment (tangent_b k) (pos g) (pos B) /\
    center k = (px g + r / sin (theta / 2) * (bisector_unit k).1,
                py g + r / sin (theta / 2) * (bisector_unit k).2) /\
    (1e-10 <= norm (bisector_sum u v) ->
     bisector_unit k = ((bisector_sum u v).1 / norm (bisector_sum u v),
                        (bisector_sum u v).2 / norm (bisector_sum u v)) /\
     dist (center k) (tangent_a k) = r /\
     dist (center k) (tangent_b k) = r) /\
    (norm (bisector_sum u v) < 1e-10 -> bisector_unit k = (u.2 / 1, - u.1 / 1)) /\
    Rabs (dist (center k) (tangent_a k) - r) <= 2e-20 * r /\
    Rabs (dist (center k) (tangent_b k) - r) <= 2e-20 * r /\
    forall s : Vsketch R,
      let angles := arc_angles (tangent_a k) (tangent_b k) (center k) in
      draw (mkWorld (mkSet [A; g; B] false) s) =
        (inr tt,
         mkWorld (mkSet [A; ((tangent_b k).1, (tangent_b k).2, r); B] false)
                 (play [Line (px A) (py A) (tangent_a k).1 (tangent_a k).2;
                        Arc (center k).1 (center k).2 (2 * r) (- (2) * r)
                            angles.1 angles.2;
                        Line (tangent_b k).1 (tangent_b k).2 (px B) (py B)] s)).
Proof.
  intros r theta t u v HA HB Hth Hr Ht.
  assert (Hu : u.1 * u.1 + u.2 * u.2 = 1) by (apply unit_dir_unit; lra).
  assert (Hv : v.1 * v.1 + v.2 * v.2 = 1) by (apply unit_dir_unit; lra).
  destruct (half_angle_pos theta Hth) as (Hs & Hc & Htan).
  assert (Htpos : 0 < t) by (apply Rdiv_lt_0_compat; assumption).
  pose proof (bisector_sum_norm u v Hu Hv) as Hn. fold (angle_at A g B) in Hn.
  fold theta in Hn.
  pose proof (bisector_R u v) as Hw. cbv zeta in Hw.
  pose proof (tangent_circle_R A g B u v _ theta
                (unit_vectors_long A g B HA HB) (interior_angle_dirs A g B)
                (proj2 (angle_skipped_R theta) Hth) Hw) as Hk.
  cbv zeta in Hk. fold r t in Hk.
  eexists; split; [exact Hk |]. cbn [tangent_a tangent_b center bisector_unit].
  split; [reflexivity |]. split; [reflexivity |].
  split.
  { unfold dist, pos; cbn [fst snd].
    replace (px g - t * u.1 - px g) with (- t * u.1) by ring.
    replace (py g - t * u.2 - py g) with (- t * u.2) by ring.
    apply norm_eq; [lra |]. cbn [fst snd]. nra. }
  split.
  { unfold dist, pos; cbn [fst snd].
    replace (px g + t * v.1 - px g) with (t * v.1) by ring.
    replace (py g + t * v.2 - py g) with (t * v.2) by ring.
    apply norm_scale; [exact Hv | lra]. }
  split.
  { exists (1 - t / seg_length A g). split.
    - assert (t / seg_length A g < 1).
      { apply div_lt_1; [lra |].
        pose proof (Rmin_l (seg_length A g) (seg_length g B)). lra. }
      assert (0 < t / seg_length A g) by (apply Rdiv_lt_0_compat; lra).
      lra.
    - unfold u, pos, unit_dir; cbn [fst snd]. f_equal; field; lra. }
  split.
  { exists (t / seg_length g B). split.
    - assert (t / seg_length g B < 1).
      { apply div_lt_1; [lra |].
        pose proof (Rmin_r (seg_length A g) (seg_length g B)). lra. }
      assert (0 < t / seg_length g B) by (apply Rdiv_lt_0_compat; lra).
      lra.
    - unfold v, pos, unit_dir; cbn [fst snd]. f_equal; field; lra. }
  split; [reflexivity |].
  assert (Hlong : 1e-10 <= norm (bisector_sum u v) ->
    (if Rltb (norm (bisector_sum u v)) 1e-10
     then (u.2 / 1, - u.1 / 1)
     else ((bisector_sum u v).1 / norm (bisector_sum u v),
           (bisector_sum u v).2 / norm (bisector_sum u v)))
    = ((bisector_sum u v).1 / norm (bisector_sum u v),
       (bisector_sum u v).2 / norm (bisector_sum u v))).
  { intros H. apply Rltb_false in H. now rewrite H. }
  assert (Hshort : norm (bisector_sum u v) < 1e-10 ->
    (if Rltb (norm (bisector_sum u v)) 1e-10
     then (u.2 / 1, - u.1 / 1)
     else ((bisector_sum u v).1 / norm (bisector_sum u v),
           (bisector_sum u v).2 / norm (bisector_sum u v)))
    = (u.2 / 1, - u.1 / 1)).
  { intros H. apply Rltb_true in H. now rewrite H. }
  assert (Hexact : 1e-10 <= norm (bisector_sum u v) ->
    dist (px g + r / sin (theta / 2) * ((bisector_sum u v).1 / norm (bisector_sum u v)),
          py g + r / sin (theta / 2) * ((bisector_sum u v).2 / norm (bisector_sum u v)))
         (px g - t * u.1, py g - t * u.2) = r /\
    dist (px g + r / sin (theta / 2) * ((bisector_sum u v).1 / norm (bisector_sum u v)),
          py g + r / sin (theta / 2) * ((bisector_sum u v).2 / norm (bisector_sum u v)))
         (px g + t * v.1, py g + t * v.2) = r).
  { intros _. split.
    - rewrite Hn. unfold dist. apply norm_eq; [lra |].
      apply (center_to_a u v Hu Hv Hth r (px g) (py g)).
    - rewrite Hn. unfold dist. apply norm_eq; [lra |].
      apply (center_to_b u v Hu Hv Hth r (px g) (py g)). }
  split.
  { intros H. rewrite (Hlong H). cbn [fst snd]. split; [reflexivity |].
    exact (Hexact H). }
  split; [exact Hshort |].
  assert (Hnear :
    Rabs (dist (px g + r / sin (theta / 2) *
                  (if Rltb (norm (bisector_sum u v)) 1e-10
                   then (u.2 / 1, - u.1 / 1)
                   else ((bisector_sum u v).1 / norm (bisector_sum u v),
                         (bisector_sum u v).2 / norm (bisector_sum u v))).1,
                py g + r / sin (theta / 2) *
                  (if Rltb (norm (bisector_sum u v)) 1e-10
                   then (u.2 / 1, - u.1 / 1)
                   else ((bisector_sum u v).1 / norm (bisector_sum u v),
                         (bisector_sum u v).2 / norm (bisector_sum u v))).2)
               (px g - t * u.1, py g - t * u.2) - r) <= 2e-20 * r /\
    Rabs (dist (px g + r / sin (theta / 2) *
                  (if Rltb (norm (bisector_sum u v)) 1e-10
                   then (u.2 / 1, - u.1 / 1)
                   else ((bisector_sum u v).1 / norm (bisector_sum u v),
                         (bisector_sum u v).2 / norm (bisector_sum u v))).1,
                py g + r / sin (theta / 2) *
                  (if Rltb (norm (bisector_sum u v)) 1e-10
                   then (u.2 / 1, - u.1 / 1)
                   else ((bisector_sum u v).1 / norm (bisector_sum u v),
                         (bisector_sum u v).2 / norm (bisector_sum u v))).2)
               (px g + t * v.1, py g + t * v.2) - r) <= 2e-20 * r).
  { destruct (Rlt_dec (norm (bisector_sum u v)) 1e-10) as [H | H].
    - rewrite (Hshort H). cbn [fst snd].
      apply (fallback_center_near u v Hu Hv Hth ltac:(fold theta; lra) r (px g) (py g) Hr).
    - apply Rnot_lt_le in H. rewrite (Hlong H). cbn [fst snd].
      destruct (Hexact H) as [-> ->].
      replace (r - r) with 0 by ring. rewrite Rabs_R0. split; lra. }
  split; [exact (proj1 Hnear) |]. split; [exact (proj2 Hnear) |].
  intros s.
  etransitivity; [exact (draw_single_corner A g B _ s Hk) |].
  unfold path_of_corner. cbn [tangent_a tangent_b center].
  destruct (arc_angles _ _ _) as [sa ea]. reflexivity.
Qed.

(** C1 holds at the right angle with the radius [2]. *)
Lemma tangent_circle_correct_witness :
  let A : point R := (0, 0, 0) in
  let g : point R := (10, 0, 2) in
  let B : point R := (10, 10, 0) in
  exists k,
    tangent_circle A g B = inr (Some k) /\
    dist (tangent_a k) (pos g) = 2 / tan (angle_at A g B / 2) /\
    dist (tangent_b k) (pos g) = 2 / tan (angle_at A g B / 2) /\
    dist (center k) (tangent_a k) = 2 /\
    dist (center k) (tangent_b k) = 2.
Proof.
  cbv zeta.
  destruct (right_angle_lengths 0 2 0) as [HL1 HL2].
  pose proof (right_angle_angle 0 2 0) as Ha.
  pose proof (right_angle_bisector 0 2 0) as Hb.
  pose proof sqrt2_pos as Hs.
  destruct (tangent_circle_correct (0, 0, 0) (10, 0, 2) (10, 10, 0))
    as (k & Hk & _ & _ & Hda & Hdb & _ & _ & _ & Hlong & _).
  - lra.
  - lra.
  - rewrite Ha. apply right_angle_in_range.
  - unfold pr; cbn [snd]. lra.
  - rewrite Ha, HL1, HL2. unfold pr; cbn [snd].
    replace (PI / 2 / 2) with (PI / 4) by field. rewrite tan_PI4.
    unfold Rmin. destruct (Rle_dec 10 10); lra.
  - destruct Hlong as (_ & Hca & Hcb); [rewrite Hb; lra |].
    exists k. unfold pr in *; cbn [snd] in *. auto.
Defined.

(** In exact arithmetic the center is not exactly on the circle on the
    fallback: the interior angle [PI - 1e-10] passes the test of line 94,
    the bisector sum is shorter than [1e-10], and the center placed along
    the fallback direction is not at the distance [r] from the tangent
    point. *)
Lemma fallback_center_off_circle :
  let A : point R := (-1, 0, 0) in
  let g : point R := (0, 0, 1) in
  let B : point R := (cos 1e-10, sin 1e-10, 0) in
  let theta := angle_at A g B in
  (1e-10 <= seg_length A g /\ 1e-10 <= seg_length g B /\
   1e-10 <= theta <= PI - 1e-10 /\ 0 < pr g /\
   pr g / tan (theta / 2) < Rmin (seg_length A g) (seg_length g B)) /\
  exists k,
    tangent_circle A g B = inr (Some k) /\
    dist (center k) (tangent_a k) <> pr g.
Proof.
  cbv zeta.
  destruct (boundary_lengths 1) as [HL1 HL2].
  pose proof (boundary_in_range 1) as Hr.
  pose proof (boundary_tangent_distance 1 ltac:(lra)) as Ht.
  pose proof (boundary_center_distance 1 ltac:(lra)) as Hd.
  split.
  - rewrite HL1, HL2. unfold pr; cbn [snd]. rewrite (boundary_angle 1) in *.
    repeat split; try lra.
    unfold Rmin. destruct (Rle_dec 1 1); lra.
  - eexists. split; [apply boundary_corner |].
    cbn [center tangent_a]. unfold pr; cbn [snd].
    set (t := 1 / tan ((PI - 1e-10) / 2)) in *.
    set (d := 1 / sin ((PI - 1e-10) / 2)) in *.
    intros Hn. unfold dist in Hn. cbn [fst snd] in Hn.
    pose proof (norm_sq (0 + d * (0 / 1) - (0 - t * 1), 0 + d * (- (1) / 1) - (0 - t * 0)))
      as Hsq.
    rewrite Hn in Hsq. cbn [fst snd] in Hsq. nra.
Qed.

(** C8 (amended).  In exact arithmetic, on a window that passes both
    tests the bisector sum has the length [2 cos (theta / 2)], which is
    positive; it is at least [1e-10], and the bisector is the normalised
    sum, exactly when [theta <= 2 acos 5e-11]: the fallback of lines
    114-118 is taken for the angles above, up to [PI - 1e-10]. *)
Theorem bisector_fallback_threshold (A g B : point R) :
  let u := unit_dir A g in
  let v := unit_dir g B in
  let theta := angle_at A g B in
  let L := norm (bisector_sum u v) in
  1e-10 <= seg_length A g ->
  1e-10 <= seg_length g B ->
  1e-10 <= theta <= PI - 1e-10 ->
  (unit_vectors A g B = inr (Some (u, v)) /\
   interior_angle_of u v = inr theta /\
   angle_skipped theta = false /\
   vec_length (bisector_sum u v) = inr L) /\
  L = 2 * cos (theta / 2) /\ 0 < L /\
  (1e-10 <= L <-> theta <= 2 * acos 5e-11) /\
  (1e-10 <= L ->
   bisector u v = inr ((bisector_sum u v).1 / L, (bisector_sum u v).2 / L)).
Proof.
  intros u v theta L HA HB Hth.
  split.
  { split; [apply unit_vectors_long; assumption |].
    split; [apply interior_angle_dirs |].
    split; [apply angle_skipped_R; assumption | apply vec_length_R]. }
  assert (Hu : u.1 * u.1 + u.2 * u.2 = 1) by (apply unit_dir_unit; lra).
  assert (Hv : v.1 * v.1 + v.2 * v.2 = 1) by (apply unit_dir_unit; lra).
  destruct (half_angle_pos theta Hth) as (Hs & Hc & _).
  assert (HL : L = 2 * cos (theta / 2)) by apply (bisector_sum_norm u v Hu Hv).
  pose proof (acos_bound 5e-11) as Hab.
  assert (Hca : cos (acos 5e-11) = 5e-11) by (apply cos_acos; lra).
  pose proof PI_RGT_0 as Hpi.
  split; [exact HL |]. split; [lra |]. split.
  - rewrite HL. split; intros H.
    + assert (theta / 2 <= acos 5e-11); [| lra].
      apply cos_decr_0; lra.
    + assert (cos (acos 5e-11) <= cos (theta / 2)); [| lra].
      apply cos_decr_1; lra.
  - intros H. rewrite bisector_R. cbv zeta. fold u v L.
    apply Rltb_false in H. now rewrite H.
Qed.

(** C8 holds at the right angle. *)
Lemma bisector_fallback_threshold_witness :
  let A : point R := (0, 0, 0) in
  let g : point R := (10, 0, 2) in
  let B : point R := (10, 10, 0) in
  norm (bisector_sum (unit_dir A g) (unit_dir g B)) = 2 * cos (angle_at A g B / 2) /\
  0 < norm (bisector_sum (unit_dir A g) (unit_dir g B)).
Proof.
  cbv zeta.
  destruct (right_angle_lengths 0 2 0) as [HL1 HL2].
  pose proof (right_angle_angle 0 2 0) as Ha.
  destruct (bisector_fallback_threshold (0, 0, 0) (10, 0, 2) (10, 10, 0))
    as (_ & H1 & H2 & _).
  - lra.
  - lra.
  - rewrite Ha. apply right_angle_in_range.
  - split; assumption.
Defined.

(** In exact arithmetic the fallback is reached on the edge of the skip
    band: every test is passed, the bisector sum is shorter than [1e-10],
    and lines 114-118 replace it by [(Ag_unit.y, -Ag_unit.x)]. *)
Lemma bisector_fallback_reached :
  let A : point R := (-1, 0, 0) in
  let g : point R := (0, 0, 1) in
  let B : point R := (cos 1e-10, sin 1e-10, 0) in
  let u := unit_dir A g in
  let v := unit_dir g B in
  (1e-10 <= seg_length A g /\ 1e-10 <= seg_length g B /\
   1e-10 <= angle_at A g B <= PI - 1e-10) /\
  (unit_vectors A g B = inr (Some (u, v)) /\
   interior_angle_of u v = inr (PI - 1e-10) /\
   angle_skipped (PI - 1e-10) = false /\
   vec_length (bisector_sum u v) = inr (norm (bisector_sum u v))) /\
  norm (bisector_sum u v) < 1e-10 /\
  bisector u v = inr (u.2 / 1, - u.1 / 1).
Proof.
  cbv zeta.
  destruct (boundary_lengths 1) as [HL1 HL2].
  pose proof (boundary_in_range 1) as Hr.
  split; [rewrite HL1, HL2; repeat split; lra |].
  split.
  { split; [apply unit_vectors_long; lra |].
    split; [rewrite interior_angle_dirs, (boundary_angle 1); reflexivity |].
    split; [| apply vec_length_R].
    apply angle_skipped_R. pose proof PI2_1. lra. }
  split; [apply boundary_bisector_short |].
  rewrite boundary_bisector. destruct (boundary_dirs 1) as [-> _]. reflexivity.
Qed.

(** The arc of a rounded corner with a radius that is not [0] is not a
    point. *)
Lemma rounded_arc_not_a_point (A g B : point R) (k : corner R) :
  tangent_circle A g B = inr (Some k) -> pr g <> 0 ->
  let angles := arc_angles (tangent_a k) (tangent_b k) (center k) in
  0 < Rabs (angles.2 - angles.1).
Proof.
  intros Hk Hr. cbv zeta. apply arc_angles_distinct.
  destruct (tangent_circle_Some A g B k Hk)
    as (HA & HB & Hth & Hw & -> & -> & ->).
  unfold angle_at in *. cbv zeta in *.
  set (u := unit_dir A g) in *. set (v := unit_dir g B) in *.
  assert (Hu : u.1 * u.1 + u.2 * u.2 = 1) by (apply unit_dir_unit; lra).
  assert (Hv : v.1 * v.1 + v.2 * v.2 = 1) by (apply unit_dir_unit; lra).
  pose proof (bisector_sum_norm u v Hu Hv) as Hn.
  rewrite bisector_R in Hw. cbv zeta in Hw.
  destruct (Rltb (norm (bisector_sum u v)) 1e-10) eqn:Hshort;
    injection Hw as <-.
  + apply Rltb_true in Hshort. rewrite Hn in Hshort.
    apply (cross_z_fallback u v Hu Hv Hth (pr g) (px g) (py g) Hshort Hr).
  + rewrite Hn.
    pose proof (cross_z_bisector u v Hth (pr g) (px g) (py g)) as Hx.
    cbv zeta in Hx.
    match goal with
    | |- ?X <> 0 =>
        replace X with (pr g * pr g * (u.1 * v.2 - u.2 * v.1))
          by (symmetry; exact Hx)
    end.
    pose proof (cross_uv_nonzero u v Hu Hv Hth).
    apply Rmult_integral_contrapositive_currified; [nra | assumption].
Qed.

(** With the radius [0] both angles are [atan2 (0, 0) = 0]. *)
Lemma zero_radius_arc_angles (A g B : point R) (k : corner R) :
  tangent_circle A g B = inr (Some k) -> pr g = 0 ->
  arc_angles (tangent_a k) (tangent_b k) (center k) = (0, 0).
Proof.
  intros Hk Hr.
  destruct (tangent_circle_Some A g B k Hk)
    as (_ & _ & _ & _ & -> & -> & ->).
  rewrite Hr. unfold Rdiv. rewrite !Rmult_0_l.
  rewrite arc_angles_R. cbv zeta. cbn [fst snd].
  replace (px g - 0 - (px g + 0)) with 0 by ring.
  replace (py g - 0 - (py g + 0)) with 0 by ring.
  replace (px g + 0 - (px g + 0)) with 0 by ring.
  replace (py g + 0 - (py g + 0)) with 0 by ring.
  rewrite atan2_origin.
  replace (0 * 0 - 0 * 0) with 0 by ring.
  assert (Hc : Rltb 0 0 = false) by (apply Rltb_false; lra).
  rewrite Hc. replace (0 - 0) with 0 by ring. rewrite Rabs_R0.
  assert (Hp : Rltb PI 0 = false) by (apply Rltb_false; pose proof PI_RGT_0; lra).
  now rewrite Hp.
Qed.

(** C3 (amended).  In exact arithmetic, for every corner that is rounded,
    the two angles handed to [vsk.arc] differ by at most [PI], so the
    reflex arc is never asked for; they differ, so the arc is not a point,
    when the radius is not [0]; they are both [0] when the radius is
    [0]. *)
Theorem arc_is_minor (A g B : point R) (k : corner R) :
  tangent_circle A g B = inr (Some k) ->
  let angles := arc_angles (tangent_a k) (tangent_b k) (center k) in
  (forall last, exists rest,
     path_of_corner last A g B k =
       Line (px A) (py A) (tangent_a k).1 (tangent_a k).2
       :: Arc (center k).1 (center k).2 (2 * pr g) (- (2) * pr g) angles.1 angles.2
       :: rest) /\
  Rabs (angles.2 - angles.1) <= PI /\
  (pr g <> 0 -> 0 < Rabs (angles.2 - angles.1)) /\
  (pr g = 0 -> angles = (0, 0)).
Proof.
  intros Hk angles. split; [| split; [| split]].
  - intros last. unfold path_of_corner. fold angles.
    destruct angles as [sa ea]. eexists. reflexivity.
  - apply arc_angles_within_pi.
  - intros Hr. exact (rounded_arc_not_a_point A g B k Hk Hr).
  - intros Hr. exact (zero_radius_arc_angles A g B k Hk Hr).
Qed.

(** C3 holds at the right angle with the radius [2]: a quarter turn. *)
Lemma arc_is_minor_witness :
  let A : point R := (0, 0, 0) in
  let g : point R := (10, 0, 2) in
  let B : point R := (10, 10, 0) in
  let k := mkCorner (10 - 2, 0) (10, 2) (10 - 2, 2) (- / sqrt 2, / sqrt 2) in
  let angles := arc_angles (tangent_a k) (tangent_b k) (center k) in
  tangent_circle A g B = inr (Some k) /\
  Rabs (angles.2 - angles.1) <= PI /\ 0 < Rabs (angles.2 - angles.1).
Proof.
  cbv zeta. split; [apply right_angle_corner |].
  destruct (arc_is_minor (0, 0, 0) (10, 0, 2) (10, 10, 0) _ (right_angle_corner 0 2 0))
    as (_ & H1 & H2 & _).
  split; [exact H1 | apply H2]. unfold pr; cbn [snd]. lra.
Defined.

End CornerClaims.

(** ** Claims on [draw] *)

Section DrawClaims.
Local Open Scope R_scope.

(** C6 (amended).  The computations of [draw] raise nothing but the
    [OverflowError] of a square.  In exact arithmetic nothing is raised,
    for any point list, any flag and any radius, so that every window is
    processed: an interior angle that passes the test of line 94 lies
    strictly between [0] and [PI], where the tangent and the sine of its
    half are not [0].  In binary64, with a libm in range
    ([libm_in_range]), [draw] returns or raises [OverflowError].  The
    sketch is taken to accept every call; the arc it is handed at a
    rounded corner has equal angles, in exact arithmetic, exactly when the
    radius is [0]. *)
Theorem draw_never_raises :
  (forall w : world R, (draw w).1 = inr tt) /\
  (forall theta : R,
     angle_skipped theta = false ->
     0 < theta < PI /\
     math_tan (theta / 2) = inr (tan (theta / 2)) /\
     tan (theta / 2) <> 0 /\ sin (theta / 2) <> 0) /\
  (forall (A g B : point R) (k : corner R),
     tangent_circle A g B = inr (Some k) ->
     let angles := arc_angles (tangent_a k) (tangent_b k) (center k) in
     angles.1 = angles.2 <-> pr g = 0) /\
  (forall (m : libm) (w : world float),
     libm_in_range m ->
     (@draw float (b64_float m) w).1 = inr tt \/
     (@draw float (b64_float m) w).1 = inl OverflowError).
Proof.
  split; [| split; [| split]].
  - intros w. rewrite draw_spec. unfold draw_trace.
    destruct (decide _) as [Hlt | Hge]; [reflexivity |].
    pose proof (windows_ok (length (points (self w))) (debug (self w))
                  (length (points (self w)) - 2) tangent_circle_total
                  0%nat (points (self w)) ltac:(lia)) as Hok.
    destruct (windows _ _ _ _) as [[res pts'] cs]. exact Hok.
  - intros theta Hs. apply angle_skipped_R in Hs.
    destruct (half_angle_pos theta Hs) as (H1 & H2 & H3).
    pose proof PI_RGT_0.
    repeat split; try lra.
    rsimpl. destruct (Req_dec_T (cos (theta / 2)) 0); [lra | reflexivity].
  - intros A g B k Hk angles. split.
    + intros Heq. destruct (Req_dec (pr g) 0) as [H0 | Hne]; [exact H0 |].
      pose proof (rounded_arc_not_a_point A g B k Hk Hne) as Hpos.
      cbv zeta in Hpos. fold angles in Hpos. rewrite Heq in Hpos.
      replace (angles.2 - angles.2) with 0 in Hpos by ring.
      rewrite Rabs_R0 in Hpos. lra.
    + intros H0. unfold angles. now rewrite (zero_radius_arc_angles A g B k Hk H0).
  - intros m w Hm. now apply draw_b64.
Qed.

(** C5 (amended).  In every arithmetic: with fewer than three points
    [draw] raises nothing and makes no call but the debug markers; a
    window that the code finds degenerate ([degenerate_window]: both
    lengths are computed and one is below [1e-10], or the unit vectors
    and the interior angle are computed and the angle is outside
    [[1e-10, pi - 1e-10]]) raises nothing, makes no call but the debug
    reference lines, leaves the points as they are, and the loop goes on
    with the next window.  In exact arithmetic the same holds of a window
    with a segment shorter than [1e-10] or an interior angle within
    [1e-10] of [0] or of [PI]. *)
Theorem degenerate_inputs_skipped :
  (forall (F : Type) (PF : PyFloat F) (w : world F),
     (length (points (self w)) < 3)%nat ->
     let cs := if debug (self w) then marker_calls (points (self w)) else [] in
     draw w = (inr tt, mkWorld (self w) (play cs (vsk w))) /\
     path_calls false cs = [] /\
     Forall (fun c => match c with
                      | Line _ _ _ _ | Arc _ _ _ _ _ _ => False
                      | _ => True
                      end) cs) /\
  (forall (F : Type) (PF : PyFloat F) (w : world F) (i : nat) (A g B : point F),
     points (self w) !! i = Some A ->
     points (self w) !! S i = Some g ->
     points (self w) !! S (S i) = Some B ->
     degenerate_window A g B ->
     let cs := if debug (self w) then reference_calls A g B else [] in
     draw_window i w = (inr tt, mkWorld (self w) (play cs (vsk w))) /\
     path_calls false cs = [] /\
     forall idx,
       for_each (i :: idx) draw_window w =
       for_each idx draw_window (mkWorld (self w) (play cs (vsk w)))) /\
  (forall (w : world R) (i : nat) (A g B : point R),
     points (self w) !! i = Some A ->
     points (self w) !! S i = Some g ->
     points (self w) !! S (S i) = Some B ->
     seg_length A g < 1e-10 \/ seg_length g B < 1e-10 \/
     angle_at A g B < 1e-10 \/ PI - 1e-10 < angle_at A g B ->
     let cs := if debug (self w) then reference_calls A g B else [] in
     draw_window i w = (inr tt, mkWorld (self w) (play cs (vsk w))) /\
     path_calls false cs = [] /\
     forall idx,
       for_each (i :: idx) draw_window w =
       for_each idx draw_window (mkWorld (self w) (play cs (vsk w)))).
Proof.
  split; [| split].
  - intros F PF w. apply few_points.
  - intros F PF w i A g B HA Hg HB Hdeg.
    apply (skipped_window w i A g B HA Hg HB).
    now apply degenerate_window_skip.
  - intros w i A g B HA Hg HB Hdeg.
    apply (skipped_window w i A g B HA Hg HB).
    now apply tangent_circle_skip.
Qed.

(** The run of [draw] on the right angle with the radius [2], [debug]
    unset. *)
Lemma right_angle_run (v : Vsketch R) :
  draw (mkWorld (mkSet [(0, 0, 0); (10, 0, 2); (10, 10, 0)] false) v) =
    (inr tt,
     mkWorld (mkSet [(0, 0, 0); (10, 2, 2); (10, 10, 0)] false)
             (play [Line 0 0 8 0; Arc 8 2 4 (- 4) (- (PI / 2)) 0; Line 10 2 10 10] v)).
Proof.
  etransitivity;
    [exact (draw_single_corner (0, 0, 0) (10, 0, 2) (10, 10, 0) _ v
              (right_angle_corner 0 2 0)) |].
  unfold path_of_corner. cbn [tangent_a tangent_b center fst snd].
  rewrite (right_angle_arc 2 ltac:(lra)).
  unfold px, py, pr; cbn [fst snd app]. rsimpl.
  replace (10 - 2) with 8 by lra.
  replace (2 * 2) with 4 by lra.
  replace (- (2) * 2) with (- 4) by lra.
  reflexivity.
Qed.

(** C2 (amended). On [[(0,0,0), (10,0,2), (10,10,0)]] with [debug] unset,
    [draw] makes exactly three calls: the line from [(0,0)] to [(8,0)];
    the arc of radius [2] and center [(8,2)], a quarter turn from
    [-PI/2] to [0]; the line from [(10,2)] to [(10,10)].  The tangent
    points [(8,0)] and [(10,2)] are at the distance [2 / tan (PI/4) = 2]
    from the corner, and the center is at the distance
    [2 / sin (PI/4) = 2 sqrt 2] from it, along the bisector, and at the
    distance [2] from both tangent points. *)
Theorem draw_right_angle (v : Vsketch R) :
  draw (mkWorld (mkSet [(0, 0, 0); (10, 0, 2); (10, 10, 0)] false) v) =
    (inr tt,
     mkWorld (mkSet [(0, 0, 0); (10, 2, 2); (10, 10, 0)] false)
             (mkVsketch (cur_stroke v)
                (calls v ++ [Line 0 0 8 0;
                             Arc 8 2 4 (- 4) (- (PI / 2)) 0;
                             Line 10 2 10 10]))) /\
  2 / tan (PI / 4) = 2 /\
  dist (8, 0) (10, 0) = 2 /\ dist (10, 2) (10, 0) = 2 /\
  2 / sin (PI / 4) = 2 * sqrt 2 /\
  dist (8, 2) (10, 0) = 2 * sqrt 2 /\
  (8, 2) = (10 + 2 * sqrt 2 * (- / sqrt 2), 0 + 2 * sqrt 2 * (/ sqrt 2)) /\
  dist (8, 2) (8, 0) = 2 /\ dist (8, 2) (10, 2) = 2 /\
  0 - - (PI / 2) = PI / 2.
Proof.
  pose proof sqrt2_pos as Hs. pose proof sqrt2_sq as Hq.
  split.
  { rewrite right_angle_run.
    destruct v as [st cs]. unfold play, emit; cbn [fold_left play1 cur_stroke calls].
    unfold emit; cbn [cur_stroke calls].
    rewrite <- !app_assoc. reflexivity. }
  split; [rewrite tan_PI4; lra |].
  split; [apply norm_eq; cbn [fst snd]; lra |].
  split; [apply norm_eq; cbn [fst snd]; lra |].
  split; [rewrite sin_PI4; field; lra |].
  split; [apply norm_eq; cbn [fst snd]; nra |].
  split; [f_equal; field; lra |].
  split; [apply norm_eq; cbn [fst snd]; lra |].
  split; [apply norm_eq; cbn [fst snd]; lra |].
  lra.
Qed.

(** C2 as stated fails: the arc that [draw] makes on this input is not
    centered at [(8, 8)]. *)
Lemma right_angle_center_not_8_8 :
  ~ exists w h start stop : R,
      In (Arc 8 8 w h start stop)
         (calls (vsk (draw (mkWorld (mkSet [(0, 0, 0); (10, 0, 2); (10, 10, 0)] false)
                                    (mkVsketch 1 []))).2)).
Proof.
  intros (w & h & sa & ea & Hin).
  rewrite right_angle_run in Hin.
  unfold play in Hin; cbn [snd vsk fold_left play1 emit cur_stroke calls app] in Hin.
  cbn [In] in Hin.
  destruct Hin as [H | [H | [H | []]]]; try discriminate.
  injection H; intros; lra.
Qed.

End DrawClaims.

(** ** Concrete runs *)

Section Runs.
Local Open Scope R_scope.

(** C4 holds on the first window of a square path. *)
Lemma window_chaining_witness :
  let pts : list (point R) := [(0, 0, 0); (10, 0, 2); (10, 10, 2); (0, 10, 0)] in
  let w := mkWorld (mkSet pts false) (mkVsketch 1 []) in
  (draw_window 0 w).1 = inr tt /\
  points (self (draw_window 0 w).2) = [(0, 0, 0); (10, 2, 2); (10, 10, 2); (0, 10, 0)].
Proof.
  cbv zeta.
  destruct (window_chaining 0
              (mkWorld (mkSet [(0, 0, 0); (10, 0, 2); (10, 10, 2); (0, 10, 0)] false)
                       (mkVsketch 1 []))
              (0, 0, 0) (10, 0, 2) (10, 10, 2) _
              eq_refl eq_refl eq_refl (right_angle_corner 0 2 2))
    as (H1 & H2 & _).
  split; [exact H1 |]. rewrite H2. reflexivity.
Defined.

(** C7 on a sketch whose stroke is the layer [5]: after the debug draw of
    a marker the stroke is the layer [1]. *)
Lemma debug_draw_stroke_witness :
  let w : world R := mkWorld (mkSet [] true) (mkVsketch 5 []) in
  exists w3,
    _debug_draw 2 (vsk_circle 0 0 0.1) w = (inr tt, w3) /\
    cur_stroke (vsk w3) = 1%Z.
Proof.
  cbv zeta.
  destruct (debug_draw_stroke 2 (vsk_circle 0 0 0.1)
              (mkWorld (mkSet [] true) (mkVsketch 5 []))
              (vsk_circle 0 0 0.1
                 (vsk_stroke 2 (mkWorld (mkSet [] true) (mkVsketch 5 []))).2).2
              eq_refl)
    as (w3 & H1 & H2 & _).
  exists w3. split; assumption.
Defined.

(** C7 as stated fails: [draw] with [debug] set, on a sketch whose stroke
    is the layer [5], ends with the stroke on the layer [1]. *)
Lemma debug_draw_overrides_stroke :
  let w : world R := mkWorld (mkSet [(0, 0, 0)] true) (mkVsketch 5 []) in
  (draw w).1 = inr tt /\
  cur_stroke (vsk w) = 5%Z /\
  cur_stroke (vsk (draw w).2) = 1%Z.
Proof.
  cbv zeta. rewrite draw_spec. unfold draw_trace.
  cbn [self points debug vsk length].
  destruct (decide (1 < 3)%nat) as [_ | Hge]; [| lia].
  repeat split.
Qed.

(** C6 as stated fails in binary64: squaring the coordinate difference
    [1e200] on line 72 raises [OverflowError], whatever the libm. *)
Lemma draw_overflows_b64 :
  exists w : world float,
    forall m : libm, (@draw float (b64_float m) w).1 = inl OverflowError.
Proof.
  exists (mkWorld
            (mkSet [(0, 0, 0); (0x1.4e718d7d7625ap+664, 0, 1); (0, 0, 0)]%float false)
            (mkVsketch 1 [])).
  intros m. vm_compute. reflexivity.
Qed.

(** Three collinear points in exact arithmetic: the interior angle is
    [PI]. *)
Lemma collinear_skipped :
  let A : point R := (0, 0, 0) in
  let g : point R := (1, 0, 1) in
  let B : point R := (2, 0, 0) in
  PI - 1e-10 < angle_at A g B.
Proof.
  cbv zeta.
  assert (H1 : seg_length (0, 0, 0) (1, 0, 1) = 1)
    by (apply norm_eq; unfold px, py; cbn [fst snd]; lra).
  assert (H2 : seg_length (1, 0, 1) (2, 0, 0) = 1)
    by (apply norm_eq; unfold px, py; cbn [fst snd]; lra).
  unfold angle_at, unit_dir. rewrite H1, H2. unfold px, py; cbn [fst snd].
  replace ((1 - 0) / 1 * - ((2 - 1) / 1) + (0 - 0) / 1 * - ((0 - 0) / 1)) with (- (1))
    by field.
  rewrite clamp_id by lra.
  rewrite acos_opp, acos_1. lra.
Qed.

(** C5 holds on three collinear points: the window makes no call and
    changes nothing. *)
Lemma degenerate_inputs_skipped_witness :
  let w : world R :=
    mkWorld (mkSet [(0, 0, 0); (1, 0, 1); (2, 0, 0)] false) (mkVsketch 1 []) in
  draw_window 0 w = (inr tt, w).
Proof.
  cbv zeta.
  destruct (proj2 (proj2 degenerate_inputs_skipped)
              (mkWorld (mkSet [(0, 0, 0); (1, 0, 1); (2, 0, 0)] false) (mkVsketch 1 []))
              0%nat (0, 0, 0) (1, 0, 1) (2, 0, 0) eq_refl eq_refl eq_refl
              (or_intror (or_intror (or_intror collinear_skipped))))
    as (Hd & _).
  rewrite Hd. reflexivity.
Defined.

(** C6 on the right angle in exact arithmetic, and in binary64 on a
    corner at [x = 1e200], with a libm of constant functions, which is in
    range. *)
Lemma draw_never_raises_witness :
  (draw (mkWorld (mkSet [(0, 0, 0); (10, 0, 2); (10, 10, 0)] true)
                 (mkVsketch 1 []) : world R)).1 = inr tt /\
  let m := mkLibm (fun _ => 1%float) (fun _ => 1%float) (fun _ => 1%float)
                  (fun _ _ => 0%float) in
  let w : world float :=
    mkWorld (mkSet [(0, 0, 0); (0x1.4e718d7d7625ap+664, 0, 1); (0, 0, 0)]%float false)
            (mkVsketch 1 []) in
  libm_in_range m /\
  ((@draw float (b64_float m) w).1 = inr tt \/
   (@draw float (b64_float m) w).1 = inl OverflowError).
Proof.
  cbv zeta.
  assert (Hm : libm_in_range
                 (mkLibm (fun _ => 1%float) (fun _ => 1%float) (fun _ => 1%float)
                         (fun _ _ => 0%float))).
  { split; [reflexivity |]. intros a _ _. repeat split. }
  split; [exact (proj1 draw_never_raises _) |].
  split; [exact Hm |].
  exact (proj2 (proj2 (proj2 draw_never_raises)) _ _ Hm).
Defined.

(** C9 holds on the right angle: three points before, three after, and
    the two end points in place. *)
Lemma draw_frame_witness :
  let w : world R :=
    mkWorld (mkSet [(0, 0, 0); (10, 0, 2); (10, 10, 0)] true) (mkVsketch 1 []) in
  length (points (self (draw w).2)) = 3%nat /\
  points (self (draw w).2) !! 0%nat = Some (0, 0, 0) /\
  points (self (draw w).2) !! 2%nat = Some (10, 10, 0).
Proof.
  cbv zeta.
  destruct (draw_frame
              (mkWorld (mkSet [(0, 0, 0); (10, 0, 2); (10, 10, 0)] true)
                       (mkVsketch 1 []) : world R))
    as (H1 & _ & H3 & _).
  split; [exact H1 |].
  split; [exact (H3 0%nat (or_introl eq_refl)) |].
  apply (H3 2%nat). right. cbn. lia.
Defined.

(** In binary64, three collinear points need not be skipped.  For
    [(0,0)], [(1,1)], [(2,2)] both unit vectors are [(u, u)] with
    [u = 1 / sqrt 2] rounded down, the dot product of line 85 rounds to
    [-(1 - 2^-52)], so that the interior angle is the arc cosine of that
    number, about [PI - 2.1e-8], outside the skip band; the bisector sum is
    exactly [(0, 0)] and lines 114-118 replace it. *)
Lemma collinear_b64_fallback (m : libm) (r : float) :
  let u := (1 / PrimFloat.sqrt 2)%float in
  @unit_vectors float (b64_float m) (0, 0, 0)%float (1, 1, r)%float (2, 2, 0)%float
    = inr (Some ((u, u), (u, u))) /\
  @interior_angle_of float (b64_float m) (u, u) (u, u)
    = math_1 (c_acos m) (- 0x1.ffffffffffffep-1)%float /\
  @bisector_sum float (b64_float m) (u, u) (u, u) = (0, 0)%float /\
  @bisector float (b64_float m) (u, u) (u, u) = inr (u, - u)%float.
Proof.
  cbv zeta. repeat split; vm_compute; reflexivity.
Qed.

(** The right angle [(0, 1e17)], [(1e17, 1e17)], [(1e17, 0)] with the
    radius [1], for a libm that returns the doubles next to [pi/2], to
    [tan (pi/4)] and to [sin (pi/4)]: one unit in the last place of
    [1e17] is [16], and the tangent points and the center all round to the
    corner. *)
Lemma large_coordinates_corner (m : libm) :
  c_acos m 0 = 0x1.921fb54442d18p+0%float ->
  c_tan m 0x1.921fb54442d18p-1 = 0x1.fffffffffffffp-1%float \/
  c_tan m 0x1.921fb54442d18p-1 = 1%float ->
  c_sin m 0x1.921fb54442d18p-1 = 0x1.6a09e667f3bccp-1%float \/
  c_sin m 0x1.921fb54442d18p-1 = 0x1.6a09e667f3bcdp-1%float ->
  @tangent_circle float (b64_float m)
    (0, 1e17, 0)%float (1e17, 1e17, 1)%float (1e17, 0, 0)%float
  = inr (Some (mkCorner (1e17, 1e17)%float (1e17, 1e17)%float (1e17, 1e17)%float
                        (- 0x1.6a09e667f3bccp-1, - 0x1.6a09e667f3bccp-1)%float)).
Proof.
  destruct m as [ac tn sn at2]. cbn [c_acos c_tan c_sin].
  intros Hacos Htan Hsin.
  vm_compute. rewrite Hacos. vm_compute.
  destruct Htan as [-> | ->]; vm_compute;
    destruct Hsin as [-> | ->]; vm_compute; reflexivity.
Qed.

(** C1 as stated fails in binary64, where every step is rounded: on the
    right angle [(0, 1e17)], [(1e17, 1e17)], [(1e17, 0)] with the radius
    [1] both lengths are [1e17], the interior angle is the double next to
    [pi / 2], the tangent distance [1 / tan (theta / 2)] is below both
    lengths, and the tangent points and the center are all the corner
    itself, at the distance [0] from [g] and not [r / tan (theta / 2)].
    The libm is any that returns the double next to [pi / 2] for
    [acos 0], and for the tangent and the sine of its half one of the two
    doubles next to the exact value. *)
Lemma tangent_points_collapse_b64 :
  let A : point float := (0, 1e17, 0)%float in
  let g : point float := (1e17, 1e17, 1)%float in
  let B : point float := (1e17, 0, 0)%float in
  (forall m : libm,
     @unit_vectors float (b64_float m) A g B = inr (Some ((1, 0), (0, -1)))%float /\
     @vec_length float (b64_float m) (px g - px A, py g - py A)%float = inr 1e17%float /\
     @vec_length float (b64_float m) (px B - px g, py B - py g)%float = inr 1e17%float) /\
  forall m : libm,
    c_acos m 0 = 0x1.921fb54442d18p+0%float ->
    c_tan m 0x1.921fb54442d18p-1 = 0x1.fffffffffffffp-1%float \/
    c_tan m 0x1.921fb54442d18p-1 = 1%float ->
    c_sin m 0x1.921fb54442d18p-1 = 0x1.6a09e667f3bccp-1%float \/
    c_sin m 0x1.921fb54442d18p-1 = 0x1.6a09e667f3bcdp-1%float ->
    @interior_angle_of float (b64_float m) (1, 0)%float (0, -1)%float
      = inr 0x1.921fb54442d18p+0%float /\
    @angle_skipped float (b64_float m) 0x1.921fb54442d18p+0%float = false /\
    PrimFloat.ltb (1 / c_tan m 0x1.921fb54442d18p-1) 1e17 = true /\
    exists k : corner float,
      @tangent_circle float (b64_float m) A g B = inr (Some k) /\
      tangent_a k = (px g, py g) /\ tangent_b k = (px g, py g) /\
      center k = (px g, py g).
Proof.
  cbv zeta. split.
  - intros m. repeat split; vm_compute; reflexivity.
  - intros m Hacos Htan Hsin. split; [| split; [| split]].
    + destruct m as [ac tn sn at2]. cbn [c_acos] in Hacos.
      vm_compute. rewrite Hacos. reflexivity.
    + reflexivity.
    + destruct Htan as [-> | ->]; reflexivity.
    + eexists. split; [exact (large_coordinates_corner m Hacos Htan Hsin) |].
      repeat split.
Qed.

(** C3 as stated fails in two ways.  The radius [0] is not skipped: both
    tangent points and the center are the corner, and the two angles are
    equal.  In binary64 the same happens with a radius that is not [0]:
    on the right angle at [(1e17, 1e17)] with the radius [1], and a libm
    as above with [atan2 (0, 0) = 0], the arc call of line 173 has the
    width [2] and the angles [0] and [0]. *)
Lemma arc_can_be_a_point :
  (exists k : corner R,
     tangent_circle (0, 0, 0) (10, 0, 0) (10, 10, 0) = inr (Some k) /\
     let angles := arc_angles (tangent_a k) (tangent_b k) (center k) in
     ~ 0 < Rabs (angles.2 - angles.1)) /\
  forall m : libm,
    c_acos m 0 = 0x1.921fb54442d18p+0%float ->
    c_tan m 0x1.921fb54442d18p-1 = 0x1.fffffffffffffp-1%float \/
    c_tan m 0x1.921fb54442d18p-1 = 1%float ->
    c_sin m 0x1.921fb54442d18p-1 = 0x1.6a09e667f3bccp-1%float \/
    c_sin m 0x1.921fb54442d18p-1 = 0x1.6a09e667f3bcdp-1%float ->
    c_atan2 m 0 0 = 0%float ->
    @draw float (b64_float m)
      (mkWorld (mkSet [(0, 1e17, 0); (1e17, 1e17, 1); (1e17, 0, 0)]%float false)
               (mkVsketch 1 []))
    = (inr tt,
       mkWorld (mkSet [(0, 1e17, 0); (1e17, 1e17, 1); (1e17, 0, 0)]%float false)
               (mkVsketch 1 [Line 0 1e17 1e17 1e17;
                             Arc 1e17 1e17 2 (-2) 0 0;
                             Line 1e17 1e17 1e17 0]%float)).
Proof.
  split.
  - eexists. split; [apply right_angle_corner |].
    cbn [tangent_a tangent_b center].
    rewrite (right_angle_arc_0 0 eq_refl). cbn [fst snd].
    replace (0 - 0) with 0 by ring. rewrite Rabs_R0. lra.
  - intros m Hacos Htan Hsin Hatan.
    rewrite (@draw_single_corner float (b64_float m) _ _ _ _ _
               (large_coordinates_corner m Hacos Htan Hsin)).
    destruct m as [ac tn sn at2]. cbn [c_atan2] in Hatan.
    vm_compute. rewrite !Hatan. vm_compute. reflexivity.
Qed.

(** C5 as stated fails in binary64.  Both lengths are computed before
    the test of line 75: on [(0,0)], [(0,0)], [(1e200,0)] the incoming
    segment has the length [0], and the square of line 73 raises
    [OverflowError].  And rounding takes a degenerate window out of the
    skip band: on the collinear points [(0,0)], [(1,1)], [(2,2)] the dot
    product is [-(1 - 2^-52)], and with an arc cosine of it that passes
    the test of line 94, as the double [0x1.921fb5170194bp+1] (about
    [pi - 2.1e-8]) does, the window is not skipped. *)
Lemma degenerate_window_b64 :
  (forall m : libm,
     @vec_length float (b64_float m) (0 - 0, 0 - 0)%float = inr 0%float /\
     PrimFloat.ltb 0 0x1.b7cdfd9d7bdbbp-34 = true /\
     (@draw float (b64_float m)
        (mkWorld (mkSet [(0, 0, 0); (0, 0, 1); (0x1.4e718d7d7625ap+664, 0, 0)]%float
                        false)
                 (mkVsketch 1 []))).1 = inl OverflowError) /\
  (forall m : libm,
     @angle_skipped float (b64_float m) (c_acos m (- 0x1.ffffffffffffep-1)) = false ->
     @tangent_circle float (b64_float m) (0, 0, 0)%float (1, 1, 1)%float (2, 2, 0)%float
       <> inr None) /\
  (forall m : libm,
     @angle_skipped float (b64_float m) 0x1.921fb5170194bp+1%float = false).
Proof.
  split; [| split].
  - intros m. repeat split; vm_compute; reflexivity.
  - intros m Hs.
    destruct (collinear_b64_fallback m 1%float) as (Hu & Ha & _). cbv zeta in Hu, Ha.
    destruct (math_1 (c_acos m) (- 0x1.ffffffffffffep-1)%float) as [e | a] eqn:Hm.
    + unfold tangent_circle. rewrite Hu. cbn [mbind E_bind]. rewrite Ha.
      discriminate.
    + assert (a = c_acos m (- 0x1.ffffffffffffep-1)%float) as ->.
      { unfold math_1 in Hm. cbv zeta in Hm.
        destruct (_ && _); [discriminate |].
        destruct (_ && _); [discriminate |]. congruence. }
      exact (passed_is_not_skipped _ _ _ _ _ _ Hu Ha Hs).
  - intros m. reflexivity.
Qed.

(** C8 as stated fails in binary64: on the collinear points [(0,0)],
    [(1,1)], [(2,2)] both unit vectors are [(u, u)], the bisector sum is
    exactly [(0, 0)], its length [0] is below [1e-10] and lines 114-118
    take [(u, -u)]; with [acos (-(1 - 2^-52)) = 0x1.921fb5170194bp+1], the
    value of glibc, the interior angle passes the test of line 94 and the
    window is not skipped. *)
Lemma collinear_takes_fallback_b64 :
  let u := (1 / PrimFloat.sqrt 2)%float in
  (forall m : libm,
     @unit_vectors float (b64_float m) (0, 0, 0)%float (1, 1, 1)%float (2, 2, 0)%float
       = inr (Some ((u, u), (u, u))) /\
     @vec_length float (b64_float m) (@bisector_sum float (b64_float m) (u, u) (u, u))
       = inr 0%float /\
     PrimFloat.ltb 0 0x1.b7cdfd9d7bdbbp-34 = true /\
     @bisector float (b64_float m) (u, u) (u, u) = inr (u, - u)%float) /\
  (forall m : libm,
     c_acos m (- 0x1.ffffffffffffep-1) = 0x1.921fb5170194bp+1%float ->
     @interior_angle_of float (b64_float m) (u, u) (u, u)
       = inr 0x1.921fb5170194bp+1%float /\
     @angle_skipped float (b64_float m) 0x1.921fb5170194bp+1%float = false /\
     @tangent_circle float (b64_float m) (0, 0, 0)%float (1, 1, 1)%float (2, 2, 0)%float
       <> inr None).
Proof.
  cbv zeta. split.
  - intros m.
    destruct (collinear_b64_fallback m 1%float) as (Hu & Ha & Hb & Hw).
    cbv zeta in Hu, Ha, Hb, Hw.
    split; [exact Hu |]. split; [rewrite Hb; vm_compute; reflexivity |].
    split; [reflexivity | exact Hw].
  - intros m Hacos.
    destruct (collinear_b64_fallback m 1%float) as (Hu & Ha & _).
    cbv zeta in Hu, Ha.
    assert (Ha' : @interior_angle_of float (b64_float m)
                    (1 / PrimFloat.sqrt 2, 1 / PrimFloat.sqrt 2)%float
                    (1 / PrimFloat.sqrt 2, 1 / PrimFloat.sqrt 2)%float
                  = inr 0x1.921fb5170194bp+1%float).
    { rewrite Ha. unfold math_1. rewrite Hacos. reflexivity. }
    split; [exact Ha' |]. split; [reflexivity |].
    exact (passed_is_not_skipped _ _ _ _ _ _ Hu Ha' eq_refl).
Qed.

End Runs.

(** * Further properties of the code *)

(** ** The structure of a drawing *)

Section Structure.
Context {F : Type} {PF : PyFloat F}.
Local Open Scope pyfloat_scope.

Lemma for_each_app {A} (l l' : list A) (body : A -> M F unit) (w : world F) :
  for_each (l ++ l') body w =
    match for_each l body w with
    | (inl e, w') => (inl e, w')
    | (inr _, w') => for_each l' body w'
    end.
Proof.
  revert w; induction l as [| x l IH]; intros w; cbn [app for_each].
  - reflexivity.
  - unfold mbind, M_bind. destruct (body x w) as [[e | []] w']; [reflexivity |].
    apply IH.
Qed.

(** X1. Adding the points of [pts] one at a time, with [add_point], to the
    line set that [__init__] builds from [l] raises nothing and draws
    nothing; [get_points] then returns [l ++ pts], in this order, and the
    line set is the one that [__init__] builds from [l ++ pts], with the
    same flag. *)
Theorem add_point_appends (l pts : list (point F)) (dbg : option bool) (v : Vsketch F) :
  (for_each pts (fun p => add_point (px p) (py p) (pr p)) ;; get_points)
    (mkWorld (__init__ l dbg) v)
  = (inr (l ++ pts), mkWorld (__init__ (l ++ pts) dbg) v).
Proof.
  unfold __init__. revert l; induction pts as [| [[x y] r] pts IH]; intros l.
  - rewrite app_nil_r. reflexivity.
  - specialize (IH (l ++ [(x, y, r)])). rewrite <- app_assoc in IH.
    cbn [app] in IH. rewrite <- IH. reflexivity.
Qed.

(** *** The stroke *)

Lemma stroke_play_path (cs : list (call F)) (v : Vsketch F) :
  Forall (fun c => forall s, c <> Stroke s) cs ->
  cur_stroke (play cs v) = cur_stroke v.
Proof.
  intros H; revert v; induction H as [| c cs Hc _ IH]; intros v; [reflexivity |].
  cbn [play fold_left]. fold (play cs (play1 v c)). rewrite IH.
  destruct c; try reflexivity. now destruct (Hc c).
Qed.

Lemma window_calls_stroke (last : bool) (A g B : point F) r (v : Vsketch F) :
  cur_stroke (play (window_calls true last A g B r) v) = 1%Z.
Proof.
  unfold window_calls. destruct r as [e | [k |]]; try reflexivity.
  unfold path_of_corner. destruct (arc_angles _ _ _) as [sa ea].
  destruct last; reflexivity.
Qed.

Lemma windows_stroke (n : nat) (idx : list nat) :
  forall pts : list (point F),
    (windows n true idx pts).2 = [] \/
    forall v, cur_stroke (play (windows n true idx pts).2 v) = 1%Z.
Proof.
  induction idx as [| i idx IH]; intros pts; cbn [windows].
  - now left.
  - destruct (pts !! i) as [A |]; [| now left].
    destruct (pts !! S i) as [g |]; [| now left].
    destruct (pts !! S (S i)) as [B |]; [| now left].
    cbv zeta. right. intros v.
    destruct (tangent_circle A g B) as [e | r] eqn:Ht.
    + apply window_calls_stroke.
    + specialize (IH (window_points i g (inr r) pts)).
      destruct (windows n true idx _) as [[res pts'] cs']. cbn [snd] in *.
      rewrite play_app. destruct IH as [-> | IH]; [| apply IH].
      apply window_calls_stroke.
Qed.

Lemma marker_calls_stroke (pts : list (point F)) (v : Vsketch F) :
  pts <> [] -> cur_stroke (play (marker_calls pts) v) = 1%Z.
Proof.
  revert v; induction pts as [| p pts IH]; intros v Hne; [contradiction |].
  unfold marker_calls; cbn [map concat]. rewrite play_app.
  fold (marker_calls pts).
  destruct pts as [| q pts]; [reflexivity |]. now apply IH.
Qed.

Lemma window_calls_layers (dbg last : bool) (A g B : point F) r :
  Forall layer_1_2_3 (window_calls dbg last A g B r).
Proof.
  unfold window_calls, path_of_corner.
  destruct r as [e | [k |]]; [| destruct (arc_angles _ _ _) as [sa ea] |];
    destruct dbg, last; cbn [app debug_block reference_calls construction_calls];
    repeat (constructor; [cbn; auto |]); constructor.
Qed.

Lemma windows_layers (n : nat) (dbg : bool) (idx : list nat) :
  forall pts : list (point F), Forall layer_1_2_3 (windows n dbg idx pts).2.
Proof.
  induction idx as [| i idx IH]; intros pts; cbn [windows].
  - constructor.
  - destruct (pts !! i) as [A |]; [| constructor].
    destruct (pts !! S i) as [g |]; [| constructor].
    destruct (pts !! S (S i)) as [B |]; [| constructor].
    cbv zeta.
    destruct (tangent_circle A g B) as [e | r] eqn:Ht.
    + apply window_calls_layers.
    + specialize (IH (window_points i g (inr r) pts)).
      destruct (windows n dbg idx _) as [[res pts'] cs']. cbn [snd] in *.
      apply Forall_app; split; [apply window_calls_layers | exact IH].
Qed.

Lemma marker_calls_layers (pts : list (point F)) :
  Forall layer_1_2_3 (marker_calls pts).
Proof.
  induction pts as [| p pts IH]; [constructor |].
  unfold marker_calls; cbn [map concat]. fold (marker_calls pts).
  apply Forall_app; split; [| exact IH].
  repeat (constructor; [cbn; auto |]); constructor.
Qed.

(** X2. The stroke that [draw] leaves on the sketch, also when [draw]
    raises: the layer [1] when [debug] is set and there is at least one
    point, whatever the stroke was before; the stroke of before when
    [debug] is unset or there is no point.  Every stroke call that [draw]
    makes is on the layer [1], [2] or [3]. *)
Theorem draw_final_stroke (w : world F) :
  cur_stroke (vsk (draw w).2) =
    match debug (self w), points (self w) with
    | true, _ :: _ => 1%Z
    | _, _ => cur_stroke (vsk w)
    end /\
  exists cs,
    calls (vsk (draw w).2) = calls (vsk w) ++ cs /\
    Forall layer_1_2_3 cs.
Proof.
  rewrite draw_spec. destruct w as [[pts dbg] v]. cbn [self points debug vsk].
  unfold draw_trace.
  destruct (decide _) as [Hlt | Hge].
  - cbn [fst snd vsk]. split.
    + destruct dbg; [| reflexivity].
      destruct pts as [| p pts]; [reflexivity |]. now apply marker_calls_stroke.
    + eexists. rewrite calls_play. split; [reflexivity |].
      destruct dbg; [apply marker_calls_layers | constructor].
  - pose proof (windows_stroke (length pts) (seq 0 (length pts - 2)) pts) as Hs.
    pose proof (windows_no_stroke (length pts) (seq 0 (length pts - 2)) pts) as Hn.
    pose proof (windows_layers (length pts) dbg (seq 0 (length pts - 2)) pts) as Hl.
    destruct dbg.
    + destruct (windows _ true _ _) as [[res pts'] cs]. cbn [fst snd vsk] in *.
      split.
      * destruct pts as [| p pts]; [cbn in Hge; lia |].
        rewrite play_app. destruct Hs as [-> | Hs]; [| apply Hs].
        now apply marker_calls_stroke.
      * eexists. rewrite calls_play. split; [reflexivity |].
        apply Forall_app; split; [apply marker_calls_layers | exact Hl].
    + destruct (windows _ false _ _) as [[res pts'] cs]. cbn [fst snd vsk] in *.
      split.
      * rewrite app_nil_l. destruct pts; now apply stroke_play_path.
      * eexists. rewrite calls_play. split; [reflexivity | exact Hl].
Qed.

(** *** The end of the path *)

Lemma ends_with_arc_app (cs cs' : list (call F)) :
  ends_with_arc cs = true -> ends_with_arc cs' = true ->
  ends_with_arc (cs ++ cs') = true.
Proof.
  unfold ends_with_arc. rewrite last_app.
  destruct (last cs'); auto.
Qed.

Lemma windows_end_with_arc (n : nat) (idx : list nat) :
  Forall (fun i => i <> (n - 3)%nat) idx ->
  forall pts : list (point F),
    ends_with_arc (windows n false idx pts).2 = true.
Proof.
  induction 1 as [| i idx Hi _ IH]; intros pts; cbn [windows].
  - reflexivity.
  - destruct (pts !! i) as [A |]; [| reflexivity].
    destruct (pts !! S i) as [g |]; [| reflexivity].
    destruct (pts !! S (S i)) as [B |]; [| reflexivity].
    cbv zeta.
    assert (Hw : forall r, ends_with_arc
                   (window_calls false (bool_decide (i = (n - 3)%nat)) A g B r) = true).
    { intros r. rewrite bool_decide_eq_false_2 by exact Hi.
      unfold window_calls, path_of_corner.
      destruct r as [e | [k |]]; try reflexivity.
      destruct (arc_angles _ _ _) as [sa ea]. reflexivity. }
    destruct (tangent_circle A g B) as [e | r] eqn:Ht.
    + apply Hw.
    + specialize (IH (window_points i g (inr r) pts)).
      destruct (windows n false idx _) as [[res pts'] cs']. cbn [snd] in *.
      apply ends_with_arc_app; [apply Hw | exact IH].
Qed.

(** X3. With [debug] unset and [n >= 3] points, when the loop reaches
    its last index [n - 3] without exception: the calls made so far are
    none or end with an arc, and the last two control points are still the
    ones of the input.  The line to the last control point is drawn
    exactly when this last window is rounded, as the last call of [draw];
    when the window is skipped [draw] ends there with the calls made so
    far, so that the path ends on an arc and not on a line to the last
    control point; when the window raises, [draw] raises. *)
Theorem closing_line_needs_last_corner (pts : list (point F)) (v : Vsketch F) :
  let n := length pts in
  let w := mkWorld (mkSet pts false) v in
  let before := for_each (seq 0 (n - 3)) draw_window w in
  (3 <= n)%nat ->
  before.1 = inr tt ->
  exists A g B cs1,
    points (self before.2) !! (n - 3)%nat = Some A /\
    pts !! (n - 2)%nat = Some g /\ points (self before.2) !! (n - 2)%nat = Some g /\
    pts !! (n - 1)%nat = Some B /\ points (self before.2) !! (n - 1)%nat = Some B /\
    calls (vsk before.2) = calls v ++ cs1 /\
    ends_with_arc cs1 = true /\
    match tangent_circle A g B with
    | inl e => draw w = (inl e, before.2)
    | inr None => draw w = (inr tt, before.2)
    | inr (Some k) =>
        (draw w).1 = inr tt /\
        exists sa ea,
          calls (vsk (draw w).2) = calls v ++ cs1 ++
            [Line (px A) (py A) (tangent_a k).1 (tangent_a k).2;
             Arc (center k).1 (center k).2 (f2 * pr g) ((- f2) * pr g) sa ea;
             Line (tangent_b k).1 (tangent_b k).2 (px B) (py B)]
    end.
Proof.
  intros n w before Hn Hok.
  assert (Hdraw : draw w = for_each [(n - 3)%nat] draw_window before.2).
  { unfold draw, self_debug, len_points, gets, mbind, M_bind, w. cbn [self points debug].
    unfold pass at 1, mret, M_ret. cbn [self points].
    destruct (decide (length pts < 3)%nat) as [Hlt | _]; [unfold n in Hn; lia |].
    cbn [self points]. change (length pts) with n.
    replace (n - 2)%nat with ((n - 3) + 1)%nat by lia.
    rewrite seq_app, for_each_app. fold w. fold before.
    destruct before as [[e | []] w1]; [discriminate |]. reflexivity. }
  pose proof (for_each_windows (seq 0 (n - 3)) w) as Hb. fold before in Hb.
  cbn [w self points debug vsk] in Hb. fold n in Hb.
  pose proof (windows_frame n false (n - 3) 0 pts) as Hf. cbv zeta in Hf.
  pose proof (windows_end_with_arc n (seq 0 (n - 3))) as He.
  destruct (windows n false (seq 0 (n - 3)) pts) as [[res pts1] cs1] eqn:Hw.
  cbn [fst snd] in Hf. destruct Hf as (Hlen & _ & Hsame).
  rewrite Hb in *. cbn [fst snd self points vsk] in *.
  destruct (lookup_lt_is_Some_2 pts1 (n - 3)%nat ltac:(lia)) as [A HA].
  destruct (lookup_lt_is_Some_2 pts (n - 2)%nat ltac:(lia)) as [g Hg].
  destruct (lookup_lt_is_Some_2 pts (n - 1)%nat ltac:(lia)) as [B HB].
  assert (Hg1 : pts1 !! (n - 2)%nat = Some g) by (rewrite Hsame by lia; exact Hg).
  assert (HB1 : pts1 !! (n - 1)%nat = Some B) by (rewrite Hsame by lia; exact HB).
  exists A, g, B, cs1.
  split; [exact HA |]. split; [exact Hg |]. split; [exact Hg1 |].
  split; [exact HB |]. split; [exact HB1 |].
  split; [apply calls_play |].
  split.
  { specialize (He ltac:(apply Forall_forall; intros i Hi; apply elem_of_seq in Hi; lia) pts).
    rewrite Hw in He. exact He. }
  rewrite Hdraw. cbn [for_each]. unfold mbind, M_bind.
  replace (n - 2)%nat with (S (n - 3)) in Hg1 by lia.
  replace (n - 1)%nat with (S (S (n - 3))) in HB1 by lia.
  rewrite (draw_window_spec (n - 3) (mkWorld (mkSet pts1 false) (play cs1 v))
             A g B HA Hg1 HB1).
  cbv zeta. cbn [self points debug vsk]. rewrite Hlen. fold n.
  rewrite bool_decide_eq_true_2 by reflexivity.
  unfold window_calls, window_points, window_result.
  destruct (tangent_circle A g B) as [e | [k |]]; cbn [app].
  - reflexivity.
  - unfold pass, mret, M_ret. cbn [fst snd vsk]. split; [reflexivity |].
    unfold path_of_corner. destruct (arc_angles _ _ _) as [sa ea].
    exists sa, ea. rewrite !calls_play. cbn [app]. now rewrite app_assoc.
  - reflexivity.
Qed.

End Structure.

Section Plain.
Context {F : Type} {PF : PyFloat F}.
Local Open Scope pyfloat_scope.

Lemma windows_plain (n : nat) (idx : list nat) :
  forall pts : list (point F),
    Forall (fun c => match c with
                     | Line _ _ _ _ | Arc _ _ _ _ _ _ => True
                     | _ => False
                     end) (windows n false idx pts).2 /\
    (length (windows n false idx pts).2 <= 3 * length idx)%nat /\
    (Forall (fun i => i <> (n - 3)%nat) idx ->
     length (windows n false idx pts).2 <= 2 * length idx)%nat.
Proof.
  induction idx as [| i idx IH]; intros pts; cbn [windows].
  - cbn [snd length]. split; [constructor |]. split; [lia | intros _; lia].
  - assert (Hnil : forall (res : E unit) (l : list (point F)),
              Forall (fun c : call F => match c with
                                        | Line _ _ _ _ | Arc _ _ _ _ _ _ => True
                                        | _ => False
                                        end) (res, l, @nil (call F)).2 /\
              (length (res, l, @nil (call F)).2 <= 3 * length (i :: idx))%nat /\
              (Forall (fun i => i <> (n - 3)%nat) (i :: idx) ->
               length (res, l, @nil (call F)).2 <= 2 * length (i :: idx))%nat).
    { intros res l. cbn [snd length]. split; [constructor |].
      split; [lia | intros _; lia]. }
    destruct (pts !! i) as [A |]; [| apply Hnil].
    destruct (pts !! S i) as [g |]; [| apply Hnil].
    destruct (pts !! S (S i)) as [B |]; [| apply Hnil].
    cbv zeta.
    assert (Hw : forall last r,
      Forall (fun c : call F => match c with
                                | Line _ _ _ _ | Arc _ _ _ _ _ _ => True
                                | _ => False
                                end) (window_calls false last A g B r) /\
      (length (window_calls false last A g B r) <= 3)%nat /\
      (last = false -> length (window_calls false last A g B r) <= 2)%nat).
    { intros last r. unfold window_calls, path_of_corner.
      destruct r as [e | [k |]]; cbn [app length].
      - split; [constructor |]. split; [lia | intros _; lia].
      - destruct (arc_angles _ _ _) as [sa ea].
        destruct last; cbn [app length].
        + split; [repeat constructor |]. split; [lia | discriminate].
        + split; [repeat constructor |]. split; [lia | intros _; lia].
      - split; [constructor |]. split; [lia | intros _; lia]. }
    destruct (tangent_circle A g B) as [e | r] eqn:Ht.
    + cbn [snd length].
      destruct (Hw (bool_decide (i = (n - 3)%nat)) (inl e)) as (H1 & H2 & H3).
      split; [exact H1 |]. split; [lia |].
      intros Hall. apply Forall_cons in Hall. destruct Hall as [Hi _].
      rewrite bool_decide_eq_false_2 by exact Hi.
      destruct (Hw false (inl e)) as (_ & _ & K). specialize (K eq_refl). lia.
    + specialize (IH (window_points i g (inr r) pts)).
      destruct (windows n false idx _) as [[res pts'] cs']. cbn [snd length] in *.
      destruct IH as (I1 & I2 & I3).
      destruct (Hw (bool_decide (i = (n - 3)%nat)) (inr r)) as (H1 & H2 & H3).
      rewrite length_app.
      split; [apply Forall_app; split; assumption |]. split; [lia |].
      intros Hall. apply Forall_cons in Hall. destruct Hall as [Hi Hall].
      rewrite bool_decide_eq_false_2 by exact Hi.
      destruct (Hw false (inr r)) as (_ & _ & K). specialize (K eq_refl).
      specialize (I3 Hall). lia.
Qed.

Lemma windows_app (n : nat) (dbg : bool) (idx idx' : list nat) :
  forall pts : list (point F),
    windows n dbg (idx ++ idx') pts =
      let '(res, pts', cs) := windows n dbg idx pts in
      match res with
      | inl e => (inl e, pts', cs)
      | inr _ =>
          let '(res', pts'', cs') := windows n dbg idx' pts' in
          (res', pts'', cs ++ cs')
      end.
Proof.
  induction idx as [| i idx IH]; intros pts; cbn [app windows].
  - destruct (windows n dbg idx' pts) as [[res' pts''] cs']. reflexivity.
  - destruct (pts !! i) as [A |]; [| reflexivity].
    destruct (pts !! S i) as [g |]; [| reflexivity].
    destruct (pts !! S (S i)) as [B |]; [| reflexivity].
    cbv zeta.
    destruct (tangent_circle A g B) as [e | r] eqn:Ht; [reflexivity |].
    rewrite IH.
    destruct (windows n dbg idx _) as [[res pts'] cs].
    destruct res as [e | []]; [reflexivity |].
    destruct (windows n dbg idx' pts') as [[res' pts''] cs'].
    now rewrite app_assoc.
Qed.

(** X4. With [debug] unset, [draw] makes only [line] and [arc] calls,
    no [stroke] and no [circle], and at most [2 (n - 2) + 1] of them on
    [n] points, whether it raises or not. *)
Theorem draw_plain_calls (pts : list (point F)) (v : Vsketch F) :
  exists cs,
    calls (vsk (draw (mkWorld (mkSet pts false) v)).2) = calls v ++ cs /\
    Forall (fun c => match c with
                     | Line _ _ _ _ | Arc _ _ _ _ _ _ => True
                     | _ => False
                     end) cs /\
    (length cs <= 2 * (length pts - 2) + 1)%nat.
Proof.
  rewrite draw_spec. cbn [self points debug vsk]. unfold draw_trace.
  destruct (decide _) as [Hlt | Hge].
  - exists []. cbn [fst snd vsk]. rewrite calls_play. repeat split; auto. cbn; lia.
  - set (n := length pts) in *.
    assert (Hseq : seq 0 (n - 2) = seq 0 (n - 3) ++ [(n - 3)%nat]).
    { replace (n - 2)%nat with ((n - 3) + 1)%nat by lia. now rewrite seq_app. }
    rewrite Hseq, windows_app.
    destruct (windows_plain n (seq 0 (n - 3)) pts) as (H1 & _ & H3).
    specialize (H3 ltac:(apply Forall_forall; intros i Hi; apply elem_of_seq in Hi; lia)).
    rewrite length_seq in H3.
    destruct (windows n false (seq 0 (n - 3)) pts) as [[res pts1] cs1].
    cbn [snd] in H1, H3.
    destruct res as [e | []].
    + exists cs1. cbn [fst snd vsk]. rewrite calls_play. repeat split; auto. lia.
    + destruct (windows_plain n [(n - 3)%nat] pts1) as (J1 & J2 & _).
      destruct (windows n false [(n - 3)%nat] pts1) as [[res' pts2] cs2].
      cbn [snd length] in J1, J2.
      exists (cs1 ++ cs2). cbn [fst snd vsk]. rewrite calls_play, length_app.
      repeat split; auto; [apply Forall_app; split; assumption | lia].
Qed.

End Plain.

(** ** Exact arithmetic: the radii to the tangent points *)

Section Radii.
Local Open Scope R_scope.

Variables u v : R * R.
Hypothesis Hu : u.1 * u.1 + u.2 * u.2 = 1.
Hypothesis Hv : v.1 * v.1 + v.2 * v.2 = 1.

Let theta := acos (clamp (u.1 * - v.1 + u.2 * - v.2)).
Hypothesis Hth : 1e-10 <= theta <= PI - 1e-10.

Let c := cos (theta / 2).
Let s := sin (theta / 2).

Variables r gx gy : R.
Let t := r / tan (theta / 2).
Let dd := r / s.
Let w := ((bisector_sum u v).1 / (2 * c), (bisector_sum u v).2 / (2 * c)).
Let a := (gx - t * u.1, gy - t * u.2).
Let b := (gx + t * v.1, gy + t * v.2).
Let o := (gx + dd * w.1, gy + dd * w.2).

(** The radius to [a] is perpendicular to the incoming segment ... *)
Lemma radius_perp_a : (o.1 - a.1) * u.1 + (o.2 - a.2) * u.2 = 0.
Proof.
  destruct (cs_pos u v Hth) as (Hs & Hc & Hcs). fold theta c s in Hs, Hc, Hcs.
  assert (Hwu : w.1 * u.1 + w.2 * u.2 = - c) by exact (w_dot_u u v Hu Hv Hth).
  assert (Ht : t = r * c / s) by exact (t_eq u v Hth r).
  unfold o, a; cbn [fst snd].
  transitivity (dd * (w.1 * u.1 + w.2 * u.2) + t * (u.1 * u.1 + u.2 * u.2)); [ring |].
  rewrite Hwu, Hu, Ht. unfold dd. field. lra.
Qed.

(** ... and the radius to [b] to the outgoing one. *)
Lemma radius_perp_b : (o.1 - b.1) * v.1 + (o.2 - b.2) * v.2 = 0.
Proof.
  destruct (cs_pos u v Hth) as (Hs & Hc & Hcs). fold theta c s in Hs, Hc, Hcs.
  assert (Hwv : w.1 * v.1 + w.2 * v.2 = c) by exact (w_dot_v u v Hu Hv Hth).
  assert (Ht : t = r * c / s) by exact (t_eq u v Hth r).
  unfold o, b; cbn [fst snd].
  transitivity (dd * (w.1 * v.1 + w.2 * v.2) - t * (v.1 * v.1 + v.2 * v.2)); [ring |].
  rewrite Hwv, Hv, Ht. unfold dd. field. lra.
Qed.

Lemma radius_sq_a : (a.1 - o.1) * (a.1 - o.1) + (a.2 - o.2) * (a.2 - o.2) = r * r.
Proof.
  pose proof (center_to_a u v Hu Hv Hth r gx gy) as H. cbv zeta in H.
  fold theta in H. fold c s in H. fold t dd w in H. fold a o in H.
  rewrite <- H. ring.
Qed.

Lemma radius_sq_b : (b.1 - o.1) * (b.1 - o.1) + (b.2 - o.2) * (b.2 - o.2) = r * r.
Proof.
  pose proof (center_to_b u v Hu Hv Hth r gx gy) as H. cbv zeta in H.
  fold theta in H. fold c s in H. fold t dd w in H. fold b o in H.
  rewrite <- H. ring.
Qed.

(** The two radii enclose the angle [PI - theta]. *)
Lemma radii_dot :
  (a.1 - o.1) * (b.1 - o.1) + (a.2 - o.2) * (b.2 - o.2) = r * r * cos (PI - theta).
Proof.
  destruct (cs_pos u v Hth) as (Hs & Hc & Hcs). fold theta c s in Hs, Hc, Hcs.
  assert (Hwu : w.1 * u.1 + w.2 * u.2 = - c) by exact (w_dot_u u v Hu Hv Hth).
  assert (Hwv : w.1 * v.1 + w.2 * v.2 = c) by exact (w_dot_v u v Hu Hv Hth).
  assert (Hww : w.1 * w.1 + w.2 * w.2 = 1) by exact (w_unit u v Hu Hv Hth).
  assert (Ht : t = r * c / s) by exact (t_eq u v Hth r).
  assert (Hd : u.1 * - v.1 + u.2 * - v.2 = 2 * c * c - 1)
    by exact (dot_half_angle u v Hu Hv).
  assert (Hct : cos theta = u.1 * - v.1 + u.2 * - v.2) by exact (cos_theta u v Hu Hv).
  rewrite Rtrigo_facts.cos_pi_minus, Hct, Hd.
  unfold o, a, b; cbn [fst snd].
  transitivity (- (t * t) * (u.1 * v.1 + u.2 * v.2)
                + t * dd * (w.1 * u.1 + w.2 * u.2)
                - dd * t * (w.1 * v.1 + w.2 * v.2)
                + dd * dd * (w.1 * w.1 + w.2 * w.2)); [ring |].
  rewrite Hwu, Hwv, Hww, Ht.
  replace (u.1 * v.1 + u.2 * v.2) with (1 - 2 * c * c) by lra.
  unfold dd. field_simplify_eq; [| lra].
  replace (s ^ 2) with (1 - c * c) by lra. ring.
Qed.

Lemma radii_cross :
  (a.1 - o.1) * (b.2 - o.2) - (a.2 - o.2) * (b.1 - o.1)
  = r * r * (u.1 * v.2 - u.2 * v.1).
Proof. exact (cross_z_bisector u v Hth r gx gy). Qed.

End Radii.

Section Polar.
Local Open Scope R_scope.

(** [atan2 y x] is the polar angle of [(x, y)]. *)
Lemma atan2_polar (y x : R) :
  x = norm (x, y) * cos (atan2 y x) /\ y = norm (x, y) * sin (atan2 y x).
Proof.
  pose proof (atan2_ray y x) as Hray.
  assert (Hpos : 0 <= x * cos (atan2 y x) + y * sin (atan2 y x)).
  { unfold atan2.
    assert (Hat : forall z, sin (atan z) = z * cos (atan z) /\ 0 < cos (atan z)).
    { intros z. pose proof (atan_bound z).
      assert (0 < cos (atan z)) by (apply cos_gt_0; lra).
      split; [| assumption].
      rewrite <- (tan_atan z) at 2. unfold tan. field. lra. }
    destruct (Rlt_dec 0 x) as [Hx | Hx].
    - destruct (Hat (y / x)) as [-> Hc].
      replace (x * cos (atan (y / x)) + y * (y / x * cos (atan (y / x))))
        with (cos (atan (y / x)) * ((x * x + y * y) / x)) by (field; lra).
      apply Rmult_le_pos; [lra |].
      apply Rmult_le_pos; [nra | left; apply Rinv_0_lt_compat; lra].
    - destruct (Rlt_dec x 0) as [Hx' | Hx'].
      + destruct (Hat (y / x)) as [Hs Hc].
        assert (Hq : 0 <= cos (atan (y / x)) * ((x * x + y * y) / - x)).
        { apply Rmult_le_pos; [lra |].
          apply Rmult_le_pos; [nra | left; apply Rinv_0_lt_compat; lra]. }
        destruct (Rle_dec 0 y) as [Hy | Hy].
        * rewrite neg_sin, neg_cos, Hs.
          replace (x * - cos (atan (y / x)) + y * - (y / x * cos (atan (y / x))))
            with (cos (atan (y / x)) * ((x * x + y * y) / - x)) by (field; lra).
          exact Hq.
        * replace (atan (y / x) - PI) with (- (PI - atan (y / x))) by ring.
          rewrite sin_neg, cos_neg, sin_PI_x, Rtrigo_facts.cos_pi_minus, Hs.
          replace (x * - cos (atan (y / x)) + y * - (y / x * cos (atan (y / x))))
            with (cos (atan (y / x)) * ((x * x + y * y) / - x)) by (field; lra).
          exact Hq.
      + assert (x = 0) by lra. subst x.
        destruct (Rlt_dec 0 y); [rewrite sin_PI2; lra |].
        destruct (Rlt_dec y 0); [rewrite sin_neg, sin_PI2; lra |].
        rewrite sin_0. lra. }
  set (phi := atan2 y x) in *.
  pose proof (sin2_cos2 phi) as Hsc. unfold Rsqr in Hsc.
  set (l := x * cos phi + y * sin phi) in *.
  assert (Hx : x = l * cos phi).
  { unfold l.
    transitivity (x * (sin phi * sin phi + cos phi * cos phi)); [rewrite Hsc; ring |].
    transitivity (x * (cos phi * cos phi) + (x * sin phi) * sin phi); [ring |].
    rewrite Hray. ring. }
  assert (Hy : y = l * sin phi).
  { unfold l.
    transitivity (y * (sin phi * sin phi + cos phi * cos phi)); [rewrite Hsc; ring |].
    transitivity (y * (sin phi * sin phi) + (y * cos phi) * cos phi); [ring |].
    rewrite <- Hray. ring. }
  assert (Hn : norm (x, y) = l).
  { apply norm_eq; [exact Hpos |]. cbn [fst snd].
    transitivity (l * cos phi * (l * cos phi) + l * sin phi * (l * sin phi));
      [rewrite <- Hx, <- Hy; ring |].
    transitivity (l * l * (sin phi * sin phi + cos phi * cos phi)); [ring |].
    rewrite Hsc. ring. }
  rewrite Hn. split; assumption.
Qed.

Lemma sin_neg_range (x : R) : - PI <= x <= 0 -> sin x <= 0.
Proof.
  intros H. replace x with (- - x) by ring. rewrite sin_neg.
  assert (0 <= sin (- x)) by (apply sin_ge_0; lra). lra.
Qed.

Lemma cos_2PI_shift (x : R) : cos (x + 2 * PI) = cos x /\ sin (x + 2 * PI) = sin x.
Proof.
  rewrite cos_plus, sin_plus, cos_2PI, sin_2PI. split; ring.
Qed.

(** Lines 147-169 for two points at the same distance [rho] from [c] that
    are not aligned with it: the arc runs with increasing angle, over less
    than a half turn, between the two points. *)
Lemma arc_angles_sweep (a b c : R * R) (rho : R) :
  0 < rho -> dist a c = rho -> dist b c = rho ->
  let X := (a.1 - c.1) * (b.2 - c.2) - (a.2 - c.2) * (b.1 - c.1) in
  let D := (a.1 - c.1) * (b.1 - c.1) + (a.2 - c.2) * (b.2 - c.2) in
  let on_arc := fun phi => (c.1 + rho * cos phi, c.2 + rho * sin phi) in
  let angles := arc_angles a b c in
  X <> 0 ->
  0 < angles.2 - angles.1 < PI /\
  rho * rho * cos (angles.2 - angles.1) = D /\
  (0 < X -> on_arc angles.1 = a /\ on_arc angles.2 = b) /\
  (X < 0 -> on_arc angles.1 = b /\ on_arc angles.2 = a).
Proof.
  intros Hrho Ha Hb X D on_arc angles HX.
  pose proof PI_RGT_0 as Hpi.
  destruct (atan2_polar (a.2 - c.2) (a.1 - c.1)) as [Hax Hay].
  destruct (atan2_polar (b.2 - c.2) (b.1 - c.1)) as [Hbx Hby].
  unfold dist in Ha, Hb. rewrite Ha in Hax, Hay. rewrite Hb in Hbx, Hby.
  pose proof (atan2_range (a.2 - c.2) (a.1 - c.1)) as Hra.
  pose proof (atan2_range (b.2 - c.2) (b.1 - c.1)) as Hrb.
  subst angles. rewrite arc_angles_R. cbv zeta. cbn [fst snd].
  fold X.
  set (pa := atan2 (a.2 - c.2) (a.1 - c.1)) in *.
  set (pb := atan2 (b.2 - c.2) (b.1 - c.1)) in *.
  assert (HXs : X = rho * rho * sin (pb - pa)).
  { unfold X. rewrite sin_minus. rewrite Hax, Hay, Hbx, Hby. ring. }
  assert (HDc : D = rho * rho * cos (pb - pa)).
  { unfold D. rewrite cos_minus. rewrite Hax, Hay, Hbx, Hby. ring. }
  assert (Hoa : on_arc pa = a).
  { unfold on_arc. rewrite <- Hax, <- Hay. destruct a as [a1 a2]; cbn [fst snd].
    f_equal; ring. }
  assert (Hob : on_arc pb = b).
  { unfold on_arc. rewrite <- Hbx, <- Hby. destruct b as [b1 b2]; cbn [fst snd].
    f_equal; ring. }
  assert (Hshift : forall phi, on_arc (phi + 2 * PI) = on_arc phi).
  { intros phi. unfold on_arc. destruct (cos_2PI_shift phi) as [-> ->]. reflexivity. }
  assert (Hrr : 0 < rho * rho) by nra.
  (* [s'] and [e'] are the two angles after the swap of line 162 *)
  assert (Hmain : forall s' e' : R,
            - PI < s' <= PI -> - PI < e' <= PI -> 0 < sin (e' - s') ->
            let e := if Rltb PI (Rabs (e' - s'))
                     then if Rltb s' e' then e' - 2 * PI else e' + 2 * PI
                     else e' in
            0 < e - s' < PI /\ cos (e - s') = cos (e' - s') /\ on_arc e = on_arc e').
  { intros s' e' Hs' He' Hsin. cbv zeta.
    destruct (Rltb PI (Rabs (e' - s'))) eqn:Hbig.
    - apply Rltb_true in Hbig.
      destruct (Rltb s' e') eqn:Hord.
      + apply Rltb_true in Hord. exfalso.
        rewrite Rabs_right in Hbig by lra.
        assert (sin (e' - s') <= 0) by (apply sin_le_0; lra). lra.
      + apply Rltb_false in Hord.
        rewrite Rabs_left1 in Hbig by lra.
        split; [lra |]. split.
        * replace (e' + 2 * PI - s') with (e' - s' + 2 * PI) by ring.
          apply cos_2PI_shift.
        * apply Hshift.
    - apply Rltb_false in Hbig.
      split; [| split; reflexivity].
      assert (Hab : - PI <= e' - s' <= PI).
      { revert Hbig. unfold Rabs. destruct (Rcase_abs _); lra. }
      destruct (Rle_dec (e' - s') 0) as [Hle | Hgt].
      + pose proof (sin_neg_range (e' - s') ltac:(lra)). lra.
      + split; [lra |].
        destruct (Req_dec (e' - s') PI) as [Heq | Hne]; [| lra].
        rewrite Heq, sin_PI in Hsin. lra. }
  destruct (Rltb X 0) eqn:Hneg.
  - apply Rltb_true in Hneg.
    assert (Hsin : 0 < sin (pa - pb)).
    { replace (pa - pb) with (- (pb - pa)) by ring. rewrite sin_neg. nra. }
    destruct (Hmain pb pa Hrb Hra Hsin) as (H1 & H2 & H3). cbv zeta in H1, H2, H3.
    split; [exact H1 |]. split.
    + rewrite H2, HDc. replace (pa - pb) with (- (pb - pa)) by ring.
      now rewrite cos_neg.
    + split; [intros; lra |]. intros _. rewrite H3. split; assumption.
  - apply Rltb_false in Hneg.
    assert (Hsin : 0 < sin (pb - pa)) by nra.
    destruct (Hmain pa pb Hra Hrb Hsin) as (H1 & H2 & H3). cbv zeta in H1, H2, H3.
    split; [exact H1 |]. split.
    + rewrite H2, HDc. reflexivity.
    + split; [| intros; lra]. intros _. rewrite H3. split; assumption.
Qed.

End Polar.

Section CornerGeometry.
Local Open Scope R_scope.

(** X5. In exact arithmetic a window is rounded exactly when both
    segments are at least [1e-10] long and the interior angle lies in
    [[1e-10, PI - 1e-10]], the bounds included, and it is skipped exactly
    otherwise.  The radius has no part in this: with any other radius at
    the corner (zero, negative, too large for the segments) the same
    window is rounded. *)
Theorem rounded_iff (A g B : point R) :
  let ok := 1e-10 <= seg_length A g /\ 1e-10 <= seg_length g B /\
            1e-10 <= angle_at A g B <= PI - 1e-10 in
  ((exists k, tangent_circle A g B = inr (Some k)) <-> ok) /\
  (tangent_circle A g B = inr None <-> ~ ok) /\
  forall r' : R,
    (exists k, tangent_circle A g B = inr (Some k)) <->
    (exists k', tangent_circle A (px g, py g, r') B = inr (Some k')).
Proof.
  cbv zeta.
  assert (Hiff : forall g0 : point R,
            (exists k, tangent_circle A g0 B = inr (Some k)) <->
            1e-10 <= seg_length A g0 /\ 1e-10 <= seg_length g0 B /\
            1e-10 <= angle_at A g0 B <= PI - 1e-10).
  { intros g0. split.
    - intros [k Hk]. destruct (tangent_circle_Some A g0 B k Hk) as (H1 & H2 & H3 & _).
      auto.
    - intros (H1 & H2 & H3). eexists.
      eapply tangent_circle_R.
      + apply unit_vectors_long; assumption.
      + apply interior_angle_dirs.
      + apply angle_skipped_R. exact H3.
      + apply bisector_R. }
  split; [apply Hiff |]. split.
  - split.
    + intros Hn Hok. apply Hiff in Hok. destruct Hok as [k Hk]. congruence.
    + intros Hn. apply tangent_circle_skip.
      destruct (Rlt_dec (seg_length A g) 1e-10); [auto |].
      destruct (Rlt_dec (seg_length g B) 1e-10); [auto |].
      destruct (Rlt_dec (angle_at A g B) 1e-10); [auto |].
      destruct (Rlt_dec (PI - 1e-10) (angle_at A g B)); [auto |].
      exfalso. apply Hn. lra.
  - intros r'. rewrite !Hiff. reflexivity.
Qed.

(** A rounded corner whose bisector is the normalised sum. *)
Lemma rounded_bisector_form (A g B : point R) (k : corner R) :
  tangent_circle A g B = inr (Some k) ->
  1e-10 <= norm (bisector_sum (unit_dir A g) (unit_dir g B)) ->
  let u := unit_dir A g in
  let v := unit_dir g B in
  let theta := acos (clamp (u.1 * - v.1 + u.2 * - v.2)) in
  let t := pr g / tan (theta / 2) in
  let d := pr g / sin (theta / 2) in
  let w := ((bisector_sum u v).1 / (2 * cos (theta / 2)),
            (bisector_sum u v).2 / (2 * cos (theta / 2))) in
  u.1 * u.1 + u.2 * u.2 = 1 /\ v.1 * v.1 + v.2 * v.2 = 1 /\
  1e-10 <= theta <= PI - 1e-10 /\
  k = mkCorner (px g - t * u.1, py g - t * u.2)
               (px g + t * v.1, py g + t * v.2)
               (px g + d * w.1, py g + d * w.2) w.
Proof.
  intros Hk Hbis. cbv zeta.
  destruct (tangent_circle_Some A g B k Hk) as (HA & HB & Hth & Hw & Ha & Hb & Hc).
  unfold angle_at in *. cbv zeta in *.
  set (u := unit_dir A g) in *. set (v := unit_dir g B) in *.
  assert (Hu : u.1 * u.1 + u.2 * u.2 = 1) by (apply unit_dir_unit; lra).
  assert (Hv : v.1 * v.1 + v.2 * v.2 = 1) by (apply unit_dir_unit; lra).
  pose proof (bisector_sum_norm u v Hu Hv) as Hn.
  rewrite bisector_R in Hw. cbv zeta in Hw.
  apply Rltb_false in Hbis. rewrite Hbis in Hw. rewrite Hn in Hw.
  injection Hw as Hw.
  repeat split; try lra.
  destruct k as [ka kb kc kw]; cbn [tangent_a tangent_b center bisector_unit] in *.
  subst kw. rewrite Ha, Hb, Hc. reflexivity.
Qed.

(** X6. For a rounded corner whose bisector is the normalised sum, and
    any radius [r] (also zero or negative): the segment from the center to
    the tangent point [a] is perpendicular to the incoming segment, the
    one from the center to [b] to the outgoing segment, and both have the
    length [|r|].  The circle of lines 122-128 touches the two lines at
    [a] and [b]. *)
Theorem circle_is_tangent (A g B : point R) (k : corner R) :
  tangent_circle A g B = inr (Some k) ->
  1e-10 <= norm (bisector_sum (unit_dir A g) (unit_dir g B)) ->
  let u := unit_dir A g in
  let v := unit_dir g B in
  let a := tangent_a k in
  let b := tangent_b k in
  let c := center k in
  (c.1 - a.1) * u.1 + (c.2 - a.2) * u.2 = 0 /\
  (c.1 - b.1) * v.1 + (c.2 - b.2) * v.2 = 0 /\
  dist c a = Rabs (pr g) /\ dist c b = Rabs (pr g).
Proof.
  intros Hk Hbis. cbv zeta.
  destruct (rounded_bisector_form A g B k Hk Hbis) as (Hu & Hv & Hth & ->).
  cbn [tangent_a tangent_b center].
  split; [exact (radius_perp_a _ _ Hu Hv Hth (pr g) (px g) (py g)) |].
  split; [exact (radius_perp_b _ _ Hu Hv Hth (pr g) (px g) (py g)) |].
  assert (Hsq : Rabs (pr g) * Rabs (pr g) = pr g * pr g).
  { pose proof (Rsqr_abs (pr g)) as H. unfold Rsqr in H. lra. }
  split; unfold dist; (apply norm_eq; [apply Rabs_pos |]); rewrite Hsq.
  - exact (center_to_a _ _ Hu Hv Hth (pr g) (px g) (py g)).
  - exact (center_to_b _ _ Hu Hv Hth (pr g) (px g) (py g)).
Qed.

(** X7. For a rounded corner whose bisector is the normalised sum, and a
    radius that is not [0]: the end angle handed to [vsk.arc] is above the
    start angle by exactly [PI - theta], for the interior angle [theta];
    the points of the circle at these two angles are the tangent points,
    [a] at the start and [b] at the end when the cross product of the two
    directions is positive, [b] at the start and [a] at the end when it is
    negative. *)
Theorem arc_sweep (A g B : point R) (k : corner R) :
  tangent_circle A g B = inr (Some k) ->
  1e-10 <= norm (bisector_sum (unit_dir A g) (unit_dir g B)) ->
  pr g <> 0 ->
  let u := unit_dir A g in
  let v := unit_dir g B in
  let a := tangent_a k in
  let b := tangent_b k in
  let c := center k in
  let angles := arc_angles a b c in
  let on_arc := fun phi => (c.1 + Rabs (pr g) * cos phi, c.2 + Rabs (pr g) * sin phi) in
  angles.2 - angles.1 = PI - angle_at A g B /\
  (0 < u.1 * v.2 - u.2 * v.1 -> on_arc angles.1 = a /\ on_arc angles.2 = b) /\
  (u.1 * v.2 - u.2 * v.1 < 0 -> on_arc angles.1 = b /\ on_arc angles.2 = a).
Proof.
  intros Hk Hbis Hr. cbv zeta.
  destruct (rounded_bisector_form A g B k Hk Hbis) as (Hu & Hv & Hth & ->).
  cbn [tangent_a tangent_b center].
  unfold angle_at. cbv zeta.
  set (u := unit_dir A g) in *. set (v := unit_dir g B) in *.
  set (theta := acos (clamp (u.1 * - v.1 + u.2 * - v.2))) in *.
  pose proof (radius_sq_a u v Hu Hv Hth (pr g) (px g) (py g)) as Hsa.
  pose proof (radius_sq_b u v Hu Hv Hth (pr g) (px g) (py g)) as Hsb.
  pose proof (radii_dot u v Hu Hv Hth (pr g) (px g) (py g)) as Hdot.
  pose proof (radii_cross u v Hth (pr g) (px g) (py g)) as Hcross.
  pose proof (cross_uv_nonzero u v Hu Hv Hth) as Hx.
  cbv zeta in Hsa, Hsb, Hdot, Hcross. fold theta in Hsa, Hsb, Hdot, Hcross.
  set (a := (px g - pr g / tan (theta / 2) * u.1, py g - pr g / tan (theta / 2) * u.2)) in *.
  set (b := (px g + pr g / tan (theta / 2) * v.1, py g + pr g / tan (theta / 2) * v.2)) in *.
  set (c := (px g + pr g / sin (theta / 2) *
               ((bisector_sum u v).1 / (2 * cos (theta / 2)),
                (bisector_sum u v).2 / (2 * cos (theta / 2))).1,
             py g + pr g / sin (theta / 2) *
               ((bisector_sum u v).1 / (2 * cos (theta / 2)),
                (bisector_sum u v).2 / (2 * cos (theta / 2))).2)) in *.
  assert (Hsq : Rabs (pr g) * Rabs (pr g) = pr g * pr g).
  { pose proof (Rsqr_abs (pr g)) as H. unfold Rsqr in H. lra. }
  assert (Hrho : 0 < Rabs (pr g)) by (apply Rabs_pos_lt; exact Hr).
  assert (Hda : dist a c = Rabs (pr g)).
  { unfold dist. apply norm_eq; [lra |]. cbn [fst snd]. rewrite Hsq. exact Hsa. }
  assert (Hdb : dist b c = Rabs (pr g)).
  { unfold dist. apply norm_eq; [lra |]. cbn [fst snd]. rewrite Hsq. exact Hsb. }
  assert (Hrr : 0 < pr g * pr g) by nra.
  assert (HX : (a.1 - c.1) * (b.2 - c.2) - (a.2 - c.2) * (b.1 - c.1) <> 0).
  { rewrite Hcross. apply Rmult_integral_contrapositive_currified; [lra | exact Hx]. }
  destruct (arc_angles_sweep a b c (Rabs (pr g)) Hrho Hda Hdb HX)
    as (Hrange & Hcos & Hpos & Hneg).
  cbv zeta in Hrange, Hcos, Hpos, Hneg.
  split.
  - apply cos_inj; [lra | lra |].
    rewrite Hdot, Hsq in Hcos.
    apply Rmult_eq_reg_l with (pr g * pr g); [exact Hcos | lra].
  - rewrite Hcross in Hpos, Hneg. split; intros H.
    + apply Hpos. nra.
    + apply Hneg. nra.
Qed.

(** X8. The radius is not clamped to the segments.  For a rounded
    corner with the tangent distance [t = r / tan (theta / 2)], the
    tangent point [a] lies on the incoming segment exactly when
    [0 <= t <= |Ag|], and [b] on the outgoing segment exactly when
    [0 <= t <= |gB|]: with a larger or a negative radius the tangent point
    is outside the segment, and the corner is rounded all the same. *)
Theorem tangent_point_on_segment_iff (A g B : point R) (k : corner R) :
  tangent_circle A g B = inr (Some k) ->
  let t := pr g / tan (angle_at A g B / 2) in
  (on_segment (tangent_a k) (pos A) (pos g) <-> 0 <= t <= seg_length A g) /\
  (on_segment (tangent_b k) (pos g) (pos B) <-> 0 <= t <= seg_length g B).
Proof.
  intros Hk t.
  destruct (tangent_circle_Some A g B k Hk) as (HA & HB & Hth & _ & Ha & Hb & _).
  cbv zeta in Ha, Hb. fold t in Ha, Hb. rewrite Ha, Hb.
  pose proof (norm_sq (px g - px A, py g - py A)) as HnA.
  pose proof (norm_sq (px B - px g, py B - py g)) as HnB.
  fold (seg_length A g) in HnA. fold (seg_length g B) in HnB. cbn [fst snd] in HnA, HnB.
  unfold on_segment, unit_dir, pos. cbn [fst snd].
  set (LA := seg_length A g) in *. set (LB := seg_length g B) in *.
  split; split.
  - intros (l & Hl & Heq). injection Heq as Hx Hy.
    assert (Hm : 1 - t / LA - l = 0).
    { set (m := 1 - t / LA - l).
      assert (Hmx : m * (px g - px A) = 0).
      { unfold m.
        transitivity (px g - t * ((px g - px A) / LA) - (px A + l * (px g - px A))).
        - field; lra.
        - rewrite Hx. ring. }
      assert (Hmy : m * (py g - py A) = 0).
      { unfold m.
        transitivity (py g - t * ((py g - py A) / LA) - (py A + l * (py g - py A))).
        - field; lra.
        - rewrite Hy. ring. }
      assert (Hmm : m * m * (LA * LA) = 0).
      { rewrite HnA.
        transitivity (m * (px g - px A) * (m * (px g - px A))
                      + m * (py g - py A) * (m * (py g - py A))); [ring |].
        rewrite Hmx, Hmy. ring. }
      assert (0 < LA * LA) by nra.
      apply Rmult_integral in Hmm. destruct Hmm as [Hmm | Hmm]; [| lra].
      apply Rmult_integral in Hmm. tauto. }
    assert (Ht : t = (1 - l) * LA).
    { apply Rminus_diag_uniq in Hm. field_simplify_eq in Hm; lra. }
    nra.
  - intros Ht. exists (1 - t / LA). split.
    + assert (0 <= t / LA) by (apply Rmult_le_pos; [lra | left; apply Rinv_0_lt_compat; lra]).
      assert (t / LA <= 1).
      { apply Rmult_le_reg_r with LA; [lra |].
        unfold Rdiv. rewrite Rmult_assoc, Rinv_l by lra. lra. }
      lra.
    + f_equal; field; lra.
  - intros (l & Hl & Heq). injection Heq as Hx Hy.
    assert (Hm : t / LB - l = 0).
    { set (m := t / LB - l).
      assert (Hmx : m * (px B - px g) = 0).
      { unfold m.
        transitivity (px g + t * ((px B - px g) / LB) - (px g + l * (px B - px g))).
        - field; lra.
        - rewrite Hx. ring. }
      assert (Hmy : m * (py B - py g) = 0).
      { unfold m.
        transitivity (py g + t * ((py B - py g) / LB) - (py g + l * (py B - py g))).
        - field; lra.
        - rewrite Hy. ring. }
      assert (Hmm : m * m * (LB * LB) = 0).
      { rewrite HnB.
        transitivity (m * (px B - px g) * (m * (px B - px g))
                      + m * (py B - py g) * (m * (py B - py g))); [ring |].
        rewrite Hmx, Hmy. ring. }
      assert (0 < LB * LB) by nra.
      apply Rmult_integral in Hmm. destruct Hmm as [Hmm | Hmm]; [| lra].
      apply Rmult_integral in Hmm. tauto. }
    assert (Ht : t = l * LB).
    { apply Rminus_diag_uniq in Hm. rewrite <- Hm. field. lra. }
    nra.
  - intros Ht. exists (t / LB). split.
    + assert (0 <= t / LB) by (apply Rmult_le_pos; [lra | left; apply Rinv_0_lt_compat; lra]).
      assert (t / LB <= 1).
      { apply Rmult_le_reg_r with LB; [lra |].
        unfold Rdiv. rewrite Rmult_assoc, Rinv_l by lra. lra. }
      lra.
    + f_equal; field; lra.
Qed.

End CornerGeometry.

(** ** Sharp corners, and drawing twice *)

Section Sharp.
Local Open Scope R_scope.

Lemma arc_angles_point (p : R * R) : arc_angles p p p = (0, 0).
Proof.
  rewrite arc_angles_R. cbv zeta.
  replace (p.1 - p.1) with 0 by ring. replace (p.2 - p.2) with 0 by ring.
  rewrite atan2_origin.
  replace (0 * 0 - 0 * 0) with 0 by ring.
  assert (Hc : Rltb 0 0 = false) by (apply Rltb_false; lra).
  rewrite Hc. replace (0 - 0) with 0 by ring. rewrite Rabs_R0.
  assert (Hp : Rltb PI 0 = false) by (apply Rltb_false; pose proof PI_RGT_0; lra).
  now rewrite Hp.
Qed.

(** A corner of radius [0] that passes both tests: the tangent points and
    the center are the corner itself. *)
Lemma zero_radius_corner (A g B : point R) :
  pr g = 0 ->
  1e-10 <= seg_length A g -> 1e-10 <= seg_length g B ->
  1e-10 <= angle_at A g B <= PI - 1e-10 ->
  exists w, tangent_circle A g B = inr (Some (mkCorner (pos g) (pos g) (pos g) w)).
Proof.
  intros Hr HA HB Hth.
  pose proof (bisector_R (unit_dir A g) (unit_dir g B)) as Hw. cbv zeta in Hw.
  eexists.
  etransitivity;
    [exact (tangent_circle_R A g B _ _ _ _
              (unit_vectors_long A g B HA HB) (interior_angle_dirs A g B)
              (proj2 (angle_skipped_R _) Hth) Hw) |].
  cbv zeta. rewrite Hr. unfold pos, Rdiv. rewrite !Rmult_0_l.
  unfold Rminus. rewrite Ropp_0, !Rplus_0_r. reflexivity.
Qed.

Lemma windows_sharp (k : nat) :
  forall (a : nat) (pts : list (point R)),
    length pts = (a + k + 2)%nat ->
    (forall i A g B,
        pts !! i = Some A -> pts !! S i = Some g -> pts !! S (S i) = Some B ->
        pr g = 0 /\ 1e-10 <= seg_length A g /\ 1e-10 <= seg_length g B /\
        1e-10 <= angle_at A g B <= PI - 1e-10) ->
    windows (length pts) false (seq a k) pts = (inr tt, pts, sharp_path (drop a pts)).
Proof.
  induction k as [| k IH]; intros a pts Hlen Hall.
  - cbn [seq windows].
    assert (Hd : length (drop a pts) = 2%nat) by (rewrite length_drop; lia).
    destruct (drop a pts) as [| x [| y [| z l]]]; try discriminate. reflexivity.
  - destruct (lookup_lt_is_Some_2 pts a ltac:(lia)) as [A HA].
    destruct (lookup_lt_is_Some_2 pts (S a) ltac:(lia)) as [g Hg].
    destruct (lookup_lt_is_Some_2 pts (S (S a)) ltac:(lia)) as [B HB].
    destruct (Hall a A g B HA Hg HB) as (Hr & H1 & H2 & H3).
    destruct (zero_radius_corner A g B Hr H1 H2 H3) as [w Hk].
    cbn [seq].
    rewrite (windows_cons (length pts) false a (seq (S a) k) pts A g B _ HA Hg HB Hk).
    cbv zeta. cbn [tangent_b pos fst snd].
    assert (Hid : <[S a := (px g, py g, pr g)]> pts = pts).
    { apply list_insert_id. rewrite Hg. now destruct g as [[gx gy] gr]. }
    rewrite Hid.
    rewrite (IH (S a) pts ltac:(lia) Hall).
    rewrite (drop_S pts A a HA), (drop_S pts g (S a) Hg), (drop_S pts B (S (S a)) HB).
    assert (Hrest : length (drop (S (S (S a))) pts) = k) by (rewrite length_drop; lia).
    unfold window_calls, path_of_corner. cbn [tangent_a tangent_b center pos fst snd app].
    rewrite arc_angles_point. rsimpl. rewrite Hr, !Rmult_0_r.
    cbn [sharp_path app].
    destruct (drop (S (S (S a))) pts) as [| C rest] eqn:Hdrop.
    + cbn [length] in Hrest. subst k.
      rewrite bool_decide_eq_true_2 by lia. reflexivity.
    + cbn [length] in Hrest.
      rewrite bool_decide_eq_false_2 by lia. reflexivity.
Qed.

(** X9. A line set with [debug] unset whose windows all pass both tests
    and whose interior radii are all [0] is drawn as its polyline: for
    every window the line from its first to its middle point and an arc of
    size [0] at the middle point, then the line to the last point; the
    point list is left as it is. *)
Theorem zero_radii_draw_polyline (pts : list (point R)) (v : Vsketch R) :
  (forall i A g B,
      pts !! i = Some A -> pts !! S i = Some g -> pts !! S (S i) = Some B ->
      pr g = 0 /\ 1e-10 <= seg_length A g /\ 1e-10 <= seg_length g B /\
      1e-10 <= angle_at A g B <= PI - 1e-10) ->
  draw (mkWorld (mkSet pts false) v) =
    (inr tt, mkWorld (mkSet pts false) (play (sharp_path pts) v)).
Proof.
  intros Hall. rewrite draw_spec. cbn [self points debug vsk]. unfold draw_trace.
  destruct (decide _) as [Hlt | Hge].
  - destruct pts as [| x [| y [| z l]]]; cbn in Hlt; try lia; reflexivity.
  - rewrite (windows_sharp (length pts - 2) 0 pts ltac:(lia) Hall).
    rewrite drop_0. reflexivity.
Qed.

End Sharp.

Section Twice.
Local Open Scope R_scope.

(** X10. [draw] cannot be repeated.  On three points whose corner
    passes both tests, with a radius that is not [0] and a tangent
    distance other than the length of the incoming segment, [draw]
    changes the point list, and a second [draw] of the same line set on
    the same sketch does not make the calls of the first one. *)
Theorem draw_twice_differs (A g B : point R) (v : Vsketch R) :
  let t := pr g / tan (angle_at A g B / 2) in
  1e-10 <= seg_length A g ->
  1e-10 <= seg_length g B ->
  1e-10 <= angle_at A g B <= PI - 1e-10 ->
  pr g <> 0 ->
  t <> seg_length A g ->
  let first := draw (mkWorld (mkSet [A; g; B] false) v) in
  let second := draw (mkWorld (self first.2) v) in
  points (self first.2) <> [A; g; B] /\
  calls (vsk second.2) <> calls (vsk first.2).
Proof.
  intros t HA HB Hth Hr Ht. cbv zeta.
  pose proof (bisector_R (unit_dir A g) (unit_dir g B)) as Hw. cbv zeta in Hw.
  pose proof (tangent_circle_R A g B _ _ _ _
                (unit_vectors_long A g B HA HB) (interior_angle_dirs A g B)
                (proj2 (angle_skipped_R _) Hth) Hw) as Hk.
  cbv zeta in Hk. fold t in Hk.
  rewrite (draw_single_corner A g B _ v Hk).
  cbn [snd self points vsk tangent_a tangent_b center fst].
  set (u := unit_dir A g) in *. set (v0 := unit_dir g B) in *.
  assert (Hu : u.1 * u.1 + u.2 * u.2 = 1) by (apply unit_dir_unit; lra).
  assert (Hv : v0.1 * v0.1 + v0.2 * v0.2 = 1) by (apply unit_dir_unit; lra).
  pose proof (cross_uv_nonzero u v0 Hu Hv Hth) as Hx.
  destruct (half_angle_pos _ Hth) as (_ & _ & Htan).
  assert (Ht0 : t <> 0).
  { unfold t, Rdiv. apply Rmult_integral_contrapositive_currified; [exact Hr |].
    apply Rinv_neq_0_compat. lra. }
  pose proof (norm_sq (px g - px A, py g - py A)) as HnA.
  fold (seg_length A g) in HnA. cbn [fst snd] in HnA.
  set (LA := seg_length A g) in *.
  set (b := (px g + t * v0.1, py g + t * v0.2, pr g)).
  split.
  { intros Heq.
    assert (Hb : b = g) by congruence. unfold b in Hb.
    assert (Hz : t * v0.1 = 0 /\ t * v0.2 = 0).
    { assert (H1 : px g + t * v0.1 = px g) by exact (f_equal px Hb).
      assert (H2 : py g + t * v0.2 = py g) by exact (f_equal py Hb).
      split; lra. }
    destruct Hz as [Hz1 Hz2].
    apply Rmult_integral in Hz1, Hz2.
    destruct Hz1 as [? | Hz1]; [contradiction |].
    destruct Hz2 as [? | Hz2]; [contradiction |].
    rewrite Hz1, Hz2 in Hv. lra. }
  rewrite draw_spec. cbn [self points debug vsk]. unfold draw_trace.
  cbn [length]. destruct (decide (3 < 3)%nat) as [Hlt | _]; [lia |].
  change (seq 0 (3 - 2)) with [0%nat]. cbn [windows lookup list_lookup].
  cbv zeta.
  destruct (tangent_circle_total A b B) as [r2 Hr2]. rewrite Hr2.
  cbn [fst snd vsk]. rewrite !calls_play, app_nil_r.
  intros Heq. apply app_inv_head in Heq.
  unfold path_of_corner in Heq. cbn [tangent_a tangent_b center fst snd] in Heq.
  destruct (arc_angles _ _ _) as [sa ea].
  unfold window_calls in Heq. cbn [app] in Heq.
  destruct r2 as [k2 |]; [| discriminate].
  rewrite bool_decide_eq_true_2 in Heq by reflexivity.
  unfold path_of_corner in Heq.
  destruct (arc_angles (tangent_a k2) _ _) as [sa2 ea2].
  cbn [app] in Heq.
  apply (f_equal (fun cs => match cs with
                            | Line _ _ x2 y2 :: _ => (x2, y2)
                            | _ => (0, 0)
                            end)) in Heq.
  cbv beta iota in Heq. apply pair_equal_spec in Heq. destruct Heq as [Hax Hay].
  destruct (tangent_circle_Some A b B k2 Hr2) as (HAb & _ & _ & _ & Ha2 & _).
  cbv zeta in Ha2. rewrite Ha2 in Hax, Hay. cbn [fst snd] in Hax, Hay.
  set (t2 := pr b / tan (angle_at A b B / 2)) in *.
  pose proof (norm_sq (px b - px A, py b - py A)) as HnAb.
  fold (seg_length A b) in HnAb. cbn [fst snd] in HnAb.
  set (LAb := seg_length A b) in *.
  unfold unit_dir in Hax, Hay. fold LAb in Hax, Hay. cbn [fst snd] in Hax, Hay.
  assert (Hpxb : px b = px g + t * v0.1) by reflexivity.
  assert (Hpyb : py b = py g + t * v0.2) by reflexivity.
  rewrite Hpxb in *. rewrite Hpyb in *.
  assert (Hu1 : u.1 = (px g - px A) / LA) by reflexivity.
  assert (Hu2 : u.2 = (py g - py A) / LA) by reflexivity.
  set (dx := px g - px A) in *. set (dy := py g - py A) in *.
  set (m := 1 - t2 / LAb).
  set (n1 := 1 - t / LA).
  assert (E1 : m * (dx + t * v0.1) = n1 * dx).
  { unfold m, n1.
    transitivity (px g + t * v0.1 - t2 * ((px g + t * v0.1 - px A) / LAb) - px A);
      [unfold dx; field; lra |].
    rewrite Hax, Hu1. unfold dx. field. lra. }
  assert (E2 : m * (dy + t * v0.2) = n1 * dy).
  { unfold m, n1.
    transitivity (py g + t * v0.2 - t2 * ((py g + t * v0.2 - py A) / LAb) - py A);
      [unfold dy; field; lra |].
    rewrite Hay, Hu2. unfold dy. field. lra. }
  assert (Hcross : m * t * (v0.1 * dy - v0.2 * dx) = 0).
  { transitivity (m * (dx + t * v0.1) * dy - m * (dy + t * v0.2) * dx); [ring |].
    rewrite E1, E2. ring. }
  assert (Hxx : v0.1 * dy - v0.2 * dx <> 0).
  { intros H0. apply Hx. rewrite Hu1, Hu2.
    transitivity (- (v0.1 * dy - v0.2 * dx) / LA); [field; lra |].
    rewrite H0. field. lra. }
  assert (Hm : m = 0).
  { apply Rmult_integral in Hcross. destruct Hcross as [Hc | Hc]; [| contradiction].
    apply Rmult_integral in Hc. tauto. }
  rewrite Hm, !Rmult_0_l in E1, E2.
  assert (Hn1 : n1 * n1 * (LA * LA) = 0).
  { rewrite HnA. fold dx dy.
    transitivity (n1 * dx * (n1 * dx) + n1 * dy * (n1 * dy)); [ring |].
    rewrite <- E1, <- E2. ring. }
  assert (0 < LA * LA) by nra.
  apply Rmult_integral in Hn1. destruct Hn1 as [Hn1 | Hn1]; [| lra].
  assert (Hn0 : n1 = 0) by (apply Rmult_integral in Hn1; tauto).
  apply Ht. unfold n1 in Hn0.
  apply Rminus_diag_uniq in Hn0.
  transitivity (t / LA * LA); [field; lra |]. rewrite <- Hn0. ring.
Qed.

End Twice.

(** ** Symmetries *)

Section Symmetry.
Local Open Scope R_scope.

(** X11. A negative radius is accepted: with the radius [-r] at the
    corner, the tangent points and the center are those of the radius [r]
    mirrored through the corner, and the bisector is the same. *)
Theorem negative_radius_mirrors (A g B : point R) (k : corner R) :
  tangent_circle A g B = inr (Some k) ->
  let mirror := fun p : R * R => (2 * px g - p.1, 2 * py g - p.2) in
  tangent_circle A (px g, py g, - pr g) B =
    inr (Some (mkCorner (mirror (tangent_a k)) (mirror (tangent_b k))
                        (mirror (center k)) (bisector_unit k))).
Proof.
  intros Hk mirror.
  destruct (tangent_circle_Some A g B k Hk) as (HA & HB & Hth & Hw & Ha & Hb & Hc).
  cbv zeta in Ha, Hb, Hc.
  etransitivity;
    [exact (tangent_circle_R A (px g, py g, - pr g) B _ _ _ _
              (unit_vectors_long A (px g, py g, - pr g) B HA HB)
              (interior_angle_dirs A (px g, py g, - pr g) B)
              (proj2 (angle_skipped_R _) Hth) Hw) |].
  cbv zeta. unfold mirror. rewrite Ha, Hb, Hc.
  change (angle_at A (px g, py g, - pr g) B) with (angle_at A g B).
  change (unit_dir A (px g, py g, - pr g)) with (unit_dir A g).
  change (unit_dir (px g, py g, - pr g) B) with (unit_dir g B).
  change (px (px g, py g, - pr g)) with (px g).
  change (py (px g, py g, - pr g)) with (py g).
  change (pr (px g, py g, - pr g)) with (- pr g).
  cbn [fst snd].
  do 2 f_equal. f_equal; f_equal; unfold Rdiv; ring.
Qed.

Lemma norm_opp (x y : R) : norm (- x, - y) = norm (x, y).
Proof. unfold norm; cbn [fst snd]. f_equal. ring. Qed.

Lemma seg_length_sym (P Q : point R) : seg_length Q P = seg_length P Q.
Proof.
  unfold seg_length. rewrite <- norm_opp. f_equal. f_equal; ring.
Qed.

Lemma unit_dir_sym (P Q : point R) :
  unit_dir Q P = (- (unit_dir P Q).1, - (unit_dir P Q).2).
Proof.
  unfold unit_dir. rewrite (seg_length_sym P Q). cbn [fst snd].
  f_equal; unfold Rdiv; ring.
Qed.

Lemma arc_angles_swap (a b c : R * R) :
  (a.1 - c.1) * (b.2 - c.2) - (a.2 - c.2) * (b.1 - c.1) <> 0 ->
  arc_angles b a c = arc_angles a b c.
Proof.
  intros HX. rewrite !arc_angles_R. cbv zeta.
  replace ((b.1 - c.1) * (a.2 - c.2) - (b.2 - c.2) * (a.1 - c.1))
    with (- ((a.1 - c.1) * (b.2 - c.2) - (a.2 - c.2) * (b.1 - c.1))) by ring.
  set (X := (a.1 - c.1) * (b.2 - c.2) - (a.2 - c.2) * (b.1 - c.1)) in *.
  destruct (Rlt_dec X 0) as [Hneg | Hpos].
  - assert (H1 : Rltb X 0 = true) by (apply Rltb_true; lra).
    assert (H2 : Rltb (- X) 0 = false) by (apply Rltb_false; lra).
    rewrite H1, H2. reflexivity.
  - assert (H1 : Rltb X 0 = false) by (apply Rltb_false; lra).
    assert (H2 : Rltb (- X) 0 = true) by (apply Rltb_true; lra).
    rewrite H1, H2. reflexivity.
Qed.

(** X12. A corner seen from the other end.  For a rounded corner whose
    bisector is the normalised sum, the window [B, g, A] has the tangent
    points of [A, g, B] exchanged, the same center, the same bisector and
    the same two arc angles; [draw] on [[B; g; A]] makes the line from [B]
    to [b], this arc, and the line from [a] to [A], and stores [a] at the
    corner. *)
Theorem reversed_corner (A g B : point R) (k : corner R) :
  tangent_circle A g B = inr (Some k) ->
  1e-10 <= norm (bisector_sum (unit_dir A g) (unit_dir g B)) ->
  let a := tangent_a k in
  let b := tangent_b k in
  let c := center k in
  tangent_circle B g A = inr (Some (mkCorner b a c (bisector_unit k))) /\
  arc_angles b a c = arc_angles a b c /\
  forall s : Vsketch R,
    draw (mkWorld (mkSet [B; g; A] false) s) =
      (inr tt,
       mkWorld (mkSet [B; (a.1, a.2, pr g); A] false)
               (play [Line (px B) (py B) b.1 b.2;
                      Arc c.1 c.2 (2 * pr g) (- (2) * pr g)
                          (arc_angles a b c).1 (arc_angles a b c).2;
                      Line a.1 a.2 (px A) (py A)] s)).
Proof.
  intros Hk Hbis. cbv zeta.
  destruct (tangent_circle_Some A g B k Hk) as (HA & HB & Hth0 & _).
  destruct (rounded_bisector_form A g B k Hk Hbis) as (Hu & Hv & Hth & ->).
  cbn [tangent_a tangent_b center bisector_unit].
  set (u := unit_dir A g) in *. set (v := unit_dir g B) in *.
  set (theta := acos (clamp (u.1 * - v.1 + u.2 * - v.2))) in *.
  assert (Hu' : unit_dir B g = (- v.1, - v.2)) by apply unit_dir_sym.
  assert (Hv' : unit_dir g A = (- u.1, - u.2)) by apply unit_dir_sym.
  assert (Hth' : angle_at B g A = theta).
  { unfold angle_at. cbv zeta. rewrite Hu', Hv'. cbn [fst snd]. unfold theta.
    do 2 f_equal. ring. }
  assert (Hsum : bisector_sum (unit_dir B g) (unit_dir g A) = bisector_sum u v).
  { rewrite Hu', Hv', !bisector_sum_R. cbn [fst snd]. f_equal; ring. }
  pose proof (bisector_R (unit_dir B g) (unit_dir g A)) as Hw. cbv zeta in Hw.
  rewrite Hsum in Hw.
  pose proof Hbis as Hbis'. apply Rltb_false in Hbis'. rewrite Hbis' in Hw.
  assert (HB' : 1e-10 <= seg_length B g) by (rewrite seg_length_sym; exact HB).
  assert (HA' : 1e-10 <= seg_length g A) by (rewrite seg_length_sym; exact HA).
  assert (Hth'' : 1e-10 <= angle_at B g A <= PI - 1e-10) by (rewrite Hth'; exact Hth).
  pose proof (tangent_circle_R B g A _ _ _ _
                (unit_vectors_long B g A HB' HA')
                (interior_angle_dirs B g A)
                (proj2 (angle_skipped_R _) Hth'') Hw) as Hk'.
  cbv zeta in Hk'. rewrite Hth', Hu', Hv' in Hk'. cbn [fst snd] in Hk'.
  pose proof (bisector_sum_norm u v Hu Hv) as Hn. fold theta in Hn.
  rewrite Hn in Hk'.
  assert (E1 : (px g - pr g / tan (theta / 2) * - v.1, py g - pr g / tan (theta / 2) * - v.2)
               = (px g + pr g / tan (theta / 2) * v.1, py g + pr g / tan (theta / 2) * v.2))
    by (f_equal; ring).
  assert (E2 : (px g + pr g / tan (theta / 2) * - u.1, py g + pr g / tan (theta / 2) * - u.2)
               = (px g - pr g / tan (theta / 2) * u.1, py g - pr g / tan (theta / 2) * u.2))
    by (f_equal; ring).
  rewrite E1, E2 in Hk'. clear E1 E2.
  set (a := (px g - pr g / tan (theta / 2) * u.1, py g - pr g / tan (theta / 2) * u.2)) in *.
  set (b := (px g + pr g / tan (theta / 2) * v.1, py g + pr g / tan (theta / 2) * v.2)) in *.
  set (w := ((bisector_sum u v).1 / (2 * cos (theta / 2)),
             (bisector_sum u v).2 / (2 * cos (theta / 2)))) in *.
  set (c := (px g + pr g / sin (theta / 2) * w.1, py g + pr g / sin (theta / 2) * w.2)) in *.
  assert (Hk2 : tangent_circle B g A = inr (Some (mkCorner b a c w))) by exact Hk'.
  assert (Hswap : arc_angles b a c = arc_angles a b c).
  { destruct (Req_dec (pr g) 0) as [Hr0 | Hr].
    - assert (Eab : a = b).
      { unfold a, b. rewrite Hr0. unfold Rdiv. rewrite !Rmult_0_l.
        unfold Rminus. rewrite Ropp_0, !Rplus_0_r. reflexivity. }
      now rewrite Eab.
    - apply arc_angles_swap.
      pose proof (radii_cross u v Hth (pr g) (px g) (py g)) as Hcross.
      cbv zeta in Hcross. fold theta in Hcross.
      match goal with
      | |- ?X <> 0 =>
          replace X with (pr g * pr g * (u.1 * v.2 - u.2 * v.1))
            by (symmetry; exact Hcross)
      end.
      pose proof (cross_uv_nonzero u v Hu Hv Hth).
      apply Rmult_integral_contrapositive_currified; [nra | assumption]. }
  split; [exact Hk2 |]. split; [exact Hswap |].
  intros s.
  etransitivity; [exact (draw_single_corner B g A _ s Hk2) |].
  unfold path_of_corner. cbn [tangent_a tangent_b center].
  rewrite Hswap. destruct (arc_angles a b c) as [sa ea]. reflexivity.
Qed.

Lemma seg_length_shift (d : R * R) (P Q : point R) :
  seg_length (shift d P) (shift d Q) = seg_length P Q.
Proof.
  unfold seg_length, shift, px, py; cbn [fst snd]. f_equal. f_equal; ring.
Qed.

Lemma unit_dir_shift (d : R * R) (P Q : point R) :
  unit_dir (shift d P) (shift d Q) = unit_dir P Q.
Proof.
  unfold unit_dir. rewrite seg_length_shift.
  unfold shift, px, py; cbn [fst snd]. f_equal; f_equal; ring.
Qed.

Lemma angle_at_shift (d : R * R) (A g B : point R) :
  angle_at (shift d A) (shift d g) (shift d B) = angle_at A g B.
Proof. unfold angle_at. now rewrite !unit_dir_shift. Qed.

Lemma arc_angles_shift (d a b c : R * R) :
  arc_angles (a.1 + d.1, a.2 + d.2) (b.1 + d.1, b.2 + d.2) (c.1 + d.1, c.2 + d.2)
  = arc_angles a b c.
Proof.
  rewrite !arc_angles_R. cbv zeta. cbn [fst snd].
  replace (a.1 + d.1 - (c.1 + d.1)) with (a.1 - c.1) by ring.
  replace (a.2 + d.2 - (c.2 + d.2)) with (a.2 - c.2) by ring.
  replace (b.1 + d.1 - (c.1 + d.1)) with (b.1 - c.1) by ring.
  replace (b.2 + d.2 - (c.2 + d.2)) with (b.2 - c.2) by ring.
  reflexivity.
Qed.

(** Lines 67-169 on a window moved by [d]: the same outcome, with the
    tangent points and the center moved by [d], the same bisector and the
    same arc angles. *)
Lemma translation_invariant (d : R * R) (A g B : point R) :
  let move := fun p : R * R => (p.1 + d.1, p.2 + d.2) in
  tangent_circle (shift d A) (shift d g) (shift d B) =
    match tangent_circle A g B with
    | inr (Some k) =>
        inr (Some (mkCorner (move (tangent_a k)) (move (tangent_b k))
                            (move (center k)) (bisector_unit k)))
    | r => r
    end /\
  forall k, tangent_circle A g B = inr (Some k) ->
    arc_angles (move (tangent_a k)) (move (tangent_b k)) (move (center k))
    = arc_angles (tangent_a k) (tangent_b k) (center k).
Proof.
  intros move. split; [| intros k _; apply arc_angles_shift].
  destruct (tangent_circle A g B) as [e | [k |]] eqn:Hk.
  - destruct (tangent_circle_total A g B) as [r0 Hr0]. congruence.
  - destruct (tangent_circle_Some A g B k Hk) as (HA & HB & Hth & Hw & Ha & Hb & Hc).
    cbv zeta in Ha, Hb, Hc.
    rewrite <- (seg_length_shift d) in HA, HB.
    rewrite <- (angle_at_shift d) in Hth.
    rewrite <- (unit_dir_shift d A g), <- (unit_dir_shift d g B) in Hw.
    etransitivity;
      [exact (tangent_circle_R (shift d A) (shift d g) (shift d B) _ _ _ _
                (unit_vectors_long _ _ _ HA HB)
                (interior_angle_dirs _ _ _)
                (proj2 (angle_skipped_R _) Hth) Hw) |].
    cbv zeta. rewrite angle_at_shift, !unit_dir_shift. unfold move.
    rewrite Ha, Hb, Hc.
    change (px (shift d g)) with (px g + d.1).
    change (py (shift d g)) with (py g + d.2).
    change (pr (shift d g)) with (pr g).
    cbn [fst snd].
    do 2 f_equal. f_equal; f_equal; ring.
  - apply tangent_circle_skip.
    rewrite !seg_length_shift, angle_at_shift.
    destruct (Rlt_dec (seg_length A g) 1e-10); [auto |].
    destruct (Rlt_dec (seg_length g B) 1e-10); [auto |].
    destruct (Rlt_dec (angle_at A g B) 1e-10); [auto |].
    destruct (Rlt_dec (PI - 1e-10) (angle_at A g B)); [auto |].
    exfalso.
    assert (Hok : exists k, tangent_circle A g B = inr (Some k)).
    { eexists. eapply tangent_circle_R.
      - apply unit_vectors_long; lra.
      - apply interior_angle_dirs.
      - apply angle_skipped_R. lra.
      - apply bisector_R. }
    destruct Hok as [k Hk']. congruence.
Qed.

End Symmetry.

Section Translation.
Local Open Scope R_scope.

Variable d : R * R.

Lemma window_calls_shift (dbg last : bool) (A g B : point R) :
  window_calls dbg last (shift d A) (shift d g) (shift d B)
    (tangent_circle (shift d A) (shift d g) (shift d B))
  = shift_call d <$> window_calls dbg last A g B (tangent_circle A g B).
Proof.
  destruct (translation_invariant d A g B) as [Ht Harc]. cbv zeta in Ht, Harc.
  rewrite Ht. unfold window_calls.
  assert (Href : reference_calls (shift d A) (shift d g) (shift d B)
                 = shift_call d <$> reference_calls A g B) by reflexivity.
  destruct (tangent_circle A g B) as [e | [k |]] eqn:Hk.
  - rewrite !app_nil_r. destruct dbg; [exact Href | reflexivity].
  - rewrite fmap_app, fmap_app.
    f_equal; [destruct dbg; [exact Href | reflexivity] |].
    f_equal.
    + destruct dbg; [| reflexivity].
      unfold construction_calls, debug_block.
      cbn [tangent_a tangent_b center bisector_unit fst snd app fmap list_fmap shift_call].
      change (px (shift d g)) with (px g + d.1).
      change (py (shift d g)) with (py g + d.2).
      change (pr (shift d g)) with (pr g).
      rsimpl.
      replace (px g + d.1 + 0.5 * (bisector_unit k).1)
        with (px g + 0.5 * (bisector_unit k).1 + d.1) by ring.
      replace (py g + d.2 + 0.5 * (bisector_unit k).2)
        with (py g + 0.5 * (bisector_unit k).2 + d.2) by ring.
      reflexivity.
    + unfold path_of_corner. cbn [tangent_a tangent_b center].
      rewrite (Harc k eq_refl).
      destruct (arc_angles _ _ _) as [sa ea].
      destruct last; reflexivity.
  - rewrite !app_nil_r. destruct dbg; [exact Href | reflexivity].
Qed.

Lemma window_points_shift (i : nat) (g : point R) (A B : point R)
    (pts : list (point R)) :
  window_points i (shift d g) (tangent_circle (shift d A) (shift d g) (shift d B))
    (shift d <$> pts)
  = shift d <$> window_points i g (tangent_circle A g B) pts.
Proof.
  destruct (translation_invariant d A g B) as [Ht _]. cbv zeta in Ht.
  rewrite Ht. unfold window_points.
  destruct (tangent_circle A g B) as [e | [k |]]; try reflexivity.
  cbn [tangent_b fst snd]. rewrite list_fmap_insert. reflexivity.
Qed.

Lemma windows_shift (n : nat) (dbg : bool) (idx : list nat) :
  forall pts : list (point R),
    windows n dbg idx (shift d <$> pts) =
      let '(res, pts', cs) := windows n dbg idx pts in
      (res, shift d <$> pts', shift_call d <$> cs).
Proof.
  induction idx as [| i idx IH]; intros pts; cbn [windows].
  - reflexivity.
  - rewrite !list_lookup_fmap.
    destruct (pts !! i) as [A |]; [| reflexivity].
    destruct (pts !! S i) as [g |]; [| reflexivity].
    destruct (pts !! S (S i)) as [B |]; [| reflexivity].
    cbn [fmap option_fmap option_map]. cbv zeta.
    rewrite window_calls_shift, window_points_shift.
    destruct (translation_invariant d A g B) as [Ht _]. cbv zeta in Ht.
    destruct (tangent_circle A g B) as [e | r] eqn:Hk.
    + rewrite Ht. reflexivity.
    + assert (Hs : exists r', tangent_circle (shift d A) (shift d g) (shift d B) = inr r').
      { rewrite Ht. destruct r; eauto. }
      destruct Hs as [r' ->].
      rewrite IH.
      destruct (windows n dbg idx _) as [[res pts''] cs'].
      now rewrite fmap_app.
Qed.

Lemma marker_calls_shift (pts : list (point R)) :
  marker_calls (shift d <$> pts) = shift_call d <$> marker_calls pts.
Proof.
  induction pts as [| p pts IH]; [reflexivity |].
  unfold marker_calls in *. cbn [fmap list_fmap map concat].
  rewrite fmap_app. f_equal. exact IH.
Qed.

End Translation.

Section TranslationClaim.
Local Open Scope R_scope.

(** X13. In exact arithmetic, moving every control point by the vector
    [d] moves the drawing by [d]: [draw] has the same outcome, makes the
    same calls with their positions moved by [d] (sizes, angles and
    strokes as before), and leaves the point list of the unmoved run moved
    by [d]; for either value of [debug]. *)
Theorem draw_translation (d : R * R) (pts : list (point R)) (dbg : bool)
    (v : Vsketch R) :
  exists cs,
    let run := draw (mkWorld (mkSet pts dbg) v) in
    let moved := draw (mkWorld (mkSet (shift d <$> pts) dbg) v) in
    calls (vsk run.2) = calls v ++ cs /\
    calls (vsk moved.2) = calls v ++ (shift_call d <$> cs) /\
    points (self moved.2) = shift d <$> points (self run.2) /\
    moved.1 = run.1.
Proof.
  rewrite !draw_spec. cbn [self points debug vsk]. unfold draw_trace.
  rewrite length_fmap.
  destruct (decide _) as [Hlt | Hge].
  - exists (if dbg then marker_calls pts else []).
    cbn [fst snd self points vsk]. rewrite !calls_play.
    repeat split. destruct dbg; [now rewrite marker_calls_shift | reflexivity].
  - rewrite windows_shift.
    destruct (windows _ _ _ pts) as [[res pts'] cs].
    exists ((if dbg then marker_calls pts else []) ++ cs).
    cbn [fst snd self points vsk]. rewrite !calls_play.
    repeat split. rewrite fmap_app.
    destruct dbg; [now rewrite marker_calls_shift | reflexivity].
Qed.

End TranslationClaim.

(** ** Binary64: a coordinate that is not finite *)

Section NotFinite.

(** A float that is not finite is a NaN or an infinity. *)
Lemma not_finite_cases (x : float) :
  is_finite x = false -> x = nan \/ x = infinity \/ x = neg_infinity.
Proof.
  unfold is_finite, is_nan, is_infinity.
  rewrite !FloatAxioms.eqb_spec, FloatAxioms.abs_spec.
  destruct (Prim2SF x) as [s | s | | s mx ex] eqn:Hx.
  - discriminate.
  - intros _. right.
    destruct s; [right | left]; apply Prim2SF_inj; rewrite Hx; reflexivity.
  - intros _. left. apply Prim2SF_inj. rewrite Hx. reflexivity.
  - unfold SFeqb at 1. cbn [SFcompare].
    assert (Hc : (if s
                  then if s then match (ex ?= ex)%Z with
                                 | Eq => CompOpp (Pos.compare_cont Eq mx mx)
                                 | Lt => Gt | Gt => Lt end else Lt
                  else if s then Gt else match (ex ?= ex)%Z with
                                 | Eq => Pos.compare_cont Eq mx mx
                                 | Lt => Lt | Gt => Gt end) = Eq).
    { rewrite Z.compare_refl, Pos.compare_cont_refl. now destruct s. }
    rewrite Hc. discriminate.
Qed.

Lemma add_nan_l (x : float) : (nan + x)%float = nan.
Proof. apply Prim2SF_inj. rewrite add_spec. reflexivity. Qed.

Lemma add_nan_r (x : float) : (x + nan)%float = nan.
Proof.
  apply Prim2SF_inj. rewrite add_spec.
  destruct (Prim2SF x) as [s | s | | s mx ex]; reflexivity.
Qed.

Lemma mul_nan_l (x : float) : (nan * x)%float = nan.
Proof. apply Prim2SF_inj. rewrite mul_spec. reflexivity. Qed.

Lemma mul_nan_r (x : float) : (x * nan)%float = nan.
Proof.
  apply Prim2SF_inj. rewrite mul_spec.
  destruct (Prim2SF x) as [s | s | | s mx ex]; reflexivity.
Qed.

(** A difference with an operand that is not finite is not finite. *)
Lemma sub_not_finite_l (x y : float) :
  is_finite x = false -> is_finite (x - y) = false.
Proof.
  intros H.
  assert (Hd : (x - y)%float = nan \/ (x - y)%float = infinity \/
               (x - y)%float = neg_infinity).
  { destruct (not_finite_cases x H) as [-> | [-> | ->]].
    - left. apply Prim2SF_inj. rewrite sub_spec. reflexivity.
    - destruct (Prim2SF y) as [s | s | | s mx ex] eqn:Hy.
      + right; left. apply Prim2SF_inj. rewrite sub_spec, Hy. reflexivity.
      + destruct s; [right; left | left];
          apply Prim2SF_inj; rewrite sub_spec, Hy; reflexivity.
      + left. apply Prim2SF_inj. rewrite sub_spec, Hy. reflexivity.
      + right; left. apply Prim2SF_inj. rewrite sub_spec, Hy. reflexivity.
    - destruct (Prim2SF y) as [s | s | | s mx ex] eqn:Hy.
      + right; right. apply Prim2SF_inj. rewrite sub_spec, Hy. reflexivity.
      + destruct s; [left | right; right];
          apply Prim2SF_inj; rewrite sub_spec, Hy; reflexivity.
      + left. apply Prim2SF_inj. rewrite sub_spec, Hy. reflexivity.
      + right; right. apply Prim2SF_inj. rewrite sub_spec, Hy. reflexivity. }
  destruct Hd as [-> | [-> | ->]]; reflexivity.
Qed.

Lemma sub_not_finite_r (x y : float) :
  is_finite y = false -> is_finite (x - y) = false.
Proof.
  intros H.
  assert (Hd : (x - y)%float = nan \/ (x - y)%float = infinity \/
               (x - y)%float = neg_infinity).
  { destruct (not_finite_cases y H) as [-> | [-> | ->]].
    - left. apply Prim2SF_inj. rewrite sub_spec.
      destruct (Prim2SF x) as [s | s | | s mx ex]; reflexivity.
    - destruct (Prim2SF x) as [s | s | | s mx ex] eqn:Hx.
      + right; right. apply Prim2SF_inj. rewrite sub_spec, Hx. reflexivity.
      + destruct s; [right; right | left];
          apply Prim2SF_inj; rewrite sub_spec, Hx; reflexivity.
      + left. apply Prim2SF_inj. rewrite sub_spec, Hx. reflexivity.
      + right; right. apply Prim2SF_inj. rewrite sub_spec, Hx. reflexivity.
    - destruct (Prim2SF x) as [s | s | | s mx ex] eqn:Hx.
      + right; left. apply Prim2SF_inj. rewrite sub_spec, Hx. reflexivity.
      + destruct s; [left | right; left];
          apply Prim2SF_inj; rewrite sub_spec, Hx; reflexivity.
      + left. apply Prim2SF_inj. rewrite sub_spec, Hx. reflexivity.
      + right; left. apply Prim2SF_inj. rewrite sub_spec, Hx. reflexivity. }
  destruct Hd as [-> | [-> | ->]]; reflexivity.
Qed.

(** [x ** 2] of a float that is not finite: a NaN or [inf], no error. *)
Lemma b64_square_not_finite (x : float) :
  is_finite x = false ->
  b64_square x = inr nan \/ b64_square x = inr infinity.
Proof.
  intros H. destruct (not_finite_cases x H) as [-> | [-> | ->]];
    [left | right | right]; reflexivity.
Qed.

(** A sum with a NaN or [inf] is a NaN or [inf]. *)
Lemma add_nan_inf_l (s t : float) :
  s = nan \/ s = infinity ->
  (s + t)%float = nan \/ (s + t)%float = infinity.
Proof.
  intros [-> | ->]; [left; apply add_nan_l |].
  destruct (Prim2SF t) as [b | b | | b mx ex] eqn:Ht.
  - right. apply Prim2SF_inj. rewrite add_spec, Ht. reflexivity.
  - destruct b; [left | right]; apply Prim2SF_inj; rewrite add_spec, Ht; reflexivity.
  - left. apply Prim2SF_inj. rewrite add_spec, Ht. reflexivity.
  - right. apply Prim2SF_inj. rewrite add_spec, Ht. reflexivity.
Qed.

Lemma add_nan_inf_r (s t : float) :
  t = nan \/ t = infinity ->
  (s + t)%float = nan \/ (s + t)%float = infinity.
Proof.
  intros [-> | ->]; [left; apply add_nan_r |].
  destruct (Prim2SF s) as [b | b | | b mx ex] eqn:Hs.
  - right. apply Prim2SF_inj. rewrite add_spec, Hs. reflexivity.
  - destruct b; [left | right]; apply Prim2SF_inj; rewrite add_spec, Hs; reflexivity.
  - left. apply Prim2SF_inj. rewrite add_spec, Hs. reflexivity.
  - right. apply Prim2SF_inj. rewrite add_spec, Hs. reflexivity.
Qed.

(** A quotient of a float that is not finite by a NaN or [inf] is a NaN. *)
Lemma div_not_finite (d L : float) :
  is_finite d = false -> L = nan \/ L = infinity -> (d / L)%float = nan.
Proof.
  intros H HL.
  destruct (not_finite_cases d H) as [-> | [-> | ->]], HL as [-> | ->];
    reflexivity.
Qed.

Variable m : libm.

(** Lines 72, 73 with a component that is not finite. *)
Lemma vec_length_not_finite (x y : float) :
  is_finite x = false \/ is_finite y = false ->
  @vec_length float (b64_float m) (x, y) = inl OverflowError \/
  exists L, @vec_length float (b64_float m) (x, y) = inr L /\
            (L = nan \/ L = infinity).
Proof.
  intros H. unfold vec_length.
  cbn [fst snd fsquare fadd math_sqrt b64_float].
  assert (Hsqrt : forall z, z = nan \/ z = infinity ->
            exists L, math_1 PrimFloat.sqrt z = inr L /\ (L = nan \/ L = infinity)).
  { intros z [-> | ->]; [exists nan | exists infinity]; split;
      try reflexivity; [now left | now right]. }
  destruct H as [H | H].
  - destruct (b64_square_not_finite x H) as [Hs | Hs]; rewrite Hs;
      (destruct (b64_square_cases y) as [-> | [t ->]]; [now left |]);
      cbn [mbind E_bind]; right; apply Hsqrt; apply add_nan_inf_l; auto.
  - destruct (b64_square_cases x) as [-> | [s ->]]; [now left |].
    destruct (b64_square_not_finite y H) as [Hs | Hs]; rewrite Hs;
      cbn [mbind E_bind]; right; apply Hsqrt; apply add_nan_inf_r; auto.
Qed.

(** Lines 74-80 with a length that is a NaN or [inf]: the test of line 76
    fails and the division of lines 79, 80 is defined. *)
Lemma long_length (L : float) :
  L = nan \/ L = infinity ->
  PrimFloat.ltb L 0x1.b7cdfd9d7bdbbp-34 = false /\ PrimFloat.eqb L 0 = false.
Proof. intros [-> | ->]; split; reflexivity. Qed.

(** Lines 67-80 when a coordinate difference is not finite. *)
Lemma unit_vectors_not_finite (A g B : point float) :
  is_finite (px g - px A) = false \/ is_finite (py g - py A) = false \/
  is_finite (px B - px g) = false \/ is_finite (py B - py g) = false ->
  (exists e, @unit_vectors float (b64_float m) A g B = inl e) \/
  @unit_vectors float (b64_float m) A g B = inr None \/
  exists u v, @unit_vectors float (b64_float m) A g B = inr (Some (u, v)) /\
              (u.1 = nan \/ u.2 = nan \/ v.1 = nan \/ v.2 = nan).
Proof.
  destruct A as [[Ax Ay] rA], g as [[gx gy] rg], B as [[Bx By] rB].
  unfold px, py; cbn [fst snd]. intros H.
  unfold unit_vectors. cbn [fst snd fsub b64_float].
  set (dAx := (gx - Ax)%float) in *. set (dAy := (gy - Ay)%float) in *.
  set (dBx := (Bx - gx)%float) in *. set (dBy := (By - gy)%float) in *.
  destruct (@vec_length float (b64_float m) (dAx, dAy)) as [e | LA] eqn:HLA;
    [left; eauto |].
  destruct (@vec_length float (b64_float m) (dBx, dBy)) as [e | LB] eqn:HLB;
    [left; eauto |].
  cbn [mbind E_bind flt fdiv b64_float f1em10].
  destruct (PrimFloat.ltb LA _ || PrimFloat.ltb LB _) eqn:Ht;
    [right; left; reflexivity |].
  unfold b64_div.
  destruct (PrimFloat.eqb LA 0) eqn:HA0; [left; eauto |].
  destruct (PrimFloat.eqb LB 0) eqn:HB0; [left; eauto |].
  cbn [mbind E_bind mret E_ret].
  right; right. eexists _, _. split; [reflexivity |]. cbn [fst snd].
  assert (HA : is_finite dAx = false \/ is_finite dAy = false ->
               LA = nan \/ LA = infinity).
  { intros Hd. destruct (vec_length_not_finite _ _ Hd) as [He | (L & HL & HL')];
      rewrite HLA in *; [discriminate | congruence]. }
  assert (HB : is_finite dBx = false \/ is_finite dBy = false ->
               LB = nan \/ LB = infinity).
  { intros Hd. destruct (vec_length_not_finite _ _ Hd) as [He | (L & HL & HL')];
      rewrite HLB in *; [discriminate | congruence]. }
  destruct H as [H | [H | [H | H]]].
  - left. apply div_not_finite; auto.
  - right; left. apply div_not_finite; auto.
  - right; right; left. apply div_not_finite; auto.
  - right; right; right. apply div_not_finite; auto.
Qed.

(** Lines 67-80 when both segments have a coordinate difference that is
    not finite: the only error is the overflow of a square. *)
Lemma unit_vectors_not_finite_both (A g B : point float) :
  is_finite (px g - px A) = false \/ is_finite (py g - py A) = false ->
  is_finite (px B - px g) = false \/ is_finite (py B - py g) = false ->
  @unit_vectors float (b64_float m) A g B = inl OverflowError \/
  exists u v, @unit_vectors float (b64_float m) A g B = inr (Some (u, v)) /\
              (u.1 = nan \/ u.2 = nan \/ v.1 = nan \/ v.2 = nan).
Proof.
  intros HA HB.
  assert (H : is_finite (px g - px A) = false \/ is_finite (py g - py A) = false \/
              is_finite (px B - px g) = false \/ is_finite (py B - py g) = false)
    by tauto.
  pose proof (unit_vectors_not_finite A g B H) as Hu.
  destruct A as [[Ax Ay] rA], g as [[gx gy] rg], B as [[Bx By] rB].
  unfold px, py in *; cbn [fst snd] in *.
  unfold unit_vectors in *. cbn [fst snd fsub b64_float] in *.
  destruct (vec_length_not_finite _ _ HA) as [He | (LA & HLA & HLA')];
    [rewrite He; now left |].
  rewrite HLA in *.
  destruct (vec_length_not_finite _ _ HB) as [He | (LB & HLB & HLB')];
    [rewrite He; now left |].
  rewrite HLB in *.
  cbn [mbind E_bind flt fdiv b64_float f1em10] in *.
  destruct (long_length LA HLA') as [HA1 HA2].
  destruct (long_length LB HLB') as [HB1 HB2].
  rewrite HA1, HB1 in *. cbn [orb] in *.
  unfold b64_div in *. rewrite HA2, HB2 in *.
  cbn [mbind E_bind mret E_ret] in *.
  destruct Hu as [[e He] | [He | Hu]]; [discriminate | discriminate |].
  right. exact Hu.
Qed.

(** Lines 82-91 when a component of a unit vector is a NaN: the dot
    product is a NaN, the clamp of line 88 makes it [1.0]. *)
Lemma interior_angle_nan (u v : float * float) :
  c_acos m 1 = 0%float ->
  u.1 = nan \/ u.2 = nan \/ v.1 = nan \/ v.2 = nan ->
  @interior_angle_of float (b64_float m) u v = inr 0%float.
Proof.
  intros Hacos H. destruct u as [u1 u2], v as [v1 v2]. cbn [fst snd] in H.
  unfold interior_angle_of.
  cbn [fst snd fneg fmul fadd f1 math_acos b64_float].
  assert (Hdot : (u1 * - v1 + u2 * - v2)%float = nan).
  { destruct H as [-> | [-> | [-> | ->]]].
    - now rewrite mul_nan_l, add_nan_l.
    - now rewrite mul_nan_l, add_nan_r.
    - change (- nan)%float with nan. now rewrite mul_nan_r, add_nan_l.
    - change (- nan)%float with nan. now rewrite mul_nan_r, add_nan_r. }
  rewrite Hdot.
  match goal with
  | |- math_1 _ ?c = _ => change c with 1%float
  end.
  unfold math_1. rewrite Hacos. reflexivity.
Qed.

(** X14. In binary64, with a libm whose arc cosine of [1.0] is [0.0]: a
    window in which a coordinate of [A], [g] or [B] is a NaN or an
    infinity never rounds its corner: it is skipped or an exception is
    raised.  When the coordinate is one of the corner [g], the window is
    skipped or raises [OverflowError] from the square of another
    coordinate difference, and never [ValueError] or [ZeroDivisionError].
    The length of a segment with such an end is a NaN or [inf], its unit
    vector has a NaN component, the dot product is a NaN, the clamp of
    line 88 makes it [1.0] and the interior angle is [0.0].  With [debug]
    unset the window then makes no call and changes no point. *)
Theorem non_finite_window_is_skipped (A g B : point float) :
  c_acos m 1 = 0%float ->
  is_finite (px A) = false \/ is_finite (py A) = false \/
  is_finite (px g) = false \/ is_finite (py g) = false \/
  is_finite (px B) = false \/ is_finite (py B) = false ->
  (@tangent_circle float (b64_float m) A g B = inr None \/
   exists e, @tangent_circle float (b64_float m) A g B = inl e) /\
  (is_finite (px g) = false \/ is_finite (py g) = false ->
   @tangent_circle float (b64_float m) A g B = inr None \/
   @tangent_circle float (b64_float m) A g B = inl OverflowError) /\
  forall (w : world float) (i : nat),
    debug (self w) = false ->
    points (self w) !! i = Some A ->
    points (self w) !! S i = Some g ->
    points (self w) !! S (S i) = Some B ->
    @draw_window float (b64_float m) i w = (inr tt, w) \/
    exists e, @draw_window float (b64_float m) i w = (inl e, w).
Proof.
  intros Hacos H.
  assert (Hskip : forall u v,
            @unit_vectors float (b64_float m) A g B = inr (Some (u, v)) ->
            u.1 = nan \/ u.2 = nan \/ v.1 = nan \/ v.2 = nan ->
            @tangent_circle float (b64_float m) A g B = inr None).
  { intros u v Hu Hn. unfold tangent_circle. rewrite Hu.
    cbn [mbind E_bind]. destruct g as [[gx gy] rg].
    rewrite (interior_angle_nan u v Hacos Hn). cbn [mbind E_bind].
    change (@angle_skipped float (b64_float m) 0%float) with true.
    reflexivity. }
  assert (Hr : @tangent_circle float (b64_float m) A g B = inr None \/
               exists e, @tangent_circle float (b64_float m) A g B = inl e).
  { assert (Hd : is_finite (px g - px A) = false \/
                 is_finite (py g - py A) = false \/
                 is_finite (px B - px g) = false \/
                 is_finite (py B - py g) = false).
    { destruct H as [H | [H | [H | [H | [H | H]]]]].
      - left. now apply sub_not_finite_r.
      - right; left. now apply sub_not_finite_r.
      - left. now apply sub_not_finite_l.
      - right; left. now apply sub_not_finite_l.
      - right; right; left. now apply sub_not_finite_l.
      - right; right; right. now apply sub_not_finite_l. }
    destruct (unit_vectors_not_finite A g B Hd) as [[e He] | [He | (u & v & He & Hn)]].
    - right. exists e. unfold tangent_circle. now rewrite He.
    - left. unfold tangent_circle. now rewrite He.
    - left. exact (Hskip u v He Hn). }
  split; [exact Hr |]. split.
  - intros Hg.
    assert (HA : is_finite (px g - px A) = false \/ is_finite (py g - py A) = false).
    { destruct Hg as [Hg | Hg]; [left | right]; now apply sub_not_finite_l. }
    assert (HB : is_finite (px B - px g) = false \/ is_finite (py B - py g) = false).
    { destruct Hg as [Hg | Hg]; [left | right]; now apply sub_not_finite_r. }
    destruct (unit_vectors_not_finite_both A g B HA HB) as [He | (u & v & He & Hn)].
    + right. unfold tangent_circle. now rewrite He.
    + left. exact (Hskip u v He Hn).
  - intros w i Hd HA Hg HB.
    rewrite (@draw_window_spec float (b64_float m) i w A g B HA Hg HB). cbv zeta.
    destruct w as [[pts dbg] [st cs]]. cbn [self points debug vsk] in *. subst dbg.
    destruct Hr as [-> | [e ->]]; [left | right; exists e]; reflexivity.
Qed.

End NotFinite.

(** ** What the code does not read, and the distances from the corner *)

Section Ends.
Context {F : Type} {PF : PyFloat F}.
Local Open Scope pyfloat_scope.

Lemma tangent_circle_pos (A A' g B B' : point F) :
  px A' = px A -> py A' = py A -> px B' = px B -> py B' = py B ->
  tangent_circle A' g B' = tangent_circle A g B.
Proof.
  destruct A as [[Ax Ay] rA], A' as [[Ax' Ay'] rA'].
  destruct B as [[Bx By] rB], B' as [[Bx' By'] rB'].
  unfold px, py; cbn [fst snd]. intros -> -> -> ->. reflexivity.
Qed.

Lemma window_calls_pos (dbg last : bool) (A A' g B B' : point F) r :
  px A' = px A -> py A' = py A -> px B' = px B -> py B' = py B ->
  window_calls dbg last A' g B' r = window_calls dbg last A g B r.
Proof.
  intros H1 H2 H3 H4.
  unfold window_calls, reference_calls, path_of_corner.
  now rewrite H1, H2, H3, H4.
Qed.

Lemma same_but_end_radii_lookup (pts pts' : list (point F)) (j : nat) (p : point F) :
  same_but_end_radii pts pts' -> pts !! j = Some p ->
  exists p', pts' !! j = Some p' /\ px p' = px p /\ py p' = py p /\
             ((0 < j < length pts - 1)%nat -> p' = p).
Proof.
  intros [Hlen Hrel] Hp.
  destruct (lookup_lt_is_Some_2 pts' j) as [p' Hp'].
  { rewrite Hlen. eapply lookup_lt_Some; eauto. }
  exists p'. destruct (Hrel j p p' Hp Hp') as (H1 & H2 & H3).
  repeat split; auto.
  intros Hj. specialize (H3 Hj).
  destruct p as [[x y] r], p' as [[x' y'] r'].
  unfold px, py, pr in *; cbn [fst snd] in *. congruence.
Qed.

Lemma same_but_end_radii_insert (pts pts' : list (point F)) (j : nat) (p : point F) :
  same_but_end_radii pts pts' ->
  same_but_end_radii (<[j := p]> pts) (<[j := p]> pts').
Proof.
  intros [Hlen Hrel]. split; [now rewrite !length_insert |].
  intros i q q' Hq Hq'. rewrite length_insert.
  destruct (decide (i = j)) as [-> | Hne].
  - assert (Hj : (j < length pts)%nat).
    { apply lookup_lt_Some in Hq. now rewrite length_insert in Hq. }
    rewrite list_lookup_insert_eq in Hq by exact Hj.
    rewrite list_lookup_insert_eq in Hq' by (rewrite Hlen; exact Hj).
    injection Hq as <-. injection Hq' as <-. auto.
  - rewrite list_lookup_insert_ne in Hq by auto.
    rewrite list_lookup_insert_ne in Hq' by auto.
    eauto.
Qed.

Lemma windows_pos (dbg : bool) (idx : list nat) :
  forall pts pts' : list (point F),
    same_but_end_radii pts pts' ->
    Forall (fun i => (S (S i) < length pts)%nat) idx ->
    let '(res, pts1, cs) := windows (length pts) dbg idx pts in
    let '(res', pts1', cs') := windows (length pts) dbg idx pts' in
    res' = res /\ cs' = cs /\ same_but_end_radii pts1 pts1'.
Proof.
  induction idx as [| i idx IH]; intros pts pts' Hrel Hidx; cbn [windows].
  - auto.
  - apply Forall_cons in Hidx. destruct Hidx as [Hi Hidx].
    destruct (lookup_lt_is_Some_2 pts i ltac:(lia)) as [A HA].
    destruct (lookup_lt_is_Some_2 pts (S i) ltac:(lia)) as [g Hg].
    destruct (lookup_lt_is_Some_2 pts (S (S i)) ltac:(lia)) as [B HB].
    destruct (same_but_end_radii_lookup _ _ _ _ Hrel HA) as (A' & HA' & Ax & Ay & _).
    destruct (same_but_end_radii_lookup _ _ _ _ Hrel Hg) as (g' & Hg' & _ & _ & Hgg).
    destruct (same_but_end_radii_lookup _ _ _ _ Hrel HB) as (B' & HB' & Bx & By & _).
    specialize (Hgg ltac:(lia)). subst g'.
    rewrite HA, Hg, HB, HA', Hg', HB'. cbv zeta.
    rewrite (tangent_circle_pos A A' g B B' Ax Ay Bx By).
    rewrite (window_calls_pos dbg _ A A' g B B' _ Ax Ay Bx By).
    destruct (tangent_circle A g B) as [e | r] eqn:Hr.
    + auto.
    + assert (Hrel' : same_but_end_radii (window_points i g (inr r) pts)
                                        (window_points i g (inr r) pts')).
      { destruct r as [k |]; cbn [window_points]; [| exact Hrel].
        now apply same_but_end_radii_insert. }
      specialize (IH _ _ Hrel').
      rewrite window_points_length in IH. specialize (IH Hidx).
      destruct (windows (length pts) dbg idx (window_points i g (inr r) pts))
        as [[res pts1] cs].
      destruct (windows (length pts) dbg idx (window_points i g (inr r) pts'))
        as [[res' pts1'] cs'].
      destruct IH as (-> & -> & IH). auto.
Qed.

Lemma marker_calls_pos :
  forall pts pts' : list (point F),
    same_but_end_radii pts pts' -> marker_calls pts' = marker_calls pts.
Proof.
  induction pts as [| p pts IH]; intros pts' [Hlen Hrel].
  - destruct pts'; [reflexivity | discriminate].
  - destruct pts' as [| p' pts']; [discriminate |].
    unfold marker_calls. cbn [map concat]. fold (marker_calls pts) (marker_calls pts').
    destruct (Hrel 0%nat p p' eq_refl eq_refl) as (H1 & H2 & _).
    rewrite H1, H2. f_equal.
    assert (Hpos : forall (l l' : list (point F)),
              length l' = length l ->
              (forall j q q', l !! j = Some q -> l' !! j = Some q' ->
                              px q' = px q /\ py q' = py q) ->
              marker_calls l' = marker_calls l).
    { clear. induction l as [| q l IHl]; intros l' Hl Hq.
      - destruct l'; [reflexivity | discriminate].
      - destruct l' as [| q' l']; [discriminate |].
        unfold marker_calls. cbn [map concat]. fold (marker_calls l) (marker_calls l').
        destruct (Hq 0%nat q q' eq_refl eq_refl) as [-> ->]. f_equal.
        apply IHl; [cbn in Hl; lia |].
        intros j r r' Hr Hr'. exact (Hq (S j) r r' Hr Hr'). }
    apply Hpos; [cbn in Hlen; lia |].
    intros j q q' Hq Hq'.
    destruct (Hrel (S j) q q' Hq Hq') as (K1 & K2 & _). auto.
Qed.

(** X15. The radii of the first and of the last control point are never
    read.  Two point lists with the same positions and the same radii at
    the interior indices give the same outcome of [draw] and the same
    sketch, stroke and calls, for either value of [debug], and end as two
    point lists that again differ at most in these two radii. *)
Theorem end_radii_ignored (pts pts' : list (point F)) (dbg : bool) (v : Vsketch F) :
  same_but_end_radii pts pts' ->
  let run := draw (mkWorld (mkSet pts dbg) v) in
  let run' := draw (mkWorld (mkSet pts' dbg) v) in
  run'.1 = run.1 /\
  vsk run'.2 = vsk run.2 /\
  same_but_end_radii (points (self run.2)) (points (self run'.2)).
Proof.
  intros Hrel. cbv zeta. rewrite !draw_spec. cbn [self points debug vsk].
  unfold draw_trace.
  pose proof Hrel as [Hlen _]. rewrite Hlen.
  rewrite (marker_calls_pos pts pts' Hrel).
  destruct (decide _) as [Hlt | Hge].
  - cbn [fst snd self points vsk]. auto.
  - pose proof (windows_pos dbg (seq 0 (length pts - 2)) pts pts' Hrel) as Hw.
    specialize (Hw ltac:(apply Forall_forall; intros i Hi; apply elem_of_seq in Hi; lia)).
    destruct (windows (length pts) dbg (seq 0 (length pts - 2)) pts) as [[res pts1] cs].
    destruct (windows (length pts) dbg (seq 0 (length pts - 2)) pts') as [[res' pts1'] cs'].
    destruct Hw as (-> & -> & Hw). cbn [fst snd self points vsk]. auto.
Qed.

End Ends.

Section Distances.
Local Open Scope R_scope.

Lemma Rabs_sq (x : R) : Rabs x * Rabs x = x * x.
Proof. pose proof (Rsqr_abs x) as H. unfold Rsqr in H. lra. Qed.

(** Lines 114-120: the bisector is a unit vector, on both branches. *)
Lemma bisector_is_unit (u v w : R * R) :
  u.1 * u.1 + u.2 * u.2 = 1 ->
  bisector u v = inr w -> w.1 * w.1 + w.2 * w.2 = 1.
Proof.
  intros Hu Hw. rewrite bisector_R in Hw. cbv zeta in Hw.
  destruct (Rltb (norm (bisector_sum u v)) 1e-10) eqn:Hshort; injection Hw as <-.
  - cbn [fst snd]. transitivity (u.1 * u.1 + u.2 * u.2); [field | exact Hu].
  - apply Rltb_false in Hshort.
    pose proof (norm_sq (bisector_sum u v)) as Hn.
    set (n := norm (bisector_sum u v)) in *.
    unfold bisector_sum in Hn. rsimpl.
    transitivity (((- u.1 + v.1) * (- u.1 + v.1) + (- u.2 + v.2) * (- u.2 + v.2))
                  / (n * n)); [field; lra |].
    rewrite <- Hn. field. lra.
Qed.

(** X16. For every rounded corner, on both branches of the bisector and
    for any radius [r]: both tangent points are at the distance
    [|r| / tan (theta / 2)] from the corner, the bisector is a unit
    vector, and the center is at the distance [|r| / sin (theta / 2)] from
    the corner, which is at least [|r|]. *)
Theorem corner_distances (A g B : point R) (k : corner R) :
  tangent_circle A g B = inr (Some k) ->
  let theta := angle_at A g B in
  dist (tangent_a k) (pos g) = Rabs (pr g) / tan (theta / 2) /\
  dist (tangent_b k) (pos g) = Rabs (pr g) / tan (theta / 2) /\
  norm (bisector_unit k) = 1 /\
  dist (center k) (pos g) = Rabs (pr g) / sin (theta / 2) /\
  Rabs (pr g) <= dist (center k) (pos g).
Proof.
  intros Hk theta.
  destruct (tangent_circle_Some A g B k Hk) as (HA & HB & Hth & Hw & Ha & Hb & Hc).
  cbv zeta in Ha, Hb, Hc, Hw. fold theta in Ha, Hb, Hc, Hth.
  set (u := unit_dir A g) in *. set (v := unit_dir g B) in *.
  assert (Hu : u.1 * u.1 + u.2 * u.2 = 1) by (apply unit_dir_unit; lra).
  assert (Hv : v.1 * v.1 + v.2 * v.2 = 1) by (apply unit_dir_unit; lra).
  pose proof (bisector_is_unit u v _ Hu Hw) as Hww.
  destruct (half_angle_pos theta Hth) as (Hs & Hcos & Htan).
  pose proof (Rabs_pos (pr g)) as Hr0.
  pose proof (Rabs_sq (pr g)) as Hrr.
  assert (Ht : 0 <= Rabs (pr g) / tan (theta / 2)).
  { apply Rmult_le_pos; [lra | left; now apply Rinv_0_lt_compat]. }
  assert (Hd : 0 <= Rabs (pr g) / sin (theta / 2)).
  { apply Rmult_le_pos; [lra | left; now apply Rinv_0_lt_compat]. }
  assert (Htt : Rabs (pr g) / tan (theta / 2) * (Rabs (pr g) / tan (theta / 2))
                = pr g / tan (theta / 2) * (pr g / tan (theta / 2))).
  { transitivity (Rabs (pr g) * Rabs (pr g) / (tan (theta / 2) * tan (theta / 2)));
      [field; lra |]. rewrite Hrr. field. lra. }
  assert (Hdd : Rabs (pr g) / sin (theta / 2) * (Rabs (pr g) / sin (theta / 2))
                = pr g / sin (theta / 2) * (pr g / sin (theta / 2))).
  { transitivity (Rabs (pr g) * Rabs (pr g) / (sin (theta / 2) * sin (theta / 2)));
      [field; lra |]. rewrite Hrr. field. lra. }
  rewrite Ha, Hb, Hc. unfold dist, pos. cbn [fst snd].
  set (t := pr g / tan (theta / 2)) in *.
  set (d := pr g / sin (theta / 2)) in *.
  set (w := bisector_unit k) in *.
  split; [| split; [| split; [| split]]].
  - apply norm_eq; [exact Ht |]. cbn [fst snd]. rewrite Htt.
    transitivity (t * t * (u.1 * u.1 + u.2 * u.2)); [ring |]. rewrite Hu. ring.
  - apply norm_eq; [exact Ht |]. cbn [fst snd]. rewrite Htt.
    transitivity (t * t * (v.1 * v.1 + v.2 * v.2)); [ring |]. rewrite Hv. ring.
  - apply norm_eq; [lra |]. lra.
  - apply norm_eq; [exact Hd |]. cbn [fst snd]. rewrite Hdd.
    transitivity (d * d * (w.1 * w.1 + w.2 * w.2)); [ring |]. rewrite Hww. ring.
  - assert (Hn : norm (px g + d * w.1 - px g, py g + d * w.2 - py g)
                 = Rabs (pr g) / sin (theta / 2)).
    { apply norm_eq; [exact Hd |]. cbn [fst snd]. rewrite Hdd.
      transitivity (d * d * (w.1 * w.1 + w.2 * w.2)); [ring |]. rewrite Hww. ring. }
    rewrite Hn.
    pose proof (SIN_bound (theta / 2)) as Hsb.
    apply Rmult_le_reg_r with (sin (theta / 2)); [exact Hs |].
    unfold Rdiv. rewrite Rmult_assoc, Rinv_l by lra. nra.
Qed.

(** X17. On the fallback of lines 114-118 the bisector is the incoming
    direction [u] turned by a quarter turn to one fixed side, whatever the
    side the path turns to.  With [side p = u x (p - g)], the center has
    [side = - r / sin (theta / 2)] and [B] has [side = |gB| (u x v)]: for
    a positive radius and [u x v > 0] the center and [B] lie on opposite
    sides of the line through [A] and [g]. *)
Theorem fallback_center_side (A g B : point R) (k : corner R) :
  tangent_circle A g B = inr (Some k) ->
  norm (bisector_sum (unit_dir A g) (unit_dir g B)) < 1e-10 ->
  let u := unit_dir A g in
  let v := unit_dir g B in
  let side := fun p : R * R => u.1 * (p.2 - py g) - u.2 * (p.1 - px g) in
  bisector_unit k = (u.2 / 1, - u.1 / 1) /\
  side (center k) = - (pr g / sin (angle_at A g B / 2)) /\
  side (pos B) = seg_length g B * (u.1 * v.2 - u.2 * v.1) /\
  (0 < pr g -> 0 < u.1 * v.2 - u.2 * v.1 -> side (center k) < 0 < side (pos B)).
Proof.
  intros Hk Hshort. cbv zeta.
  destruct (tangent_circle_Some A g B k Hk) as (HA & HB & Hth & Hw & _ & _ & Hc).
  cbv zeta in Hc, Hw.
  set (u := unit_dir A g) in *. set (v := unit_dir g B) in *.
  assert (Hu : u.1 * u.1 + u.2 * u.2 = 1) by (apply unit_dir_unit; lra).
  rewrite bisector_R in Hw. cbv zeta in Hw.
  pose proof Hshort as Hb. apply Rltb_true in Hb. rewrite Hb in Hw.
  assert (Hw' : bisector_unit k = (u.2 / 1, - u.1 / 1)) by congruence.
  rewrite Hw' in Hc.
  destruct (half_angle_pos _ Hth) as (Hs & _ & _).
  set (d := pr g / sin (angle_at A g B / 2)) in *.
  assert (Hside : u.1 * ((center k).2 - py g) - u.2 * ((center k).1 - px g) = - d).
  { rewrite Hc. cbn [fst snd].
    transitivity (- d * (u.1 * u.1 + u.2 * u.2)); [field |]. rewrite Hu. ring. }
  assert (HsB : u.1 * ((pos B).2 - py g) - u.2 * ((pos B).1 - px g)
                = seg_length g B * (u.1 * v.2 - u.2 * v.1)).
  { unfold v, unit_dir, pos. cbn [fst snd]. field. lra. }
  split; [exact Hw' |]. split; [exact Hside |]. split; [exact HsB |].
  intros Hr Hx. rewrite Hside, HsB. split.
  - assert (0 < d) by (apply Rdiv_lt_0_compat; assumption). lra.
  - apply Rmult_lt_0_compat; lra.
Qed.

End Distances.

(** ** Further concrete runs *)

Section MoreRuns.
Local Open Scope R_scope.

(** X3 on the right angle with the radius [2]: the only window is the
    last one, it is rounded, and the path ends with the line to
    [(10, 10)]. *)
Lemma closing_line_needs_last_corner_witness :
  let pts : list (point R) := [(0, 0, 0); (10, 0, 2); (10, 10, 0)] in
  let w := mkWorld (mkSet pts false) (mkVsketch 1 []) in
  (draw w).1 = inr tt /\
  exists cs1 sa ea,
    ends_with_arc cs1 = true /\
    calls (vsk (draw w).2) =
      cs1 ++ [Line 0 0 (10 - 2) 0; Arc (10 - 2) 2 (2 * 2) (- (2) * 2) sa ea;
              Line 10 2 10 10].
Proof.
  cbv zeta.
  destruct (closing_line_needs_last_corner
              [(0, 0, 0); (10, 0, 2); (10, 10, 0)] (mkVsketch 1 [])
              ltac:(cbn; lia) eq_refl)
    as (A & g & B & cs1 & HA & Hg & _ & HB & _ & _ & He & Hm).
  cbn in HA, Hg, HB.
  injection HA as <-. injection Hg as <-. injection HB as <-.
  rewrite (right_angle_corner 0 2 0) in Hm.
  destruct Hm as [Hok (sa & ea & Hc)].
  split; [exact Hok |]. exists cs1, sa, ea. split; [exact He | exact Hc].
Defined.

(** X6 on the right angle with the radius [2]. *)
Lemma circle_is_tangent_witness :
  let A : point R := (0, 0, 0) in
  let g : point R := (10, 0, 2) in
  let B : point R := (10, 10, 0) in
  let k := mkCorner (10 - 2, 0) (10, 2) (10 - 2, 2) (- / sqrt 2, / sqrt 2) in
  tangent_circle A g B = inr (Some k) /\
  ((center k).1 - (tangent_a k).1) * (unit_dir A g).1
    + ((center k).2 - (tangent_a k).2) * (unit_dir A g).2 = 0 /\
  ((center k).1 - (tangent_b k).1) * (unit_dir g B).1
    + ((center k).2 - (tangent_b k).2) * (unit_dir g B).2 = 0.
Proof.
  cbv zeta. split; [apply right_angle_corner |].
  pose proof sqrt2_pos as Hs.
  destruct (circle_is_tangent (0, 0, 0) (10, 0, 2) (10, 10, 0) _
              (right_angle_corner 0 2 0))
    as (H1 & H2 & _).
  - rewrite (right_angle_bisector 0 2 0). lra.
  - split; [exact H1 | exact H2].
Defined.

(** X7 on the right angle with the radius [2]: a quarter turn. *)
Lemma arc_sweep_witness :
  let A : point R := (0, 0, 0) in
  let g : point R := (10, 0, 2) in
  let B : point R := (10, 10, 0) in
  let angles := arc_angles (10 - 2, 0) (10, 2) (10 - 2, 2) in
  angles.2 - angles.1 = PI - angle_at A g B.
Proof.
  cbv zeta.
  pose proof sqrt2_pos as Hs.
  destruct (arc_sweep (0, 0, 0) (10, 0, 2) (10, 10, 0) _
              (right_angle_corner 0 2 0))
    as (H1 & _).
  - rewrite (right_angle_bisector 0 2 0). lra.
  - unfold pr; cbn [snd]. lra.
  - exact H1.
Defined.

(** X8 on the right angle with the radius [2]. *)
Lemma tangent_point_on_segment_iff_witness :
  let A : point R := (0, 0, 0) in
  let g : point R := (10, 0, 2) in
  let B : point R := (10, 10, 0) in
  let t := 2 / tan (angle_at A g B / 2) in
  on_segment (10 - 2, 0) (pos A) (pos g) <-> 0 <= t <= seg_length A g.
Proof.
  cbv zeta.
  exact (proj1 (tangent_point_on_segment_iff (0, 0, 0) (10, 0, 2) (10, 10, 0) _
                  (right_angle_corner 0 2 0))).
Defined.

(** X9 on the right angle with the radius [0]: the two segments and an
    arc of size [0] at the corner. *)
Lemma zero_radii_draw_polyline_witness :
  draw (mkWorld (mkSet [(0, 0, 0); (10, 0, 0); (10, 10, 0)] false) (mkVsketch 1 []))
  = (inr tt,
     mkWorld (mkSet [(0, 0, 0); (10, 0, 0); (10, 10, 0)] false)
             (mkVsketch 1 [Line 0 0 10 0; Arc 10 0 0 0 0 0; Line 10 0 10 10])).
Proof.
  apply (zero_radii_draw_polyline [(0, 0, 0); (10, 0, 0); (10, 10, 0)] (mkVsketch 1 [])).
  intros i A g B HA Hg HB.
  destruct i as [| i]; [| destruct i; discriminate].
  cbn in HA, Hg, HB. injection HA as <-. injection Hg as <-. injection HB as <-.
  destruct (right_angle_lengths 0 0 0) as [H1 H2].
  pose proof (right_angle_angle 0 0 0) as H3.
  pose proof right_angle_in_range as H4.
  rewrite H1, H2, H3. repeat split; try lra.
Defined.

(** X10 on the right angle with the radius [2]. *)
Lemma draw_twice_differs_witness :
  let v : Vsketch R := mkVsketch 1 [] in
  let first := draw (mkWorld (mkSet [(0, 0, 0); (10, 0, 2); (10, 10, 0)] false) v) in
  let second := draw (mkWorld (self first.2) v) in
  calls (vsk second.2) <> calls (vsk first.2).
Proof.
  cbv zeta.
  destruct (right_angle_lengths 0 2 0) as [H1 H2].
  pose proof (right_angle_angle 0 2 0) as H3.
  pose proof right_angle_in_range as H4.
  apply (draw_twice_differs (0, 0, 0) (10, 0, 2) (10, 10, 0) (mkVsketch 1 [])).
  - lra.
  - lra.
  - rewrite H3. exact H4.
  - unfold pr; cbn [snd]. lra.
  - rewrite H1, H3. unfold pr; cbn [snd].
    replace (PI / 2 / 2) with (PI / 4) by field. rewrite tan_PI4. lra.
Defined.

(** X11 on the right angle: the radius [-2] puts the circle on the other
    side of the corner. *)
Lemma negative_radius_mirrors_witness :
  tangent_circle (0, 0, 0) (10, 0, - (2)) (10, 10, 0) =
    inr (Some (mkCorner (2 * 10 - (10 - 2), 2 * 0 - 0) (2 * 10 - 10, 2 * 0 - 2)
                        (2 * 10 - (10 - 2), 2 * 0 - 2) (- / sqrt 2, / sqrt 2))).
Proof.
  exact (negative_radius_mirrors (0, 0, 0) (10, 0, 2) (10, 10, 0) _
           (right_angle_corner 0 2 0)).
Defined.

(** X12 on the right angle with the radius [2]. *)
Lemma reversed_corner_witness :
  tangent_circle (10, 10, 0) (10, 0, 2) (0, 0, 0) =
    inr (Some (mkCorner (10, 2) (10 - 2, 0) (10 - 2, 2) (- / sqrt 2, / sqrt 2))).
Proof.
  pose proof sqrt2_pos as Hs.
  destruct (reversed_corner (0, 0, 0) (10, 0, 2) (10, 10, 0) _
              (right_angle_corner 0 2 0))
    as (H1 & _).
  - rewrite (right_angle_bisector 0 2 0). lra.
  - exact H1.
Defined.

(** X14 with a libm whose arc cosine of [1] is [0] and a corner at
    [x = inf]. *)
Lemma non_finite_window_is_skipped_witness :
  let m := mkLibm (fun _ => 0%float) (fun x => x) (fun x => x) (fun _ _ => 0%float) in
  let A : point float := (0, 0, 0)%float in
  let g : point float := (infinity, 0, 1)%float in
  let B : point float := (1, 1, 0)%float in
  @tangent_circle float (b64_float m) A g B = inr None \/
  @tangent_circle float (b64_float m) A g B = inl OverflowError.
Proof.
  cbv zeta.
  exact (proj1 (proj2 (non_finite_window_is_skipped
                  (mkLibm (fun _ => 0%float) (fun x => x) (fun x => x)
                          (fun _ _ => 0%float))
                  (0, 0, 0)%float (infinity, 0, 1)%float (1, 1, 0)%float
                  eq_refl (or_intror (or_intror (or_introl eq_refl)))))
               (or_introl eq_refl)).
Defined.

(** X15 on the right angle: other radii at the two ends, the same
    sketch. *)
Lemma end_radii_ignored_witness :
  let pts : list (point R) := [(0, 0, 0); (10, 0, 2); (10, 10, 0)] in
  let pts' : list (point R) := [(0, 0, 5); (10, 0, 2); (10, 10, 7)] in
  let v : Vsketch R := mkVsketch 1 [] in
  vsk (draw (mkWorld (mkSet pts' true) v)).2 = vsk (draw (mkWorld (mkSet pts true) v)).2.
Proof.
  cbv zeta.
  apply (end_radii_ignored [(0, 0, 0); (10, 0, 2); (10, 10, 0)]
           [(0, 0, 5); (10, 0, 2); (10, 10, 7)] true (mkVsketch 1 [])).
  split; [reflexivity |].
  intros j p p' Hp Hp'.
  destruct j as [| [| [| j]]]; cbn in Hp, Hp'; try discriminate;
    injection Hp as <-; injection Hp' as <-;
    (split; [reflexivity |]); (split; [reflexivity |]);
    cbn [length]; intros Hj; try lia; reflexivity.
Defined.

(** X16 on the right angle with the radius [2]. *)
Lemma corner_distances_witness :
  let A : point R := (0, 0, 0) in
  let g : point R := (10, 0, 2) in
  let B : point R := (10, 10, 0) in
  dist (10 - 2, 0) (pos g) = Rabs 2 / tan (angle_at A g B / 2) /\
  dist (10 - 2, 2) (pos g) = Rabs 2 / sin (angle_at A g B / 2).
Proof.
  cbv zeta.
  destruct (corner_distances (0, 0, 0) (10, 0, 2) (10, 10, 0) _
              (right_angle_corner 0 2 0))
    as (H1 & _ & _ & H4 & _).
  split; [exact H1 | exact H4].
Defined.

(** X17 on the edge of the skip band: the path turns to the side of
    [B], the center is put on the other side. *)
Lemma fallback_center_side_witness :
  let A : point R := (-1, 0, 0) in
  let g : point R := (0, 0, 1) in
  let B : point R := (cos 1e-10, sin 1e-10, 0) in
  let u := unit_dir A g in
  let side := fun p : R * R => u.1 * (p.2 - py g) - u.2 * (p.1 - px g) in
  exists k,
    tangent_circle A g B = inr (Some k) /\
    side (center k) < 0 < side (pos B).
Proof.
  cbv zeta. eexists. split; [apply (boundary_corner 1) |].
  destruct (fallback_center_side (-1, 0, 0) (0, 0, 1) (cos 1e-10, sin 1e-10, 0) _
              (boundary_corner 1) (boundary_bisector_short 1))
    as (_ & _ & _ & H).
  apply H.
  - unfold pr; cbn [snd]. lra.
  - destruct (boundary_dirs 1) as [-> ->]. cbn [fst snd].
    assert (0 < sin 1e-10) by (apply sin_gt_0; pose proof PI2_1; lra).
    lra.
Defined.

End MoreRuns.
